(** * Sorbet: name table, namer and indexing pipeline

    A shallow embedding of the parts of [core/Names.cc], [namer/namer.cc]
    and [main/pipeline/pipeline.cc] that the specification's properties
    talk about, followed by the properties themselves.

    Conventions.
    - C++ code that mutates a [GlobalState] and may raise a
      [SorbetException] is a computation in the monad [M]: a function from
      the state to a [Result] and the state reached (a raise keeps the
      mutations done so far, as in C++).
    - [ENFORCE] is the debug-build assertion macro: it raises in a debug
      build ([debug_mode = true]) and is compiled out otherwise.
    - Timers, counters, tracing and the printers of [opts.print] only
      observe; they are left out.
    - Code of the repository that the modelled functions call but that is
      absent from the sources at hand is either an abstract collaborator
      (a field of [NamerCollaborators] or [Phases]) or, where a property needs its
      behaviour, a definition marked "Modelled from the spec". *)

From stdpp Require Import gmap strings list sorting pretty.
From Stdlib Require Import ZArith Lia.

Set Warnings "-register-all,-clear-no-such-hyp".

(** ** Part I: definitions *)

(** *** Build configuration *)

(** [debug_mode] is a compile-time constant of the C++ build. *)
Class Build := { debug_mode : bool }.

(** *** Strictness levels *)

Module StrictLevel.

(** Modelled from the spec: [core/StrictLevel.h] is absent.  The
    constructors are the cases of the [switch] in
    [incrementStrictLevelCounter].  Only the order of the underlying
    values matters: the spec leaves [Ignore] and [Internal] unclamped
    while the guard of [decideStrictLevel] is [level > Ignore], which
    puts [Internal] below [Ignore]; [Autogenerated] and [Stdlib] are the
    custom levels above [Max]. *)
Inductive t :=
  | None_ | Internal | Ignore | False_ | True_ | Strict | Strong | Max
  | Autogenerated | Stdlib.

Definition rank (l : t) : Z :=
  match l with
  | None_ => 0 | Internal => 1 | Ignore => 2 | False_ => 3 | True_ => 4
  | Strict => 5 | Strong => 6 | Max => 7 | Autogenerated => 10
  | Stdlib => 11
  end.

#[global] Instance eq_dec : EqDecision t.
Proof. solve_decision. Defined.

Definition eqb (a b : t) : bool := bool_decide (a = b).
Definition ltb (a b : t) : bool := (rank a <? rank b)%Z.
Definition leb (a b : t) : bool := (rank a <=? rank b)%Z.

(** [std::min] and [std::max] on the enumeration. *)
Definition min (a b : t) : t := if ltb b a then b else a.
Definition max (a b : t) : t := if ltb a b then b else a.

End StrictLevel.

(** *** References, locations, diagnostics *)

(** [core::FileRef]: index into [gs.files]; id 0 is the ref that does
    not exist ([FileRef()]). *)
Abbreviation FileRef := nat.
Definition FileRef_none : FileRef := 0.

(** [core::SymbolRef]: index into [gs.symbols]; id 0 is [noSymbol]. *)
Abbreviation SymbolRef := nat.
Definition Symbols_noSymbol : SymbolRef := 0.
Definition SymbolRef_exists (s : SymbolRef) : bool := negb (s =? 0).

(** [core::Loc]; [Loc::none(file)] has a file and no range. *)
Record Loc := mkLoc { loc_file : FileRef; loc_range : option (nat * nat) }.

#[global] Instance Loc_eq_dec : EqDecision Loc.
Proof. solve_decision. Defined.

Definition Loc_none (file : FileRef) : Loc := mkLoc file None.

(** [core::ErrorClass{code, minLevel}]. *)
Record ErrorClass := mkErrorClass { code : Z; minLevel : StrictLevel.t }.

#[global] Instance ErrorClass_eq_dec : EqDecision ErrorClass.
Proof. solve_decision. Defined.

Module errors.
(** [core/errors/namer.h] *)
Module Namer.
Definition IncludeMutipleParam := mkErrorClass 4001 StrictLevel.False_.
Definition AncestorNotConstant := mkErrorClass 4002 StrictLevel.False_.
Definition IncludePassedBlock := mkErrorClass 4003 StrictLevel.False_.
Definition SelfOutsideClass := mkErrorClass 4006 StrictLevel.True_.
Definition DynamicDSLInvocation := mkErrorClass 4007 StrictLevel.True_.
Definition MethodNotFound := mkErrorClass 4008 StrictLevel.True_.
Definition InvalidAlias := mkErrorClass 4009 StrictLevel.True_.
Definition RedefinitionOfMethod := mkErrorClass 4010 StrictLevel.True_.
Definition InvalidTypeDefinition := mkErrorClass 4011 StrictLevel.True_.
Definition ModuleKindRedefinition := mkErrorClass 4012 StrictLevel.False_.
Definition InterfaceClass := mkErrorClass 4013 StrictLevel.False_.
Definition DynamicConstant := mkErrorClass 4014 StrictLevel.False_.
Definition InvalidClassOwner := mkErrorClass 4015 StrictLevel.False_.
Definition RootTypeMember := mkErrorClass 4016 StrictLevel.False_.
Definition DynamicConstantAssignment := mkErrorClass 4017 StrictLevel.False_.
Definition RepeatedArgument := mkErrorClass 4018 StrictLevel.False_.
End Namer.
(** Modelled from the spec: [core/errors/internal.h] and
    [core/errors/parser.h] are absent; the three classes that
    [pipeline.cc] names are given the codes of their families (1xxx
    internal, 2xxx parser), which only have to differ. *)
Module Internal.
Definition InternalError := mkErrorClass 1001 StrictLevel.Internal.
Definition FileNotFound := mkErrorClass 1004 StrictLevel.Internal.
End Internal.
Module Parser.
Definition ParserError := mkErrorClass 2001 StrictLevel.False_.
End Parser.
End errors.

(** Modelled from the spec: the diagnostic kinds of the error taxonomy
    (section 7) that the properties below name, and the class of the code
    that carries each.  The taxonomy lists [UselessStrictnessOverride] as
    a kind of its own; no header declares a class for it. *)
Inductive DiagnosticKind :=
  | KInterfaceClass | KRedefinitionOfMethod | KUselessStrictnessOverride
  | KParserError | KInternalError.

Definition kindOf (c : ErrorClass) : option DiagnosticKind :=
  if decide (c = errors.Namer.InterfaceClass) then Some KInterfaceClass
  else if decide (c = errors.Namer.RedefinitionOfMethod) then Some KRedefinitionOfMethod
  else if decide (c = errors.Parser.ParserError) then Some KParserError
  else if decide (c = errors.Internal.InternalError) then Some KInternalError
  else None.

(** A queued diagnostic: location, class and header line. *)
Record Error := mkError { err_loc : Loc; err_what : ErrorClass; err_header : string }.

(** *** Names ([core/Names.h], [core/Names.cc]) *)

(** [NameRef]: the id and, through [DebugOnlyCheck<NameRefDebugCheck>],
    the id of the global state that owns the name. *)
Record NameRef := mkNameRef { _id : nat; globalStateId : Z }.

(** [NameRef::operator==] compares ids only. *)
Definition NameRef_eqb (a b : NameRef) : bool := _id a =? _id b.
Definition NameRef_exists (n : NameRef) : bool := negb (_id n =? 0).

Inductive UniqueNameKind :=
  | Parser | Desugar | Namer | MangleRename | Singleton | Overload
  | TypeVarName | PositionalArg | MangledKeywordArg | ResolverMissingClass.

#[global] Instance UniqueNameKind_eq_dec : EqDecision UniqueNameKind.
Proof. solve_decision. Defined.

(** [core::Name]: a tagged union over [NameKind]. *)
Inductive Name :=
  | UTF8 (utf8 : string)
  | UNIQUE (uniqueNameKind : UniqueNameKind) (num : nat) (original : NameRef)
  | CONSTANT (original : NameRef).

Record DeepCloneHistoryEntry := mkDeepCloneHistoryEntry {
    dch_globalStateId : Z;
    lastNameKnownByParentGlobalState : nat
  }.

Record GlobalSubstitution := mkGlobalSubstitution {
    toGlobalStateId : Z;
    nameSubstitution : list NameRef
  }.

(** Well-known names.  Modelled from the spec: the generated table of
    names is absent; section 3 reserves a fixed prefix of ids
    [0..LAST_WELL_KNOWN_NAME] for them, the same in every global state.
    The numbering is the model's; only distinctness is used.  A well-known
    [NameRef] is a constant and carries no owner ([globalStateId = -1]). *)
Module Names.
Definition wellKnown (id : nat) : NameRef := mkNameRef id (-1).
Definition singleton := wellKnown 1.
Definition attached := wellKnown 2.
Definition include := wellKnown 3.
Definition extend := wellKnown 4.
Definition declareFinal := wellKnown 5.
Definition declareAbstract := wellKnown 6.
Definition declareInterface := wellKnown 7.
Definition blkArg := wellKnown 8.
Definition arg := wellKnown 9.
Definition staticInit := wellKnown 10.
Definition LAST_WELL_KNOWN_NAME : nat := 10.
End Names.

(** *** Trees ([ast/Trees.h], absent: the node kinds of the spec's data
    model, with the fields the modelled code reads) *)

Record LocalVariable := mkLocalVariable { _name : NameRef; unique : nat }.

(** [core::LocalVariable::selfVariable()]. *)
Definition selfVariable : LocalVariable := mkLocalVariable (Names.wellKnown 0) 0.

Inductive ClassDefKind := Module_ | Class_.

Inductive UnresolvedIdentKind := IdentLocal | IdentInstance | IdentClass | IdentGlobal.

Inductive Expression :=
  | EmptyTree
  | Send (loc : Loc) (recv : Expression) (fun_ : NameRef)
         (args : list Expression) (block : option Expression)
  | ClassDef (loc declLoc : Loc) (symbol : SymbolRef) (kind : ClassDefKind)
             (name : Expression) (ancestors singletonAncestors rhs : list Expression)
  | MethodDef (loc declLoc : Loc) (symbol : SymbolRef) (name : NameRef)
              (args : list Expression) (rhs : Expression) (flags : bool * bool)
  | Assign (loc : Loc) (lhs rhs : Expression)
  | Literal (loc : Loc) (value : string)
  | Local (loc : Loc) (localVariable : LocalVariable)
  | OptionalArg (loc : Loc) (expr default_ : Expression)
  | UnresolvedConstantLit (loc : Loc) (scope : Expression) (cnst : NameRef)
  | ConstantLit (loc : Loc) (symbol : SymbolRef) (original : Expression)
  | UnresolvedIdent (loc : Loc) (kind : UnresolvedIdentKind) (name : NameRef)
  | Field (loc : Loc) (symbol : SymbolRef)
  | InsSeq (loc : Loc) (stats : list Expression) (expr : Expression)
  | Hash (loc : Loc) (keys values : list Expression).

(** [Expression::loc].  An [EmptyTree] is built without arguments
    ([make_unique<ast::EmptyTree>()]), so its location is a constant:
    [Loc::none()], whose file is the ref that does not exist. *)
Definition Expression_loc (e : Expression) : Loc :=
  match e with
  | EmptyTree => Loc_none FileRef_none
  | Send l _ _ _ _ | ClassDef l _ _ _ _ _ _ _ | MethodDef l _ _ _ _ _ _
  | Assign l _ _ | Literal l _ | Local l _ | OptionalArg l _ _
  | UnresolvedConstantLit l _ _ | ConstantLit l _ _ | UnresolvedIdent l _ _
  | Field l _ | InsSeq l _ _ | Hash l _ _ => l
  end.

Definition isa_EmptyTree (e : Expression) : bool :=
  match e with EmptyTree => true | _ => false end.

Definition isa_ConstantLit (e : Expression) : bool :=
  match e with ConstantLit _ _ _ => true | _ => false end.

(** [Expression::isSelfReference]: a [Local] of the self variable. *)
Definition isSelfReference (e : Expression) : bool :=
  match e with
  | Local _ v => NameRef_eqb (_name v) (_name selfVariable) && (unique v =? unique selfVariable)
  | _ => false
  end.

(** The view of a [ClassDef] node that the namer's class-body code
    works on ([unique_ptr<ast::ClassDef> &klass]). *)
Record ClassDefNode := mkClassDefNode {
    cd_loc : Loc;
    cd_declLoc : Loc;
    cd_symbol : SymbolRef;
    cd_kind : ClassDefKind;
    cd_name : Expression;
    cd_ancestors : list Expression;
    cd_singletonAncestors : list Expression;
    cd_rhs : list Expression
  }.

(** The view of a [MethodDef] node ([unique_ptr<ast::MethodDef> method]);
    the flags are [SelfMethod] and [DSLSynthesized]. *)
Record MethodDefNode := mkMethodDefNode {
    md_loc : Loc;
    md_declLoc : Loc;
    md_symbol : SymbolRef;
    md_name : NameRef;
    md_args : list Expression;
    md_rhs : Expression;
    md_isSelf : bool;
    md_isDSLSynthesized : bool
  }.

(** [ast::ParsedArg]. *)
Record ParsedArg := mkParsedArg {
    pa_loc : Loc;
    pa_local : LocalVariable;
    pa_default_ : option Expression;
    pa_keyword : bool;
    pa_block : bool;
    pa_repeated : bool;
    pa_shadow : bool
  }.

(** [ast::ParsedFile]. *)
Record ParsedFile := mkParsedFile { tree : Expression; file : FileRef }.

(** *** Symbols ([core/Symbols.h], absent: the fields listed in the
    spec's data model) *)

Record ArgFlags := mkArgFlags {
    isKeyword : bool; isRepeated : bool; isDefault : bool; isBlock : bool
  }.

Record ArgInfo := mkArgInfo { arg_name : NameRef; arg_loc : Loc; arg_flags : ArgFlags }.

Inductive SymbolKind := KClass | KMethod | KField | KStaticField | KTypeMember.

#[global] Instance SymbolKind_eq_dec : EqDecision SymbolKind.
Proof. solve_decision. Defined.

(** The result type of a symbol, as far as the namer looks at it: a
    null pointer, an [AliasType] or anything else. *)
Inductive ResultType := NoType | AliasType (sym : SymbolRef) | OtherType.

Record SymbolFlags := mkSymbolFlags {
    isClassModuleSet : bool;
    isClassModule : bool;
    isClassFinal : bool;
    isClassAbstract : bool;
    isClassInterface : bool;
    isDSLSynthesized : bool
  }.

Record Symbol := mkSymbol {
    sym_owner : SymbolRef;
    sym_name : NameRef;
    sym_kind : SymbolKind;
    sym_locs : list Loc;
    sym_arguments : list ArgInfo;
    sym_members : gmap nat SymbolRef;   (* keyed by the id of the member's name *)
    sym_intrinsic : bool;               (* [intrinsic != nullptr] *)
    sym_resultType : ResultType;
    sym_flags : SymbolFlags
  }.

Definition set_name (n : NameRef) (s : Symbol) : Symbol :=
  mkSymbol (sym_owner s) n (sym_kind s) (sym_locs s) (sym_arguments s)
           (sym_members s) (sym_intrinsic s) (sym_resultType s) (sym_flags s).
Definition set_locs (ls : list Loc) (s : Symbol) : Symbol :=
  mkSymbol (sym_owner s) (sym_name s) (sym_kind s) ls (sym_arguments s)
           (sym_members s) (sym_intrinsic s) (sym_resultType s) (sym_flags s).
Definition set_arguments (a : list ArgInfo) (s : Symbol) : Symbol :=
  mkSymbol (sym_owner s) (sym_name s) (sym_kind s) (sym_locs s) a
           (sym_members s) (sym_intrinsic s) (sym_resultType s) (sym_flags s).
Definition set_members (m : gmap nat SymbolRef) (s : Symbol) : Symbol :=
  mkSymbol (sym_owner s) (sym_name s) (sym_kind s) (sym_locs s) (sym_arguments s)
           m (sym_intrinsic s) (sym_resultType s) (sym_flags s).
Definition set_flags (f : SymbolFlags) (s : Symbol) : Symbol :=
  mkSymbol (sym_owner s) (sym_name s) (sym_kind s) (sym_locs s) (sym_arguments s)
           (sym_members s) (sym_intrinsic s) (sym_resultType s) f.

Definition Symbol_isClass (s : Symbol) : bool := bool_decide (sym_kind s = KClass).

(** The flag setters of [core::Symbol], on the flag bits and on the
symbol. *)
Definition withClassFinal (f : SymbolFlags) : SymbolFlags :=
  mkSymbolFlags (isClassModuleSet f) (isClassModule f) true
                (isClassAbstract f) (isClassInterface f) (isDSLSynthesized f).
Definition withClassAbstract (f : SymbolFlags) : SymbolFlags :=
  mkSymbolFlags (isClassModuleSet f) (isClassModule f) (isClassFinal f)
                true (isClassInterface f) (isDSLSynthesized f).
Definition withClassInterface (f : SymbolFlags) : SymbolFlags :=
  mkSymbolFlags (isClassModuleSet f) (isClassModule f) (isClassFinal f)
                (isClassAbstract f) true (isDSLSynthesized f).
Definition withDSLSynthesized (f : SymbolFlags) : SymbolFlags :=
  mkSymbolFlags (isClassModuleSet f) (isClassModule f) (isClassFinal f)
                (isClassAbstract f) (isClassInterface f) true.

Definition Symbol_setClassFinal (s : Symbol) : Symbol :=
  set_flags (withClassFinal (sym_flags s)) s.
Definition Symbol_setClassAbstract (s : Symbol) : Symbol :=
  set_flags (withClassAbstract (sym_flags s)) s.
Definition Symbol_setClassInterface (s : Symbol) : Symbol :=
  set_flags (withClassInterface (sym_flags s)) s.
Definition Symbol_setDSLSynthesized (s : Symbol) : Symbol :=
  set_flags (withDSLSynthesized (sym_flags s)) s.

(** *** Files ([core/Files.h], absent) *)

Inductive FileType := NotYetRead | PayloadGeneration | Payload | Normal.

#[global] Instance FileType_eq_dec : EqDecision FileType.
Proof. solve_decision. Defined.

Record File := mkFile {
    path : string;
    source : string;
    sourceType : FileType;
    originalSigil : StrictLevel.t;
    strictLevel : StrictLevel.t;
    cachedParseTree : bool
  }.

(** *** The global state and the monad of code that mutates it *)

Record GlobalState := mkGlobalState {
    gs_globalStateId : Z;
    deepCloneHistory : list DeepCloneHistoryEntry;
    names : list Name;
    symbols : list Symbol;
    files : list File;
    errors_ : list Error;
    runningUnderAutogen : bool
  }.

Definition withNames (ns : list Name) (gs : GlobalState) : GlobalState :=
  mkGlobalState (gs_globalStateId gs) (deepCloneHistory gs) ns (symbols gs)
                (files gs) (errors_ gs) (runningUnderAutogen gs).
Definition withSymbols (ss : list Symbol) (gs : GlobalState) : GlobalState :=
  mkGlobalState (gs_globalStateId gs) (deepCloneHistory gs) (names gs) ss
                (files gs) (errors_ gs) (runningUnderAutogen gs).
Definition withFiles (fs : list File) (gs : GlobalState) : GlobalState :=
  mkGlobalState (gs_globalStateId gs) (deepCloneHistory gs) (names gs) (symbols gs)
                fs (errors_ gs) (runningUnderAutogen gs).
Definition withErrors (es : list Error) (gs : GlobalState) : GlobalState :=
  mkGlobalState (gs_globalStateId gs) (deepCloneHistory gs) (names gs) (symbols gs)
                (files gs) es (runningUnderAutogen gs).

(** The outcome of a call: a value, or a [SorbetException] in flight. *)
Inductive Result (A : Type) :=
  | Returns (a : A)
  | Throws.
Arguments Returns {A} a.
Arguments Throws {A}.

Definition M (A : Type) : Type := GlobalState -> Result A * GlobalState.

Definition ret {A} (a : A) : M A := fun gs => (Returns a, gs).

Definition bind {A B} (m : M A) (k : A -> M B) : M B :=
  fun gs => match m gs with
            | (Returns a, gs') => k a gs'
            | (Throws, gs') => (Throws, gs')
            end.

(** [Exception::raise]. *)
Definition raise {A} : M A := fun gs => (Throws, gs).

(** [try { m } catch (SorbetException &) { h }]. *)
Definition try_catch {A} (m : M A) (h : M A) : M A :=
  fun gs => match m gs with
            | (Returns a, gs') => (Returns a, gs')
            | (Throws, gs') => h gs'
            end.

Definition get : M GlobalState := fun gs => (Returns gs, gs).
Definition modify (f : GlobalState -> GlobalState) : M unit := fun gs => (Returns tt, f gs).

Declare Scope M_scope.
Delimit Scope M_scope with M.
Notation "x <- c1 ;; c2" := (bind c1 (fun x => c2))
  (at level 20, c1 at level 99, c2 at level 200, only parsing) : M_scope.
Notation "' pat <- c1 ;; c2" := (bind c1 (fun x => match x with pat => c2 end))
  (at level 20, pat pattern, c1 at level 99, c2 at level 200, only parsing) : M_scope.
Notation "c1 ;; c2" := (bind c1 (fun _ => c2))
  (at level 100, c2 at level 200, only parsing) : M_scope.
Open Scope M_scope.

(** [if (b) { m }]. *)
Definition whenM (b : bool) (m : M unit) : M unit := if b then m else ret tt.

(** [ENFORCE(cond)]. *)
Definition ENFORCE `{Build} (cond : bool) : M unit :=
  if debug_mode && negb cond then raise else ret tt.

(** Modelled from the spec: [GlobalState::beginError] and the error
    queue are absent.  By section 6 the queue accepts every structured
    error and by section 7 every class of the taxonomy is surfaced, so the
    builder always queues the diagnostic with its header. *)
Definition beginError (l : Loc) (what : ErrorClass) (header : string) : M unit :=
  modify (fun gs => withErrors (errors_ gs ++ [mkError l what header]) gs).

(** *** [core/Names.cc] *)

Module NameRefDebugCheck.

(** The constructor [NameRefDebugCheck(gs, _id)]: the owner recorded for
    a ref is the creating state, or the first ancestor of the deep-clone
    history that already knew the name. *)
Fixpoint ownerFromHistory (history : list DeepCloneHistoryEntry) (id : nat)
         (creator : Z) : Z :=
  match history with
  | [] => creator
  | deepCloneInfo :: rest =>
      if id <? lastNameKnownByParentGlobalState deepCloneInfo
      then dch_globalStateId deepCloneInfo
      else ownerFromHistory rest id creator
  end.

Definition new (gs : GlobalState) (id : nat) : Z :=
  ownerFromHistory (deepCloneHistory gs) id (gs_globalStateId gs).

(** [check(const GlobalState &gs, int _id)]. *)
Definition check `{Build} (globalStateId : Z) (id : nat) : M unit :=
  gs <- get;;
  if (globalStateId =? -1)%Z then ret tt
  else if id <=? Names.LAST_WELL_KNOWN_NAME then ret tt
  else if (globalStateId =? gs_globalStateId gs)%Z then ret tt
  else if existsb (fun deepCloneInfo =>
                     (globalStateId =? dch_globalStateId deepCloneInfo)%Z
                     && (id <? lastNameKnownByParentGlobalState deepCloneInfo))
                  (deepCloneHistory gs)
       then ret tt
  else ENFORCE false.


End NameRefDebugCheck.

(** [NameRef::NameRef(const GlobalState &gs, unsigned int id)]. *)
Definition NameRef_new (gs : GlobalState) (id : nat) : NameRef :=
  mkNameRef id (NameRefDebugCheck.new gs id).

(** [DebugOnlyCheck::runDebugOnlyCheck]: the check exists in debug
    builds only. *)
Definition runDebugOnlyCheck `{Build} (check : M unit) : M unit :=
  if debug_mode then check else ret tt.

(** [NameRef::enforceCorrectGlobalState]. *)
Definition enforceCorrectGlobalState `{Build} (n : NameRef) : M unit :=
  runDebugOnlyCheck (NameRefDebugCheck.check (globalStateId n) (_id n)).


(** The key under which the name table interns a name: the kind and the
    fields that [Name::hash] mixes ([original] by id). *)
Definition Name_same (a b : Name) : bool :=
  match a, b with
  | UTF8 s, UTF8 s' => bool_decide (s = s')
  | UNIQUE k n o, UNIQUE k' n' o' =>
      bool_decide (k = k') && (n =? n') && NameRef_eqb o o'
  | CONSTANT o, CONSTANT o' => NameRef_eqb o o'
  | _, _ => false
  end.

(** Modelled from the spec: the interning operations of the name table
    live in [core/GlobalState.cc], which is absent.  By section 4.1 each
    retrieves the id of an equal name or appends the name to the
    insertion-ordered table; re-entering a name that is present never
    fails.  (Freeze flags are not modelled: the callers modelled here run
    under unfreeze scopes.) *)
Definition enterName (n : Name) : M NameRef :=
  fun gs =>
    match list_find (fun m => Name_same n m = true) (names gs) with
    | Some (i, _) => (Returns (NameRef_new gs i), gs)
    | None =>
        let gs' := withNames (names gs ++ [n]) gs in
        (Returns (NameRef_new gs' (length (names gs))), gs')
    end.

Definition enterNameUTF8 (s : string) : M NameRef := enterName (UTF8 s).

Definition freshNameUnique (k : UniqueNameKind) (original : NameRef) (num : nat) : M NameRef :=
  enterName (UNIQUE k num original).

(** Section 4.1: the original of a constant must be [UTF8], or [UNIQUE]
    derived as [ResolverMissingClass]. *)
Definition constantOriginalOk (gs : GlobalState) (original : NameRef) : bool :=
  match names gs !! _id original with
  | Some (UTF8 _) => true
  | Some (UNIQUE ResolverMissingClass _ _) => true
  | _ => false
  end.

Definition enterNameConstant `{Build} (original : NameRef) : M NameRef :=
  gs <- get;;
  ENFORCE (constantOriginalOk gs original);;
  enterName (CONSTANT original).

(** [Name::ref] and [Name::sanityCheck], for the name stored at index
    [i] of the table ([this - gs.names.data()]). *)
Definition Name_ref (gs : GlobalState) (i : nat) : NameRef := NameRef_new gs i.

Definition Name_sanityCheck `{Build} (i : nat) : M unit :=
  if negb debug_mode then ret tt
  else
    gs <- get;;
    let current := Name_ref gs i in
    match names gs !! i with
    | None => ret tt
    | Some (UTF8 s) =>
        again <- enterNameUTF8 s;;
        ENFORCE (NameRef_eqb current again)
    | Some (UNIQUE k num original) =>
        ENFORCE (_id original <? _id current);;
        ENFORCE (0 <? num);;
        current2 <- freshNameUnique k original num;;
        ENFORCE (NameRef_eqb current current2)
    | Some (CONSTANT original) =>
        ENFORCE (_id original <? _id current);;
        again <- enterNameConstant original;;
        ENFORCE (NameRef_eqb current again)
    end.

(** [Name::deepCopy(const GlobalState &to)]. *)
Definition Name_deepCopy (to : GlobalState) (n : Name) : Name :=
  match n with
  | UTF8 s => UTF8 s
  | UNIQUE k num original => UNIQUE k num (NameRef_new to (_id original))
  | CONSTANT original => CONSTANT (NameRef_new to (_id original))
  end.

(** The invariant of section 3 on one stored name. *)
Definition Name_wellFormed (i : nat) (n : Name) : Prop :=
  match n with
  | UTF8 _ => True
  | UNIQUE _ num original => _id original < i /\ 0 < num
  | CONSTANT original => _id original < i
  end.


(** Re-entering a stored name, as [Name::sanityCheck] does per kind. *)
Definition reenter `{Build} (nm : Name) : M NameRef :=
  match nm with
  | UTF8 s => enterNameUTF8 s
  | UNIQUE k num original => freshNameUnique k original num
  | CONSTANT original => enterNameConstant original
  end.

(** [NameRef::data]: the name stored under the ref.  The ref has to lie
    within the table and to exist and, in a debug build, to belong to the
    state.  Reading past the end of the table is outside the language;
    the model raises. *)
Definition NameRef_data `{Build} (n : NameRef) : M Name :=
  gs <- get;;
  ENFORCE (_id n <? length (names gs));;   (* name id out of bounds *)
  ENFORCE (NameRef_exists n);;             (* non existing name *)
  enforceCorrectGlobalState n;;
  match names gs !! _id n with
  | Some nm => ret nm
  | None => raise
  end.

(** [Name::show].  The recursion follows [original] and nothing in the
    code bounds it: it ends because ids decrease along [original] in a
    well-formed table.  The model recurses on a budget of calls and
    answers [None] when the budget is used up. *)
Fixpoint Name_show `{Build} (budget : nat) (nm : Name) {struct budget} : M (option string) :=
  match nm with
  | UTF8 utf8 => ret (Some utf8)
  | UNIQUE k num original =>
      match budget with
      | 0 => ret None
      | S budget =>
          originalData <- NameRef_data original;;
          shown <- Name_show budget originalData;;
          ret ((fun s => match k with
                         | Singleton => "<Class:" +:+ s +:+ ">"
                         | Overload => s +:+ " (overload." +:+ pretty num +:+ ")"
                         | MangleRename => s +:+ "$" +:+ pretty num
                         | _ => s
                         end) <$> shown)
      end
  | CONSTANT original =>
      match budget with
      | 0 => ret None
      | S budget =>
          originalData <- NameRef_data original;;
          Name_show budget originalData
      end
  end.

(** [Name::shortName], on the same budget. *)
Fixpoint Name_shortName `{Build} (budget : nat) (nm : Name) {struct budget}
  : M (option string) :=
  match nm with
  | UTF8 utf8 => ret (Some utf8)
  | UNIQUE _ _ original | CONSTANT original =>
      match budget with
      | 0 => ret None
      | S budget =>
          originalData <- NameRef_data original;;
          Name_shortName budget originalData
      end
  end.

Definition Name_isUTF8 (nm : Name) : bool :=
  match nm with UTF8 _ => true | _ => false end.

(** [NameRef::addEq], [addQuestion], [addAt] and [prepend].  Each reads
    [raw.utf8] of the name, which is meaningful for a [UTF8] name only;
    for another kind the debug build raises at the [ENFORCE] and the
    model raises in every build. *)
Definition NameRef_addEq `{Build} (n : NameRef) : M NameRef :=
  name <- NameRef_data n;;
  ENFORCE (Name_isUTF8 name);;   (* addEq over non-utf8 name *)
  match name with
  | UTF8 utf8 => enterNameUTF8 (utf8 +:+ "=")
  | _ => raise
  end.

Definition NameRef_addQuestion `{Build} (n : NameRef) : M NameRef :=
  name <- NameRef_data n;;
  ENFORCE (Name_isUTF8 name);;   (* addQuestion over non-utf8 name *)
  match name with
  | UTF8 utf8 => enterNameUTF8 (utf8 +:+ "?")
  | _ => raise
  end.

Definition NameRef_addAt `{Build} (n : NameRef) : M NameRef :=
  name <- NameRef_data n;;
  ENFORCE (Name_isUTF8 name);;   (* addAt over non-utf8 name *)
  match name with
  | UTF8 utf8 => enterNameUTF8 ("@" +:+ utf8)
  | _ => raise
  end.

Definition NameRef_prepend `{Build} (n : NameRef) (s : string) : M NameRef :=
  name <- NameRef_data n;;
  ENFORCE (Name_isUTF8 name);;   (* prepend over non-utf8 name *)
  match name with
  | UTF8 utf8 => enterNameUTF8 (s +:+ utf8)
  | _ => raise
  end.

(** *** The symbol table *)

(** Well-known symbols ([core/Symbols.h], absent; the numbering is the
    model's, only distinctness is used). *)
Module Symbols.
Definition noSymbol : SymbolRef := 0.
Definition root : SymbolRef := 3.
Definition todo : SymbolRef := 6.
Definition Object : SymbolRef := 7.
End Symbols.

(** [SymbolRef::data]: dereferencing a ref that is not in the table is a
    contract violation, which the model raises. *)
Definition symData (s : SymbolRef) : M Symbol :=
  fun gs => match symbols gs !! s with
            | Some d => (Returns d, gs)
            | None => (Throws, gs)
            end.

Definition updSymbol (s : SymbolRef) (f : Symbol -> Symbol) : M unit :=
  _ <- symData s;;
  modify (fun gs => withSymbols (alter f s (symbols gs)) gs).

(** Modelled from the spec: [core/Symbols.cc] and [core/GlobalState.cc]
    are absent.  A symbol has a definition location and a location set
    (section 3, section 4.6 "extend the location set"): [loc] is the
    latest location, [addLoc] replaces the location of the same file or
    appends, and ignores a location without a file. *)
Definition Symbol_loc (s : Symbol) : Loc := List.last (sym_locs s) (Loc_none FileRef_none).

Fixpoint replaceLocOfFile (l : Loc) (ls : list Loc) : option (list Loc) :=
  match ls with
  | [] => None
  | existing :: rest =>
      if loc_file existing =? loc_file l then Some (l :: rest)
      else cons existing <$> replaceLocOfFile l rest
  end.

Definition Symbol_addLoc (l : Loc) (s : Symbol) : Symbol :=
  if loc_file l =? FileRef_none then s
  else match replaceLocOfFile l (sym_locs s) with
       | Some ls => set_locs ls s
       | None => set_locs (sym_locs s ++ [l]) s
       end.

(** [Symbol::findMemberNoDealias]: the member of that name, or
    [noSymbol]. *)
Definition findMemberNoDealias (owner : Symbol) (name : NameRef) : SymbolRef :=
  default Symbols.noSymbol (sym_members owner !! _id name).

Definition emptyFlags : SymbolFlags := mkSymbolFlags false false false false false false.

(** Modelled from the spec: [GlobalState::enterSymbol] (section 4.6:
    look the name up in the owner's members; if absent, enter a fresh
    symbol in that scope). *)
Definition enterSymbol (l : Loc) (owner : SymbolRef) (name : NameRef) (k : SymbolKind)
  : M SymbolRef :=
  ownerScope <- symData owner;;
  match sym_members ownerScope !! _id name with
  | Some existing => ret existing
  | None =>
      gs <- get;;
      let fresh := length (symbols gs) in
      let data := Symbol_addLoc l
                    (mkSymbol owner name k [] [] ∅ false NoType emptyFlags) in
      modify (fun gs =>
                withSymbols (alter (fun o => set_members (<[_id name := fresh]> (sym_members o)) o)
                                   owner (symbols gs) ++ [data]) gs);;
      ret fresh
  end.

Definition enterClassSymbol (l : Loc) (owner : SymbolRef) (name : NameRef) : M SymbolRef :=
  enterSymbol l owner name KClass.

Definition enterMethodSymbol (l : Loc) (owner : SymbolRef) (name : NameRef) : M SymbolRef :=
  enterSymbol l owner name KMethod.

(** Modelled from the spec: [GlobalState::enterMethodArgumentSymbol]
    (section 4.6 step 4: an argument symbol per name); the result is the
    position of the [ArgInfo] in the method's argument list. *)
Definition enterMethodArgumentSymbol (l : Loc) (owner : SymbolRef) (name : NameRef) : M nat :=
  ownerScope <- symData owner;;
  match list_find (fun a => NameRef_eqb (arg_name a) name = true) (sym_arguments ownerScope) with
  | Some (i, _) => ret i
  | None =>
      let store := mkArgInfo name l (mkArgFlags false false false false) in
      updSymbol owner (fun o => set_arguments (sym_arguments o ++ [store]) o);;
      ret (length (sym_arguments ownerScope))
  end.

(** Modelled from the spec: [Symbol::singletonClass] (section 3: a
    distinct symbol owned by the class, created lazily on first access and
    kept from then on).  The class finds it under the well-known name
    [singleton]; the singleton finds the class under [attached]. *)
Definition singletonClass (self : SymbolRef) : M SymbolRef :=
  selfData <- symData self;;
  match sym_members selfData !! _id Names.singleton with
  | Some s => ret s
  | None =>
      singletonName <- freshNameUnique Singleton (sym_name selfData) 1;;
      gs <- get;;
      let fresh := length (symbols gs) in
      let data := mkSymbol self singletonName KClass (sym_locs selfData) []
                           {[ _id Names.attached := self ]} false NoType
                           (mkSymbolFlags true false false false false false) in
      modify (fun gs =>
                withSymbols (alter (fun o => set_members (<[_id Names.singleton := fresh]> (sym_members o)) o)
                                   self (symbols gs) ++ [data]) gs);;
      ret fresh
  end.

(** Modelled from the spec: [GlobalState::mangleRenameSymbol] (section
    4.6, Mangle-rename): the symbol gets a new [UNIQUE] name of kind
    [MangleRename], numbered from 1 up to the first number whose name is
    not a member of the owner; the original name no longer reaches it.  At
    most [size members + 1] numbers are tried, which the recursion takes
    as its budget. *)
Fixpoint mangleRenameSearch (budget : nat) (ownerMembers : gmap nat SymbolRef)
         (origName : NameRef) (collisionCount : nat) : M NameRef :=
  name <- freshNameUnique MangleRename origName collisionCount;;
  match budget with
  | 0 => ret name
  | S budget' =>
      match ownerMembers !! _id name with
      | Some _ => mangleRenameSearch budget' ownerMembers origName (S collisionCount)
      | None => ret name
      end
  end.

Definition mangleRenameSymbol (what : SymbolRef) (origName : NameRef) : M unit :=
  whatData <- symData what;;
  let owner := sym_owner whatData in
  ownerData <- symData owner;;
  let ownerMembers := sym_members ownerData in
  name <- mangleRenameSearch (size ownerMembers) ownerMembers origName 1;;
  updSymbol owner (set_members (<[_id name := what]> (delete (_id origName) ownerMembers)));;
  updSymbol what (set_name name).

(** *** [namer/namer.cc]: class [NameInserter] *)

(** Collaborators of the namer that are absent: [Symbol::enclosingClass],
    [Symbol::dealias] and [ast::ArgParsing::parseArgs]. *)
Class NamerCollaborators := {
    enclosingClass : GlobalState -> SymbolRef -> SymbolRef;
    dealias : GlobalState -> SymbolRef -> SymbolRef;
    parseArgs : GlobalState -> list Expression -> list ParsedArg
  }.

Module NameInserter.
Section WithCollaborators.
Context `{Build} `{NamerCollaborators}.

Record LocalFrame := mkLocalFrame { moduleFunctionActive : bool }.

(** The mutable member of the class. *)
Definition scopeStack := list LocalFrame.

Definition enterScope (st : scopeStack) : scopeStack := st ++ [mkLocalFrame false].
Definition exitScope (st : scopeStack) : scopeStack := removelast st.

Fixpoint isValidAncestor (exp : Expression) : bool :=
  match exp with
  | EmptyTree => true
  | ConstantLit _ _ _ => true
  | UnresolvedConstantLit _ scope _ => isValidAncestor scope
  | _ => isSelfReference exp
  end.

(** The loop of [addAncestor] over [send->args] in reverse order; the
  result is the new content of [*dest]. *)
Fixpoint addAncestorArgs (header : string) (reversedArgs : list Expression)
         (dest : list Expression) : M (list Expression) :=
  match reversedArgs with
  | [] => ret dest
  | arg :: rest =>
      if isa_EmptyTree arg then addAncestorArgs header rest dest
      else if isSelfReference arg then addAncestorArgs header rest (dest ++ [arg])
      else if isValidAncestor arg then addAncestorArgs header rest (dest ++ [arg])
      else
        beginError (Expression_loc arg) errors.Namer.AncestorNotConstant header;;
        addAncestorArgs header rest dest
  end.

(** [addAncestor].  The function also overwrites arguments of [node];
  it does so only on the path that returns [true], after which the
  caller drops the node, so the node is not returned. *)
Definition addAncestor (klass : ClassDefNode) (node : Expression)
  : M (bool * ClassDefNode) :=
  match node with
  | Send loc recv fun_ args block =>
      if negb (NameRef_eqb fun_ Names.include) && negb (NameRef_eqb fun_ Names.extend)
      then ret (false, klass)
      else if negb (isSelfReference recv) then ret (false, klass)
      else if length args =? 0 then
        beginError loc errors.Namer.IncludeMutipleParam
                   "`{}` requires at least one argument";;
        ret (false, klass)
      else if (match block with Some _ => true | None => false end) then
        beginError loc errors.Namer.IncludePassedBlock
                   "`{}` can not be passed a block";;
        ret (false, klass)
      else
        let header := "`{}` must only contain constant literals" in
        if NameRef_eqb fun_ Names.include then
          dest <- addAncestorArgs header (rev args) (cd_ancestors klass);;
          ret (true, mkClassDefNode (cd_loc klass) (cd_declLoc klass) (cd_symbol klass)
                                    (cd_kind klass) (cd_name klass) dest
                                    (cd_singletonAncestors klass) (cd_rhs klass))
        else
          dest <- addAncestorArgs header (rev args) (cd_singletonAncestors klass);;
          ret (true, mkClassDefNode (cd_loc klass) (cd_declLoc klass) (cd_symbol klass)
                                    (cd_kind klass) (cd_name klass) (cd_ancestors klass)
                                    dest (cd_rhs klass))
  | _ => ret (false, klass)
  end.

(** [handleNamerDSL]. *)
Definition handleNamerDSL (klass : ClassDefNode) (line : Expression)
  : M (bool * ClassDefNode) :=
  '(isAncestor, klass) <- addAncestor klass line;;
  if isAncestor : bool then ret (true, klass)
  else
    match line with
    | Send loc recv fun_ args block =>
        whenM (NameRef_eqb fun_ Names.declareFinal)
              (updSymbol (cd_symbol klass) Symbol_setClassFinal;;
               s <- singletonClass (cd_symbol klass);;
               updSymbol s Symbol_setClassFinal);;
        whenM (NameRef_eqb fun_ Names.declareInterface
               || NameRef_eqb fun_ Names.declareAbstract)
              (updSymbol (cd_symbol klass) Symbol_setClassAbstract;;
               s <- singletonClass (cd_symbol klass);;
               updSymbol s Symbol_setClassAbstract);;
        whenM (NameRef_eqb fun_ Names.declareInterface)
              (updSymbol (cd_symbol klass) Symbol_setClassInterface;;
               whenM (match cd_kind klass with Class_ => true | Module_ => false end)
                     (beginError loc errors.Namer.InterfaceClass
                                 "Classes can't be interfaces. Use `abstract!` instead of `interface!`"));;
        (* explicitly keep the namer dsl functions present *)
        ret (false, klass)
    | _ => ret (false, klass)
    end.

(** [methodOwner]; [owner] is [ctx.owner]. *)
Definition methodOwner (owner : SymbolRef) : M SymbolRef :=
  gs <- get;;
  let owner := enclosingClass gs owner in
  if owner =? Symbols.root then ret Symbols.Object (* Root methods end up going on object *)
  else ret owner.

(** [isIntrinsic]. *)
Definition isIntrinsic (sym : SymbolRef) : M bool :=
  data <- symData sym;;
  ret (sym_intrinsic data
       && match sym_resultType data with NoType => true | _ => false end).

(** The loop of [paramsMatch]: the header of the first mismatch between
  the symbol's arguments and the parsed ones, position by position. *)
Fixpoint firstMismatch (symArgs : list ArgInfo) (parsedArgs : list ParsedArg)
  : option string :=
  match symArgs, parsedArgs with
  | symArg :: symRest, methodArg :: methodRest =>
      if negb (Bool.eqb (isKeyword (arg_flags symArg)) (pa_keyword methodArg))
      then Some "Method `{}` redefined with mismatched argument attribute `isKeyword`. Expected: `{}`, got: `{}`"
      else if negb (Bool.eqb (isBlock (arg_flags symArg)) (pa_block methodArg))
      then Some "Method `{}` redefined with mismatched argument attribute `isBlock`. Expected: `{}`, got: `{}`"
      else if negb (Bool.eqb (isRepeated (arg_flags symArg)) (pa_repeated methodArg))
      then Some "Method `{}` redefined with mismatched argument attribute `isRepeated`. Expected: `{}`, got: `{}`"
      else if isKeyword (arg_flags symArg)
              && negb (NameRef_eqb (arg_name symArg) (_name (pa_local methodArg)))
      then Some "Method `{}` redefined with mismatched argument name. Expected: `{}`, got: `{}`"
      else firstMismatch symRest methodRest
  | _, _ => None
  end.

(** [paramsMatch]; [owner] is [ctx.owner], the prior symbol.  Headers
  keep the format string. *)
Definition paramsMatch (owner : SymbolRef) (loc : Loc) (parsedArgs : list ParsedArg)
  : M bool :=
  gs <- get;;
  let sym := dealias gs owner in
  symData_ <- symData sym;;
  if negb (length (sym_arguments symData_) =? length parsedArgs) then
    beginError loc errors.Namer.RedefinitionOfMethod
               (if negb (sym =? owner)
                then "Method alias `{}` redefined without matching argument count. Expected: `{}`, got: `{}`"
                else "Method `{}` redefined without matching argument count. Expected: `{}`, got: `{}`");;
    ret false
  else
    match firstMismatch (sym_arguments symData_) parsedArgs with
    | Some header =>
        beginError loc errors.Namer.RedefinitionOfMethod header;;
        ret false
    | None => ret true
    end.

Definition setArgFlags (f : ArgFlags -> ArgFlags) (a : ArgInfo) : ArgInfo :=
  mkArgInfo (arg_name a) (arg_loc a) (f (arg_flags a)).

(** [arg2Symbol]; [owner] is [ctx.owner], the method being filled. *)
Definition arg2Symbol (owner : SymbolRef) (pos : nat) (parsedArg : ParsedArg)
  : M Expression :=
  ownerData <- symData owner;;
  if pos <? length (sym_arguments ownerData) then
    (* TODO: check that flags match; *)
    updSymbol owner (fun o => set_arguments
                       (alter (fun a => mkArgInfo (arg_name a) (pa_loc parsedArg) (arg_flags a))
                              pos (sym_arguments o)) o);;
    ret (Local (pa_loc parsedArg) (pa_local parsedArg))
  else
    name <- (if pa_keyword parsedArg then ret (_name (pa_local parsedArg))
             else if pa_block parsedArg then ret Names.blkArg
             else freshNameUnique PositionalArg Names.arg (pos + 1));;
    argInfo <- enterMethodArgumentSymbol (pa_loc parsedArg) owner name;;
    let localExpr := Local (pa_loc parsedArg) (pa_local parsedArg) in
    let setFlags (fl : ArgFlags) :=
      mkArgFlags (isKeyword fl || pa_keyword parsedArg)
                 (isRepeated fl || pa_repeated parsedArg)
                 (isDefault fl || match pa_default_ parsedArg with Some _ => true | None => false end)
                 (isBlock fl || pa_block parsedArg) in
    updSymbol owner (fun o => set_arguments (alter (setArgFlags setFlags) argInfo (sym_arguments o)) o);;
    match pa_default_ parsedArg with
    | Some d => ret (OptionalArg (pa_loc parsedArg) localExpr d)
    | None => ret localExpr
    end.

(** The loop of [fillInArgs]; [i] is the position of the next parsed
  argument, [args] the expressions built so far. *)
Fixpoint fillInArgsLoop (owner : SymbolRef) (swapArgs : bool) (swappedArg : ArgInfo)
         (parsedArgs : list ParsedArg) (i : nat) (inShadows : bool)
         (args : list Expression) : M (list Expression) :=
  match parsedArgs with
  | [] => ret args
  | arg :: rest =>
      if pa_shadow arg then
        fillInArgsLoop owner swapArgs swappedArg rest (S i) true
                       (args ++ [Local (pa_loc arg) (pa_local arg)])
      else
        ENFORCE (negb inShadows);;
        whenM (swapArgs && pa_block arg)
              (* see comment on swapArgs in fillInArgs *)
              (updSymbol owner (fun o => set_arguments (sym_arguments o ++ [swappedArg]) o));;
        expr <- arg2Symbol owner i arg;;
        ownerData <- symData owner;;
        ENFORCE (i <? length (sym_arguments ownerData));;
        fillInArgsLoop owner swapArgs swappedArg rest (S i) inShadows (args ++ [expr])
  end.

(** [fillInArgs]; [owner] is [ctx.owner]. *)
Definition fillInArgs (owner : SymbolRef) (parsedArgs : list ParsedArg)
  : M (list Expression) :=
  intrinsic <- isIntrinsic owner;;
  ownerData <- symData owner;;
  let swapArgs := intrinsic && (length (sym_arguments ownerData) =? 1) in
  match swapArgs, sym_arguments ownerData with
  | true, first :: _ =>
      (* When we're filling in an intrinsic method, we want to overwrite
         the block arg that used to exist with the block arg that we got
         from desugaring the method def in the RBI files. *)
      ENFORCE (isBlock (arg_flags first));;
      updSymbol owner (set_arguments []);;
      fillInArgsLoop owner true first parsedArgs 0 false []
  | _, _ =>
      fillInArgsLoop owner false (mkArgInfo Names.blkArg (Loc_none FileRef_none)
                                            (mkArgFlags false false false false))
                     parsedArgs 0 false []
  end.

Definition withSymbolAndArgs (method : MethodDefNode) (sym : SymbolRef)
           (args : list Expression) : MethodDefNode :=
  mkMethodDefNode (md_loc method) (md_declLoc method) sym (md_name method) args
                  (md_rhs method) (md_isSelf method) (md_isDSLSynthesized method).

(** [preTransformMethodDef]; [ctxOwner] is [ctx.owner]. *)
Definition preTransformMethodDef (st : scopeStack) (ctxOwner : SymbolRef)
           (method : MethodDefNode) : M (scopeStack * MethodDefNode) :=
  let st := enterScope st in
  owner <- methodOwner ctxOwner;;
  ownerData <- symData owner;;
  owner <- (if md_isSelf method && Symbol_isClass ownerData
            then singletonClass owner else ret owner);;
  ownerData <- symData owner;;
  ENFORCE (Symbol_isClass ownerData);;
  gs <- get;;
  let parsedArgs := parseArgs gs (md_args method) in
  let sym := findMemberNoDealias ownerData (md_name method) in
  let enterFresh :=
    symbol <- enterMethodSymbol (md_declLoc method) owner (md_name method);;
    args <- fillInArgs symbol parsedArgs;;
    updSymbol symbol (Symbol_addLoc (md_declLoc method));;
    whenM (md_isDSLSynthesized method) (updSymbol symbol Symbol_setDSLSynthesized);;
    ret (st, withSymbolAndArgs method symbol args) in
  if SymbolRef_exists sym then
    symData_ <- symData sym;;
    if bool_decide (md_declLoc method = Symbol_loc symData_) then
      (* TODO remove if the paramsMatch is perfect *)
      (* Reparsing the same file *)
      args <- fillInArgs sym parsedArgs;;
      ret (st, withSymbolAndArgs method sym args)
    else
      intrinsic <- isIntrinsic sym;;
      matches <- (if intrinsic : bool then ret true
                  else paramsMatch sym (md_declLoc method) parsedArgs);;
      (if matches : bool
       then updSymbol sym (Symbol_addLoc (md_declLoc method))
       else mangleRenameSymbol sym (md_name method));;
      enterFresh
  else enterFresh.


(** [Symbol::findMember] ([core/Symbols.cc], absent): the member of that
  name in the scope's members, dealiased. *)
Definition findMember (gs : GlobalState) (owner : Symbol) (name : NameRef) : SymbolRef :=
  let member := findMemberNoDealias owner name in
  if SymbolRef_exists member then dealias gs member else member.

(** [squashNames]; the result is the symbol and the new content of
  [node].  The headers keep the format string. *)
Fixpoint squashNames (owner : SymbolRef) (node : Expression) : M (SymbolRef * Expression) :=
  match node with
  | UnresolvedConstantLit loc scope cnst =>
      '(newOwner, scope) <- squashNames owner scope;;
      newOwnerData <- symData newOwner;;
      gs <- get;;
      let existing := findMember gs newOwnerData cnst in
      if SymbolRef_exists existing
      then ret (existing, ConstantLit loc existing (UnresolvedConstantLit loc scope cnst))
      else if negb (Symbol_isClass newOwnerData) then
        beginError loc errors.Namer.InvalidClassOwner
                   "Can't nest `{}` under `{}` because `{}` is not a class or module";;
        ret (owner, EmptyTree)
      else
        existing <- enterClassSymbol loc newOwner cnst;;
        singletonClass existing;;   (* force singleton class into existance *)
        ret (existing, ConstantLit loc existing (UnresolvedConstantLit loc scope cnst))
  | ConstantLit _ symbol _ =>
      symData symbol;;
      gs <- get;;
      ret (dealias gs symbol, node)
  | UnresolvedIdent loc kind name =>
      whenM (match kind with IdentClass => false | _ => true end
             || negb (NameRef_eqb name Names.singleton))
            (beginError loc errors.Namer.DynamicConstant "Unsupported constant scope");;
      (* emitted via `class << self` blocks *)
      ret (owner, EmptyTree)
  | EmptyTree =>
      (* ::Foo *)
      ret (owner, EmptyTree)
  | _ =>
      if isSelfReference node
      then ret (owner, EmptyTree)   (* self::Foo *)
      else
        beginError (Expression_loc node) errors.Namer.DynamicConstant
                   "Dynamic constant references are unsupported";;
        ret (owner, EmptyTree)
  end.

Definition set_resultType (t : ResultType) (s : Symbol) : Symbol :=
  mkSymbol (sym_owner s) (sym_name s) (sym_kind s) (sym_locs s) (sym_arguments s)
           (sym_members s) (sym_intrinsic s) t (sym_flags s).

(** [aliasMethod] and [aliasModuleFunction]. *)
Definition aliasMethod (l : Loc) (owner : SymbolRef) (newName : NameRef) (method : SymbolRef)
  : M unit :=
  alias <- enterMethodSymbol l owner newName;;
  updSymbol alias (set_resultType (AliasType method)).

Definition aliasModuleFunction (l : Loc) (method : SymbolRef) : M unit :=
  methodData <- symData method;;
  let owner := sym_owner methodData in
  singleton <- singletonClass owner;;
  methodData <- symData method;;
  aliasMethod l singleton (sym_name methodData) method.

(** [postTransformMethodDef].  The [ENFORCE]s read the symbol in debug
  builds only; [scopeStack.back()] of an empty stack is outside the
  language, the model raises. *)
Definition postTransformMethodDef (st : scopeStack) (method : MethodDefNode)
  : M (scopeStack * MethodDefNode) :=
  let argsMatchSymbol : M unit :=
    if debug_mode then
      symbolData <- symData (md_symbol method);;
      ENFORCE (length (md_args method) =? length (sym_arguments symbolData))
    else ret tt in
  argsMatchSymbol;;
  let st := exitScope st in
  match last st with
  | None => raise
  | Some frame =>
      whenM (moduleFunctionActive frame)
            (symbolData <- symData (md_symbol method);;
             aliasModuleFunction (Symbol_loc symbolData) (md_symbol method));;
      argsMatchSymbol;;
      (* Not all information is unfortunately available in the symbol.
         Original argument names aren't. *)
      ret (st, method)
  end.
End WithCollaborators.
End NameInserter.

(** *** [main/pipeline/pipeline.cc] *)

Module Phase.
(** [options::Phase]. *)
Inductive t :=
  | INIT | PARSER | DESUGARER | DSL | LOCAL_VARS | NAMER | RESOLVER | CFG | INFERENCER.

#[global] Instance eq_dec : EqDecision t.
Proof. solve_decision. Defined.

Definition eqb (a b : t) : bool := bool_decide (a = b).
End Phase.

(** The key-value store behind the parse-tree cache; a null
    [unique_ptr<KeyValueStore>] is [None]. *)
Abbreviation KeyValueStore := (gmap string (list Byte.byte)).

(** [options::Options], the fields the pipeline reads; [fs_readFile] is
    [opts.fs->readFile], with [None] for a [FileNotFoundException]. *)
Record Options := mkOptions {
    strictnessOverrides : gmap string StrictLevel.t;
    forceMinStrict : StrictLevel.t;
    forceMaxStrict : StrictLevel.t;
    stopAfterPhase : Phase.t;
    skipDSLPasses : bool;
    storeState : string;
    fs_readFile : string -> option string
  }.

(** The phases and helpers that [pipeline.cc] calls and that are absent
    (the spec lists them as external collaborators): any of them may
    mutate the global state and may raise. *)
Class Phases := {
    ParseNode : Type;
    (** [parser::Parser::run] *)
    Parser_run : FileRef -> M ParseNode;
    (** [ast::desugar::node2Tree] *)
    node2Tree : ParseNode -> M Expression;
    (** [plugin::SubprocessTextPlugin::run] *)
    SubprocessTextPlugin_run : Expression -> M (Expression * list File);
    (** [dsl::DSL::run] *)
    DSL_run : Expression -> M Expression;
    (** [local_vars::LocalVars::run] *)
    LocalVars_run : ParsedFile -> M ParsedFile;
    (** [core::serialize::Serializer::loadExpression] and [storeExpression] *)
    loadExpression : list Byte.byte -> nat -> M Expression;
    storeExpression : GlobalState -> Expression -> list Byte.byte;
    (** [crypto_hashing::hash64] followed by [absl::BytesToHexString] *)
    hash64Hex : string -> string;
    (** [File::fileSigil]: the sigil written in the source *)
    fileSigil : string -> StrictLevel.t;
    (** [GlobalState::deepCopy] *)
    deepCopy : GlobalState -> GlobalState;
    (** [GlobalState::sanityCheck] *)
    GlobalState_sanityCheck : M unit;
    (** the constructor [GlobalSubstitution(from, to, optionalCommonParent)],
        a computation on [to] *)
    GlobalSubstitution_new : GlobalState -> GlobalState -> M GlobalSubstitution;
    (** [ast::Substitute::run] *)
    Substitute_run : GlobalSubstitution -> Expression -> M Expression
  }.

Module pipeline.
Section WithPhases.
Context `{Build} `{Phases}.

(** The constructor of [core::File].  Modelled from the spec (section
  3, Files): the sigil is the level written at the top of the source;
  the derived level starts from it. *)
Definition File_new (path source : string) (type : FileType) : File :=
  mkFile path source type (fileSigil source) (fileSigil source) false.

(** [FileRef::data] and [dataAllowingUnsafe]: the slot of the file
  table.  The callers pass refs that [reserveFiles] or [enterFile]
  handed out; for any other ref the model reads an unread, empty
  slot. *)
Definition notYetRead : File :=
  mkFile "" "" NotYetRead StrictLevel.None_ StrictLevel.None_ false.

Definition FileRef_data (gs : GlobalState) (f : FileRef) : File :=
  default notYetRead (files gs !! f).

Definition updFile (f : FileRef) (g : File -> File) : M unit :=
  modify (fun gs => withFiles (alter g f (files gs)) gs).

Definition set_strictLevel (l : StrictLevel.t) (f : File) : File :=
  mkFile (path f) (source f) (sourceType f) (originalSigil f) l (cachedParseTree f).
Definition set_sourceType (t : FileType) (f : File) : File :=
  mkFile (path f) (source f) t (originalSigil f) (strictLevel f) (cachedParseTree f).
Definition set_cachedParseTree (b : bool) (f : File) : File :=
  mkFile (path f) (source f) (sourceType f) (originalSigil f) (strictLevel f) b.

(** Modelled from the spec: [GlobalState::enterNewFileAt] fills the
  slot reserved for the file (section 4.4 step 1) and
  [GlobalState::enterFile] appends to the file table. *)
Definition enterNewFileAt (f : File) (id : FileRef) : M FileRef :=
  modify (fun gs => withFiles (<[id := f]> (files gs)) gs);;
  ret id.

Definition enterFile (f : File) : M FileRef :=
  gs <- get;;
  modify (fun gs => withFiles (files gs ++ [f]) gs);;
  ret (length (files gs)).

Definition fileKey (gs : GlobalState) (file : FileRef) : string :=
  path (FileRef_data gs file) +:+ "//" +:+ hash64Hex (source (FileRef_data gs file)).

Definition fetchTreeFromCache (file : FileRef) (kvstore : option KeyValueStore)
  : M (option Expression) :=
  gs <- get;;
  match kvstore with
  | Some store =>
      if file <? length (files gs) then
        let fileHashKey := fileKey gs file in
        match store !! fileHashKey with
        | Some maybeCached =>
            cachedTree <- loadExpression maybeCached file;;
            updFile file (set_cachedParseTree true);;
            ENFORCE (loc_file (Expression_loc cachedTree) =? file);;
            ret (Some cachedTree)
        | None => ret None
        end
      else ret None
  | None => ret None
  end.

Fixpoint cacheTrees (gs : GlobalState) (kvstore : option KeyValueStore)
         (trees : list ParsedFile) : option KeyValueStore :=
  match kvstore with
  | None => None
  | Some store =>
      match trees with
      | [] => Some store
      | tree_ :: rest =>
          if cachedParseTree (FileRef_data gs (file tree_)) then cacheTrees gs kvstore rest
          else cacheTrees gs
                 (Some (<[fileKey gs (file tree_) := storeExpression gs (tree tree_)]> store))
                 rest
      end
  end.

Definition runParser (file : FileRef) : M ParseNode := Parser_run file.
Definition runDesugar (file : FileRef) (parseTree : ParseNode) : M Expression :=
  node2Tree parseTree.
Definition runDSL (file : FileRef) (ast : Expression) : M Expression := DSL_run ast.
Definition runLocalVars (tree_ : ParsedFile) : M ParsedFile := LocalVars_run tree_.

Definition emptyParsedFile (file : FileRef) : ParsedFile := mkParsedFile EmptyTree file.

Definition emptyPluginFile (file : FileRef) : ParsedFile * list File :=
  (emptyParsedFile file, []).

(** [decideStrictLevel]. *)
Definition decideStrictLevel (file : FileRef) (opts : Options) : M StrictLevel.t :=
  gs <- get;;
  let fileData := FileRef_data gs file in
  let filePath := path fileData in
  (* make sure all relative file paths start with ./ *)
  let filePath :=
    if negb (String.prefix "/" filePath) && negb (String.prefix "./" filePath)
    then "./" +:+ filePath else filePath in
  level <- match strictnessOverrides opts !! filePath with
           | Some fnd =>
               whenM (StrictLevel.eqb fnd (originalSigil fileData))
                     (beginError (Loc_none file) errors.Parser.ParserError
                                 "Useless override of strictness level");;
               ret fnd
           | None =>
               if StrictLevel.eqb (originalSigil fileData) StrictLevel.None_
               then ret StrictLevel.False_
               else ret (originalSigil fileData)
           end;;
  let minStrict := forceMinStrict opts in
  let maxStrict := forceMaxStrict opts in
  let level :=
    if StrictLevel.leb level StrictLevel.Max && StrictLevel.ltb StrictLevel.Ignore level
    then StrictLevel.max (StrictLevel.min level maxStrict) minStrict
    else level in
  gs <- get;;
  if runningUnderAutogen gs
  then ret StrictLevel.False_ (* Autogen stops before infer but needs to see all definitions *)
  else ret level.

(** [incrementStrictLevelCounter]: the counters are not modelled, the
  raises are. *)
Definition incrementStrictLevelCounter (level : StrictLevel.t) : M unit :=
  match level with
  | StrictLevel.None_ | StrictLevel.Internal | StrictLevel.Max => raise
  | _ => ret tt
  end.

(** [readFileWithStrictnessOverrides]. *)
Definition readFileWithStrictnessOverrides (file : FileRef) (opts : Options) : M unit :=
  gs <- get;;
  if negb (bool_decide (sourceType (FileRef_data gs file) = NotYetRead)) then ret tt
  else
    let fileName := path (FileRef_data gs file) in
    let '(src, fileFound) :=
      match fs_readFile opts fileName with
      | Some src => (src, true)
      | None =>
          (* continue with an empty source, because the assertion below
             requires every input file to map to one output tree *)
          ("", false)
      end in
    entered <- enterNewFileAt (File_new fileName src Normal) file;;
    ENFORCE (entered =? file);;
    whenM (negb fileFound)
          (beginError (Loc_none file) errors.Internal.FileNotFound "File Not Found");;
    whenM (negb (String.eqb (storeState opts) ""))
          (updFile file (set_sourceType PayloadGeneration));;
    level <- decideStrictLevel file opts;;
    updFile file (set_strictLevel level);;
    incrementStrictLevelCounter level.

Definition internalErrorHeader : string :=
  "Exception parsing file: `{}` (backtrace is above)".

(** The [try] block of [indexOne]. *)
Definition indexOneTry (opts : Options) (file : FileRef)
           (kvstore : option KeyValueStore) : M ParsedFile :=
  let finish (tree_ : Expression) : M ParsedFile :=
    if Phase.eqb (stopAfterPhase opts) Phase.DSL then ret (emptyParsedFile file)
    else ret (mkParsedFile tree_ file) in
  cached <- fetchTreeFromCache file kvstore;;
  match cached with
  | Some tree_ => finish tree_
  | None =>
      (* tree isn't cached. Need to start from parser *)
      gs <- get;;
      if StrictLevel.eqb (strictLevel (FileRef_data gs file)) StrictLevel.Ignore
      then ret (emptyParsedFile file)
      else
        parseTree <- runParser file;;
        if Phase.eqb (stopAfterPhase opts) Phase.PARSER then ret (emptyParsedFile file)
        else
          tree_ <- runDesugar file parseTree;;
          if Phase.eqb (stopAfterPhase opts) Phase.DESUGARER then ret (emptyParsedFile file)
          else
            tree_ <- (if skipDSLPasses opts then ret tree_ else runDSL file tree_);;
            localVars <- runLocalVars (mkParsedFile tree_ file);;
            let tree_ := tree localVars in
            if Phase.eqb (stopAfterPhase opts) Phase.LOCAL_VARS
            then ret (emptyParsedFile file)
            else finish tree_
  end.

(** The [ENFORCE] at the entry of [indexOne], ahead of the [try]
  block: it evaluates [decideStrictLevel] (and its diagnostic) in debug
  builds only. *)
Definition indexOneEnforce (opts : Options) (file : FileRef) : M unit :=
  if debug_mode then
    level <- decideStrictLevel file opts;;
    gs <- get;;
    ENFORCE (StrictLevel.eqb (strictLevel (FileRef_data gs file)) level)
  else ret tt.

(** [indexOne]. *)
Definition indexOne (opts : Options) (file : FileRef)
           (kvstore : option KeyValueStore) : M ParsedFile :=
  indexOneEnforce opts file;;
  try_catch (indexOneTry opts file kvstore)
            (beginError (Loc_none file) errors.Internal.InternalError internalErrorHeader;;
             ret (emptyParsedFile file)).

(** The [try] block of [indexOneWithPlugins]. *)
Definition indexOneWithPluginsTry (opts : Options) (file : FileRef)
           (kvstore : option KeyValueStore) : M (ParsedFile * list File) :=
  let finish (tree_ : Expression) (resultPluginFiles : list File)
    : M (ParsedFile * list File) :=
    if Phase.eqb (stopAfterPhase opts) Phase.DSL then ret (emptyPluginFile file)
    else ret (mkParsedFile tree_ file, resultPluginFiles) in
  cached <- fetchTreeFromCache file kvstore;;
  match cached with
  | Some tree_ => finish tree_ []
  | None =>
      (* tree isn't cached. Need to start from parser *)
      gs <- get;;
      if StrictLevel.eqb (strictLevel (FileRef_data gs file)) StrictLevel.Ignore
      then ret (emptyPluginFile file)
      else
        parseTree <- runParser file;;
        if Phase.eqb (stopAfterPhase opts) Phase.PARSER then ret (emptyPluginFile file)
        else
          tree_ <- runDesugar file parseTree;;
          if Phase.eqb (stopAfterPhase opts) Phase.DESUGARER then ret (emptyPluginFile file)
          else
            '(pluginTree, pluginFiles) <- SubprocessTextPlugin_run tree_;;
            tree_ <- (if skipDSLPasses opts then ret pluginTree else runDSL file pluginTree);;
            localVars <- runLocalVars (mkParsedFile tree_ file);;
            let tree_ := tree localVars in
            if Phase.eqb (stopAfterPhase opts) Phase.LOCAL_VARS
            then ret (emptyPluginFile file)
            else finish tree_ pluginFiles
  end.

(** [indexOneWithPlugins]. *)
Definition indexOneWithPlugins (opts : Options) (file : FileRef)
           (kvstore : option KeyValueStore) : M (ParsedFile * list File) :=
  try_catch (indexOneWithPluginsTry opts file kvstore)
            (beginError (Loc_none file) errors.Internal.InternalError internalErrorHeader;;
             ret (emptyPluginFile file)).


(** [IndexResult] and [IndexThreadResultPack] (without the counters). *)
Record IndexResult := mkIndexResult {
  ir_gs : option GlobalState;          (* [unique_ptr<core::GlobalState>] *)
  ir_trees : list ParsedFile;
  ir_pluginGeneratedFiles : list File
  }.

Record IndexThreadResultPack := mkIndexThreadResultPack {
  res_gs : GlobalState;
  res_trees : list ParsedFile;
  res_pluginGeneratedFiles : list File
  }.

(** How one run of the worker pool unfolds.  The pool has
  [S extraThreads] threads that pop the file queue; [popper i] names
  the thread that pops the [i]-th file; [pick k] chooses, among the
  result packs not yet taken, the one the coordinator pops [k]-th;
  [kvSeen file] is the content of the key-value store that the lookup
  for [file] observes, given the content at the start (the coordinator
  writes the store while workers read it). *)
Record Schedule := mkSchedule {
  extraThreads : nat;
  popper : nat -> nat;
  pick : nat -> nat;
  kvSeen : FileRef -> KeyValueStore -> KeyValueStore
  }.

Definition kvFor (sched : Schedule) (kvstore : option KeyValueStore) (file : FileRef)
  : option KeyValueStore :=
  kvSeen sched file <$> kvstore.

(** The jobs each thread pops off the queue, in queue order. *)
Fixpoint distribute (sched : Schedule) (i : nat) (queue : list FileRef)
         (jobs : list (list FileRef)) : list (list FileRef) :=
  match queue with
  | [] => jobs
  | f :: rest =>
      distribute sched (S i) rest
                 (alter (fun js => js ++ [f]) (popper sched i mod S (extraThreads sched)) jobs)
  end.

Definition jobsOfThreads (sched : Schedule) (queue : list FileRef) : list (list FileRef) :=
  distribute sched 0 queue (replicate (S (extraThreads sched)) []).

(** The order in which the coordinator pops the result queue. *)
Fixpoint arrivalOrder {A} (n : nat) (sched : Schedule) (k : nat) (waiting : list A) : list A :=
  match n with
  | 0 => []
  | S n' =>
      let i := pick sched k mod length waiting in
      match waiting !! i with
      | Some x => x :: arrivalOrder n' sched (S k) (delete i waiting)
      | None => []
      end
  end.

(** The body of the job of [indexSuppliedFiles], on a thread's local
  global state. *)
Fixpoint indexSuppliedFilesWorkerLoop (opts : Options)
         (kv : FileRef -> option KeyValueStore) (jobs : list FileRef)
         (trees : list ParsedFile) (pluginGeneratedFiles : list File)
  : M (list ParsedFile * list File) :=
  match jobs with
  | [] => ret (trees, pluginGeneratedFiles)
  | file :: rest =>
      readFileWithStrictnessOverrides file opts;;
      '(parsedFile, pluginFiles) <- indexOneWithPlugins opts file (kv file);;
      indexSuppliedFilesWorkerLoop opts kv rest (trees ++ [parsedFile])
                                   (pluginGeneratedFiles ++ pluginFiles)
  end.

(** The body of the job of [indexPluginFiles]. *)
Fixpoint indexPluginFilesWorkerLoop (opts : Options)
         (kv : FileRef -> option KeyValueStore) (jobs : list FileRef)
         (trees : list ParsedFile) : M (list ParsedFile * list File) :=
  match jobs with
  | [] => ret (trees, [])
  | file :: rest =>
      level <- decideStrictLevel file opts;;
      updFile file (set_strictLevel level);;
      parsedFile <- indexOne opts file (kv file);;
      indexPluginFilesWorkerLoop opts kv rest (trees ++ [parsedFile])
  end.

(** One thread: a deep copy of the base state, the job loop, and a
  result pack when it produced trees.  An exception that leaves the
  thread's job ends the process. *)
Definition runThread (job : list FileRef -> M (list ParsedFile * list File))
           (baseGs : GlobalState) (jobs : list FileRef)
  : Result (option IndexThreadResultPack) :=
  match job jobs (deepCopy baseGs) with
  | (Returns (trees, pluginFiles), localGs) =>
      Returns (if length trees =? 0 then None
               else Some (mkIndexThreadResultPack localGs trees pluginFiles))
  | (Throws, _) => Throws
  end.

Fixpoint multiplexJob (job : list FileRef -> M (list ParsedFile * list File))
         (baseGs : GlobalState) (jobsOf : list (list FileRef))
  : Result (list IndexThreadResultPack) :=
  match jobsOf with
  | [] => Returns []
  | jobs :: others =>
      match runThread job baseGs jobs, multiplexJob job baseGs others with
      | Returns r, Returns rs => Returns (option_list r ++ rs)
      | _, _ => Throws
      end
  end.

(** The tree loop of the merge: substitute every tree, or only those
  not marked as cache hits in the canonical state. *)
Fixpoint substituteTrees (onlyUncached : bool) (substitution : GlobalSubstitution)
         (trees : list ParsedFile) : M (list ParsedFile) :=
  match trees with
  | [] => ret []
  | tree_ :: rest =>
      gs <- get;;
      tree' <- (if onlyUncached && cachedParseTree (FileRef_data gs (file tree_))
                then ret tree_
                else t <- Substitute_run substitution (tree tree_);;
                     ret (mkParsedFile t (file tree_)));;
      rest' <- substituteTrees onlyUncached substitution rest;;
      ret (tree' :: rest')
  end.

(** [mergeIndexResults], over the packs in the order they are popped. *)
Fixpoint mergeIndexResultsLoop (cgs : GlobalState) (input : list IndexThreadResultPack)
         (ret_ : IndexResult) (kvstore : option KeyValueStore)
  : Result (IndexResult * option KeyValueStore) :=
  match input with
  | [] => Returns (ret_, kvstore)
  | threadResult :: rest =>
      match ir_gs ret_ with
      | None =>
          if debug_mode && negb (length (ir_trees ret_) =? 0) then Throws
          else
            mergeIndexResultsLoop cgs rest
              (mkIndexResult (Some (res_gs threadResult)) (res_trees threadResult)
                             (res_pluginGeneratedFiles threadResult))
              (cacheTrees (res_gs threadResult) kvstore (res_trees threadResult))
      | Some retGs =>
          match (substitution <- GlobalSubstitution_new (res_gs threadResult) cgs;;
                 substituteTrees true substitution (res_trees threadResult)) retGs with
          | (Returns trees, retGs') =>
              mergeIndexResultsLoop cgs rest
                (mkIndexResult (Some retGs') (ir_trees ret_ ++ trees)
                               (ir_pluginGeneratedFiles ret_
                                ++ res_pluginGeneratedFiles threadResult))
                (cacheTrees retGs' kvstore trees)
          | (Throws, _) => Throws
          end
      end
  end.

Definition mergeIndexResults (cgs : GlobalState) (sched : Schedule)
           (results : list IndexThreadResultPack) (kvstore : option KeyValueStore)
  : Result (IndexResult * option KeyValueStore) :=
  mergeIndexResultsLoop cgs (arrivalOrder (length results) sched 0 results)
                        (mkIndexResult None [] []) kvstore.

(** [indexSuppliedFiles]. *)
Definition indexSuppliedFiles (sched : Schedule) (baseGs : GlobalState)
           (files_ : list FileRef) (opts : Options) (kvstore : option KeyValueStore)
  : Result (IndexResult * option KeyValueStore) :=
  match multiplexJob (fun jobs => indexSuppliedFilesWorkerLoop opts (kvFor sched kvstore) jobs [] [])
                     baseGs (jobsOfThreads sched files_) with
  | Returns results => mergeIndexResults baseGs sched results kvstore
  | Throws => Throws
  end.

(** The loop of [indexPluginFiles] that enters the generated files. *)
Fixpoint enterPluginFiles (pluginFiles : list File) : M (list FileRef) :=
  match pluginFiles with
  | [] => ret []
  | f :: rest =>
      generatedFile <- enterFile f;;
      others <- enterPluginFiles rest;;
      ret (generatedFile :: others)
  end.

(** [indexPluginFiles]. *)
Definition indexPluginFiles (sched : Schedule) (firstPass : IndexResult)
           (opts : Options) (kvstore : option KeyValueStore)
  : Result (IndexResult * option KeyValueStore) :=
  if length (ir_pluginGeneratedFiles firstPass) =? 0 then Returns (firstPass, kvstore)
  else
    match ir_gs firstPass with
    | None => Throws   (* [firstPass.gs] is dereferenced *)
    | Some firstGs =>
        match enterPluginFiles (ir_pluginGeneratedFiles firstPass) firstGs with
        | (Throws, _) => Throws
        | (Returns pluginFileq, protoGs) =>
            match multiplexJob (fun jobs => indexPluginFilesWorkerLoop opts (kvFor sched kvstore) jobs [])
                               protoGs (jobsOfThreads sched pluginFileq) with
            | Throws => Throws
            | Returns results =>
                match mergeIndexResults protoGs sched results kvstore with
                | Throws => Throws
                | Returns (indexedPluginFiles, kvstore) =>
                    if length (ir_trees indexedPluginFiles) =? 0
                    then Returns (mkIndexResult None (ir_trees firstPass)
                                                (ir_pluginGeneratedFiles firstPass), kvstore)
                    else
                      match ir_gs indexedPluginFiles with
                      | None => Throws
                      | Some newGs =>
                          match (substitution <- GlobalSubstitution_new protoGs protoGs;;
                                 substituteTrees false substitution (ir_trees firstPass)) newGs with
                          | (Throws, _) => Throws
                          | (Returns trees, newGs') =>
                              Returns (mkIndexResult (Some newGs')
                                         (trees ++ ir_trees indexedPluginFiles) [], kvstore)
                          end
                      end
                end
            end
        end
    end.

(** The inner loop of the inline path of [index], over the files one
  source file's plugins generated. *)
Fixpoint indexInlinePluginFiles (opts : Options) (pluginFiles : list File)
         (kvstore : option KeyValueStore) (ret_ : list ParsedFile) : M (list ParsedFile) :=
  match pluginFiles with
  | [] => ret ret_
  | pluginFile :: rest =>
      pluginFileRef <- enterFile pluginFile;;
      level <- decideStrictLevel pluginFileRef opts;;
      updFile pluginFileRef (set_strictLevel level);;
      parsed <- indexOne opts pluginFileRef kvstore;;
      indexInlinePluginFiles opts rest kvstore (ret_ ++ [parsed])
  end.

(** The loop of the inline path of [index]. *)
Fixpoint indexInline (opts : Options) (files_ : list FileRef)
         (kvstore : option KeyValueStore) (ret_ : list ParsedFile) (pluginFileCount : nat)
  : M (list ParsedFile * nat * option KeyValueStore) :=
  match files_ with
  | [] => ret (ret_, pluginFileCount, kvstore)
  | file :: rest =>
      readFileWithStrictnessOverrides file opts;;
      '(parsedFile, pluginFiles) <- indexOneWithPlugins opts file kvstore;;
      ret_ <- indexInlinePluginFiles opts pluginFiles kvstore (ret_ ++ [parsedFile]);;
      gs <- get;;
      indexInline opts rest (cacheTrees gs kvstore ret_) ret_
                  (pluginFileCount + length pluginFiles)
  end.

(** [ast::ParsedFile] compared by [a.file < b.file]. *)
Definition ParsedFile_le (a b : ParsedFile) : Prop := file a <= file b.

#[global] Instance ParsedFile_le_dec : RelDecision ParsedFile_le.
Proof. intros a b. unfold ParsedFile_le. apply _. Defined.

(** Modelled from the spec: [fast_sort] is absent; by section 4.5 the
  trees are sorted by [FileRef] before being returned. *)
Definition fast_sort (trees : list ParsedFile) : list ParsedFile :=
  merge_sort ParsedFile_le trees.

(** [index] up to the final sort.  Next to the vector the model
  returns the number of plugin-generated files ([pluginFileCount] on
  the inline path, the size of [firstPass.pluginGeneratedFiles] on the
  pool path) and the key-value store.  [sched] and [sched'] unfold the
  two runs of the worker pool. *)
Definition indexUnsorted (sched sched' : Schedule) (files_ : list FileRef)
           (opts : Options) (kvstore : option KeyValueStore)
  : M (list ParsedFile * nat * option KeyValueStore) :=
  if Phase.eqb (stopAfterPhase opts) Phase.INIT then ret ([], 0, kvstore)
  else
    GlobalState_sanityCheck;;
    if length files_ <? 3 then
      (* Run singlethreaded if only using 2 files *)
      '(ret_, pluginFileCount, kvstore) <- indexInline opts files_ kvstore [] 0;;
      ENFORCE (length files_ + pluginFileCount =? length ret_);;
      ret (ret_, pluginFileCount, kvstore)
    else
      fun gs =>
        match indexSuppliedFiles sched gs files_ opts kvstore with
        | Throws => (Throws, gs)
        | Returns (firstPass, kvstore) =>
            match indexPluginFiles sched' firstPass opts kvstore with
            | Throws => (Throws, gs)
            | Returns (pluginPass, kvstore) =>
                match ir_gs pluginPass with
                | Some gs' =>
                    (Returns (ir_trees pluginPass,
                              length (ir_pluginGeneratedFiles firstPass), kvstore), gs')
                | None => (Throws, gs)   (* [gs] is left null *)
                end
            end
        end.

(** [index]. *)
Definition index (sched sched' : Schedule) (files_ : list FileRef)
           (opts : Options) (kvstore : option KeyValueStore)
  : M (list ParsedFile * option KeyValueStore) :=
  '(ret_, _, kvstore) <- indexUnsorted sched sched' files_ opts kvstore;;
  ret (fast_sort ret_, kvstore).

End WithPhases.
End pipeline.

(** *** The properties of the specification, in the spec's words *)

Module Spec.
Import pipeline.

(** Section 6: "Paths are normalized to begin with ./ before lookup." *)
Definition normalizePath (p : string) : string :=
  if negb (String.prefix "/" p) && negb (String.prefix "./" p) then "./" +:+ p else p.

(** Section 4.4 step 1: the override if the path has one, otherwise the
    sigil of the source, [False] if there is none. *)
Definition chosenLevel (gs : GlobalState) (file : FileRef) (opts : Options)
  : StrictLevel.t :=
  match strictnessOverrides opts !! normalizePath (path (FileRef_data gs file)) with
  | Some override => override
  | None =>
      if StrictLevel.eqb (originalSigil (FileRef_data gs file)) StrictLevel.None_
      then StrictLevel.False_
      else originalSigil (FileRef_data gs file)
  end.

(** "Clamp to [forceMinStrict, forceMaxStrict]". *)
Definition clamp (opts : Options) (l : StrictLevel.t) : StrictLevel.t :=
  StrictLevel.max (StrictLevel.min l (forceMaxStrict opts)) (forceMinStrict opts).

(** C3 as the spec states it: the chosen level is clamped unless it is
    [Ignore] or [Internal]; autogen forces [False]. *)
Definition levelAsSpecified (gs : GlobalState) (file : FileRef) (opts : Options)
  : StrictLevel.t :=
  if runningUnderAutogen gs then StrictLevel.False_
  else
    let level := chosenLevel gs file opts in
    if bool_decide (level = StrictLevel.Ignore \/ level = StrictLevel.Internal)
    then level else clamp opts level.

Definition decideStrictLevelAsSpecified (gs : GlobalState) (file : FileRef)
           (opts : Options) : Prop :=
  fst (decideStrictLevel file opts gs) = Returns (levelAsSpecified gs file opts).

(** The levels that the guard [level <= Max && level > Ignore] of the
    code lets through to the clamp. *)
Definition clamped (l : StrictLevel.t) : bool :=
  match l with
  | StrictLevel.False_ | StrictLevel.True_ | StrictLevel.Strict
  | StrictLevel.Strong | StrictLevel.Max => true
  | _ => false
  end.

Definition levelOf (gs : GlobalState) (opts : Options) (chosen : StrictLevel.t)
  : StrictLevel.t :=
  if runningUnderAutogen gs then StrictLevel.False_
  else if clamped chosen then clamp opts chosen else chosen.

(** The diagnostics a computation added to the queue. *)
Definition emitted (before after : GlobalState) : list Error :=
  drop (length (errors_ before)) (errors_ after).

(** C4 as the spec states it: the override is the level chosen, and a
    diagnostic of kind [UselessStrictnessOverride] lands on the file if
    and only if the override equals the sigil. *)
Definition uselessOverrideAsSpecified (gs : GlobalState) (file : FileRef)
           (opts : Options) : Prop :=
  forall override,
    strictnessOverrides opts !! normalizePath (path (FileRef_data gs file)) = Some override ->
    chosenLevel gs file opts = override
    /\ ((exists e, e ∈ emitted gs (snd (decideStrictLevel file opts gs))
                   /\ err_loc e = Loc_none file
                   /\ kindOf (err_what e) = Some KUselessStrictnessOverride)
        <-> override = originalSigil (FileRef_data gs file)).

Definition uselessOverrideError (file : FileRef) : Error :=
  mkError (Loc_none file) errors.Parser.ParserError "Useless override of strictness level".

(** The diagnostic of the catch-all of [indexOne] and
    [indexOneWithPlugins]. *)
Definition internalError (file : FileRef) : Error :=
  mkError (Loc_none file) errors.Internal.InternalError internalErrorHeader.


(** C10 as the spec states it: the vector holds exactly one parsed
    file per input [FileRef] plus one per plugin-generated file. *)
Definition oneTreePerFile (files_ : list FileRef) (ret_ : list ParsedFile) : Prop :=
  exists pluginRefs, file <$> ret_ ≡ₚ files_ ++ pluginRefs.

(** Ascending [FileRef] order. *)
Definition sortedByFile (ret_ : list ParsedFile) : Prop :=
  StronglySorted ParsedFile_le ret_.

(** The flags of a freshly created singleton class. *)
Definition freshSingletonFlags : SymbolFlags := mkSymbolFlags true false false false false false.

(** The class [k] and its singleton, as the class-body code sees them:
    [k] is in the table with flags [fk]; its singleton, when it has been
    created, is another symbol of the table, with flags [fs]; when it has
    not, [fs] are the flags it will be created with. *)
Definition classAndSingleton (gs : GlobalState) (k : SymbolRef) (fk fs : SymbolFlags) : Prop :=
  exists d, symbols gs !! k = Some d /\ sym_flags d = fk
            /\ match sym_members d !! _id Names.singleton with
               | Some s => s <> k /\ exists ds, symbols gs !! s = Some ds /\ sym_flags ds = fs
               | None => fs = freshSingletonFlags
               end.

Definition hasSingleton (gs : GlobalState) (k : SymbolRef) : Prop :=
  exists d s, symbols gs !! k = Some d /\ sym_members d !! _id Names.singleton = Some s.

(** C8 as the spec states it, for one flag: after the statement the flag
    is set on the class and on its singleton. *)
Definition flagOnClassAndSingleton (flag : SymbolFlags -> bool) (gs : GlobalState)
           (k : SymbolRef) : Prop :=
  exists fk fs, hasSingleton gs k /\ classAndSingleton gs k fk fs
                /\ flag fk = true /\ flag fs = true.

Definition interfaceClassError (l : Loc) : Error :=
  mkError l errors.Namer.InterfaceClass
          "Classes can't be interfaces. Use `abstract!` instead of `interface!`".

(** Section 4.6, method definitions, step 3: arguments "match by shape
    (arity, keyword/block/repeated flags, keyword names)". *)
Definition argMatches (symArg : ArgInfo) (methodArg : ParsedArg) : bool :=
  Bool.eqb (isKeyword (arg_flags symArg)) (pa_keyword methodArg)
  && Bool.eqb (isBlock (arg_flags symArg)) (pa_block methodArg)
  && Bool.eqb (isRepeated (arg_flags symArg)) (pa_repeated methodArg)
  && (negb (isKeyword (arg_flags symArg))
      || NameRef_eqb (arg_name symArg) (_name (pa_local methodArg))).

Fixpoint allMatch (symArgs : list ArgInfo) (parsedArgs : list ParsedArg) : bool :=
  match symArgs, parsedArgs with
  | symArg :: symRest, methodArg :: methodRest =>
      argMatches symArg methodArg && allMatch symRest methodRest
  | _, _ => true
  end.

Definition sameShape (symArgs : list ArgInfo) (parsedArgs : list ParsedArg) : bool :=
  (length symArgs =? length parsedArgs) && allMatch symArgs parsedArgs.

(** The invariant of section 3 on the whole name table. *)
Definition tableWellFormed (gs : GlobalState) : Prop :=
  forall i nm, names gs !! i = Some nm -> Name_wellFormed i nm.

(** The owner of a method definition (section 4.6, step 1): the
    enclosing class, [Object] for the root, and for [def self.foo] the
    singleton class, which the class definition has already forced into
    existence. *)
Definition resolvedOwner `{NamerCollaborators} (gs : GlobalState) (ctxOwner : SymbolRef)
           (method : MethodDefNode) : option SymbolRef :=
  let enclosing := enclosingClass gs ctxOwner in
  let owner := if enclosing =? Symbols.root then Symbols.Object else enclosing in
  match symbols gs !! owner with
  | Some ownerData =>
      if md_isSelf method && Symbol_isClass ownerData
      then sym_members ownerData !! _id Names.singleton
      else Some owner
  | None => None
  end.

(** A stub symbol that holds an intrinsic ([isIntrinsic] of the namer). *)
Definition intrinsicStub (d : Symbol) : bool :=
  sym_intrinsic d && match sym_resultType d with NoType => true | _ => false end.








(** Section 4.4, the pipeline that indexes one file from the state
    [gs]: after a cache lookup that misses, for a file that is not
    ignored, the phases run in the order parser, desugarer, plugin
    rewrite (in [indexOneWithPlugins]: [plugins] is set), DSL passes
    (unless suppressed), local variables; a stop phase that is reached
    ends the run.  Each notion below says that the run has come through
    the phase named, with the result and in the state given. *)
Section PhasesOfIndexing.
Context `{B : Build} `{P : Phases}.
Variables (plugins : bool) (opts : Options) (file : FileRef)
          (kvstore : option KeyValueStore) (gs : GlobalState).

Definition phasesStart (gs1 : GlobalState) : Prop :=
  fetchTreeFromCache file kvstore gs = (Returns None, gs1)
  /\ strictLevel (FileRef_data gs1 file) <> StrictLevel.Ignore.

Definition parsed (parseTree : ParseNode) (gs2 : GlobalState) : Prop :=
  exists gs1,
    phasesStart gs1 /\ runParser file gs1 = (Returns parseTree, gs2)
    /\ stopAfterPhase opts <> Phase.PARSER.

Definition desugared (tree_ : Expression) (gs3 : GlobalState) : Prop :=
  exists parseTree gs2,
    parsed parseTree gs2 /\ runDesugar file parseTree gs2 = (Returns tree_, gs3)
    /\ stopAfterPhase opts <> Phase.DESUGARER.

Definition pluginsRun (tree_ : Expression) (gs4 : GlobalState) : Prop :=
  if plugins
  then exists desugaredTree gs3 pluginFiles,
      desugared desugaredTree gs3
      /\ SubprocessTextPlugin_run desugaredTree gs3 = (Returns (tree_, pluginFiles), gs4)
  else desugared tree_ gs4.

Definition dslRun (tree_ : Expression) (gs5 : GlobalState) : Prop :=
  if skipDSLPasses opts then pluginsRun tree_ gs5
  else exists pluginTree gs4,
      pluginsRun pluginTree gs4 /\ runDSL file pluginTree gs4 = (Returns tree_, gs5).

(** C2, "raises an unexpected exception in any phase": the phases
    before it have returned and the phase named raises, in the state
    [gsRaise]. *)
Inductive phaseRaises (gsRaise : GlobalState) : Prop :=
  | raises_cacheLookup :
      fetchTreeFromCache file kvstore gs = (Throws, gsRaise) -> phaseRaises gsRaise
  | raises_parser gs1 :
      phasesStart gs1 -> runParser file gs1 = (Throws, gsRaise) -> phaseRaises gsRaise
  | raises_desugarer parseTree gs2 :
      parsed parseTree gs2 -> runDesugar file parseTree gs2 = (Throws, gsRaise) ->
      phaseRaises gsRaise
  | raises_plugin tree_ gs3 :
      plugins = true -> desugared tree_ gs3 ->
      SubprocessTextPlugin_run tree_ gs3 = (Throws, gsRaise) -> phaseRaises gsRaise
  | raises_dsl tree_ gs4 :
      skipDSLPasses opts = false -> pluginsRun tree_ gs4 ->
      runDSL file tree_ gs4 = (Throws, gsRaise) -> phaseRaises gsRaise
  | raises_localVars tree_ gs5 :
      dslRun tree_ gs5 -> runLocalVars (mkParsedFile tree_ file) gs5 = (Throws, gsRaise) ->
      phaseRaises gsRaise.
End PhasesOfIndexing.




(** Section 4.1, what the operations are given: any source text; for a
    derived name an [original] that is a ref into the table and, for a
    [UNIQUE] name, a positive number. *)
Definition enterable (gs : GlobalState) (nm : Name) : Prop :=
  match nm with
  | UTF8 _ => True
  | UNIQUE _ num original => _id original < length (names gs) /\ 0 < num
  | CONSTANT original => _id original < length (names gs)
  end.

(** The name tables that the operations of section 4.1 build: the empty
    table, and a table into which a name was entered by the operation of
    its kind ([enterNameUTF8], [freshNameUnique], [enterNameConstant]);
    what else changes in the state does not matter. *)
Inductive tableEntered `{Build} : GlobalState -> Prop :=
  | entered_none gs : names gs = [] -> tableEntered gs
  | entered_name gs nm r gs' :
      tableEntered gs -> enterable gs nm -> reenter nm gs = (Returns r, gs') ->
      tableEntered gs'
  | entered_other gs gs' :
      tableEntered gs -> names gs' = names gs -> tableEntered gs'.

(** A computation that leaves the number of files as it is, whether it
    returns or raises. *)
Definition keepsFileCount {A} (m : M A) : Prop :=
  forall gs, length (files (snd (m gs))) = length (files gs).

(** Sections 3 and 4.1, the freeze discipline: the file table is
    written only where files are read or entered, so the phases, the deep
    copy, the sanity check and the substitution leave the number of files
    as it is. *)
Definition phasesKeepFiles `{Phases} : Prop :=
  (forall file, keepsFileCount (Parser_run file))
  /\ (forall parseTree, keepsFileCount (node2Tree parseTree))
  /\ (forall tree_, keepsFileCount (SubprocessTextPlugin_run tree_))
  /\ (forall tree_, keepsFileCount (DSL_run tree_))
  /\ (forall p, keepsFileCount (LocalVars_run p))
  /\ (forall bytes file, keepsFileCount (loadExpression bytes file))
  /\ keepsFileCount GlobalState_sanityCheck
  /\ (forall from to, keepsFileCount (GlobalSubstitution_new from to))
  /\ (forall subst tree_, keepsFileCount (Substitute_run subst tree_))
  /\ (forall gs, length (files (deepCopy gs)) = length (files gs)).

(** Section 4.1, interning: no name is stored twice, names at different
    ids differ in the key under which the table interns them. *)
Definition internedOnce (gs : GlobalState) : Prop :=
  forall i j a b,
    names gs !! i = Some a -> names gs !! j = Some b -> Name_same a b = true -> i = j.

(** Section 4.1, "original must be UTF8 or UNIQUE (the latter only when
    derived as ResolverMissingClass)": the constants of the table wrap a
    name that [enterNameConstant] accepts. *)
Definition constantsOk (gs : GlobalState) : Prop :=
  forall i original, names gs !! i = Some (CONSTANT original) ->
                     constantOriginalOk gs original = true.
End Spec.

(** *** Sample inputs for the examples *)

(** *** Notions used to state further properties of the code *)

Module Notions.
Import pipeline Spec.

(** The level that a read gives the file: the override, or the sigil of
    the source that was read, clamped as [decideStrictLevel] does. *)
Definition levelRead `{Phases} (file : FileRef) (opts : Options) (gs : GlobalState)
  : StrictLevel.t :=
  let fileName := path (FileRef_data gs file) in
  let sigil := fileSigil (default "" (fs_readFile opts fileName)) in
  levelOf gs opts
          match strictnessOverrides opts !! normalizePath fileName with
          | Some fnd => fnd
          | None => if StrictLevel.eqb sigil StrictLevel.None_ then StrictLevel.False_ else sigil
          end.

(** An argument of [include] or [extend] that is kept as an ancestor,
    and the diagnostic for one that is not. *)
Definition keptAncestor (arg : Expression) : bool :=
  negb (isa_EmptyTree arg) && NameInserter.isValidAncestor arg.

Definition ancestorNotConstant (arg : Expression) : Error :=
  mkError (Expression_loc arg) errors.Namer.AncestorNotConstant
          "`{}` must only contain constant literals".

(** Two arguments with the same name and flags (the location may
    differ). *)
Definition sameArg (a a' : ArgInfo) : Prop :=
  arg_name a' = arg_name a /\ arg_flags a' = arg_flags a.

(** The state in which the symbol [s] has become [d']. *)
Definition withSymbol (s : SymbolRef) (d' : Symbol) (gs : GlobalState) : GlobalState :=
  withSymbols (<[s := d']> (symbols gs)) gs.

(** The situation of a method definition whose owner already holds a
    member [sym] of that name, described by [d]. *)
Definition definesMember `{NamerCollaborators} (gs : GlobalState) (ctxOwner : SymbolRef)
           (method : MethodDefNode) (owner sym : SymbolRef) (d : Symbol) : Prop :=
  resolvedOwner gs ctxOwner method = Some owner
  /\ (exists ownerData,
         symbols gs !! owner = Some ownerData
         /\ Symbol_isClass ownerData = true
         /\ sym_members ownerData !! _id (md_name method) = Some sym)
  /\ sym <> Symbols.noSymbol
  /\ symbols gs !! sym = Some d
  /\ Forall (fun p => pa_shadow p = false) (parseArgs gs (md_args method)).

(** The expressions that [fillInArgs] makes of parsed arguments the
    symbol already has. *)
Definition argLocals (parsedArgs : list ParsedArg) : list Expression :=
  (fun p => Local (pa_loc p) (pa_local p)) <$> parsedArgs.
(** The ref that a derived name holds. *)
Definition Name_original (nm : Name) : option NameRef :=
  match nm with
  | UTF8 _ => None
  | UNIQUE _ _ original | CONSTANT original => Some original
  end.

(** A name table whose refs can be followed: the ref held by a derived
    name points below the name and, in a debug build, exists and belongs
    to the state. *)
Definition tableReadable `{Build} (gs : GlobalState) : Prop :=
  forall i nm original,
    names gs !! i = Some nm -> Name_original nm = Some original ->
    _id original < i
    /\ (debug_mode = true ->
        NameRef_exists original = true
        /\ enforceCorrectGlobalState original gs = (Returns tt, gs)).

(** The computation [m] interns the string [str]: it returns a ref to
    the [UTF8] name [str], the table grows by that name at most, and
    running it again returns the same id and leaves the table as it
    is. *)
Definition internsUTF8 (m : M NameRef) (gs : GlobalState) (str : string) : Prop :=
  exists r gs',
    m gs = (Returns r, gs')
    /\ names gs' !! _id r = Some (UTF8 str)
    /\ (names gs' = names gs \/ names gs' = names gs ++ [UTF8 str])
    /\ symbols gs' = symbols gs /\ errors_ gs' = errors_ gs
    /\ exists r', m gs' = (Returns r', gs') /\ _id r' = _id r.

(** [gs'] has the symbols of [gs] and more: every symbol is still in
    the table, of the same kind, with at least the members it had. *)
Definition symbolsGrow (gs gs' : GlobalState) : Prop :=
  forall s d,
    symbols gs !! s = Some d ->
    exists d', symbols gs' !! s = Some d' /\ sym_kind d' = sym_kind d
               /\ sym_members d ⊆ sym_members d'.
End Notions.

Module Sample.
Import pipeline.

Definition debugBuild : Build := {| debug_mode := true |}.

Definition file0 : File := notYetRead.

Definition gsWith (fs : list File) : GlobalState :=
  mkGlobalState 1 [] [] [] (file0 :: fs) [] false.

(** [a.rb], with sigil [typed: autogenerated]. *)
Definition autogeneratedFile : File :=
  mkFile "a.rb" "# typed: autogenerated" Normal
         StrictLevel.Autogenerated StrictLevel.Autogenerated false.

(** [a.rb], with sigil [typed: true]. *)
Definition trueFile : File :=
  mkFile "a.rb" "# typed: true" Normal StrictLevel.True_ StrictLevel.True_ false.

Definition noFs : string -> option string := fun _ => None.

(** No overrides, [--typed] capped at [true]. *)
Definition optsMaxTrue : Options :=
  mkOptions ∅ StrictLevel.Ignore StrictLevel.True_ Phase.INFERENCER false "" noFs.

(** [./a.rb] overridden to [true]. *)
Definition optsOverrideTrue : Options :=
  mkOptions {[ "./a.rb" := StrictLevel.True_ ]} StrictLevel.Ignore StrictLevel.Strong
            Phase.INFERENCER false "" noFs.

(** A name table with a well-known prefix, a constant and a mangled
    name; state 2 was cloned from state 1 when it knew two names. *)
Definition gsNames : GlobalState :=
  mkGlobalState 2 [mkDeepCloneHistoryEntry 1 2]
                [UTF8 "<none>"; UTF8 "bar"; CONSTANT (mkNameRef 1 1);
                 UNIQUE MangleRename 1 (mkNameRef 1 1)]
                [] [file0] [] false.

(** A substitution into state 2. *)
Definition substInto2 : GlobalSubstitution :=
  mkGlobalSubstitution 2 [mkNameRef 0 1; mkNameRef 1 1; mkNameRef 2 2; mkNameRef 3 2].

(** Phases for the examples: the parser fails on file 2 and otherwise
    hands the file id on; the desugarer builds a literal located in that
    file; the plugin generates one file for file 3; the other phases are
    the identity.  The cache loader builds a literal located in the
    requested file. *)
Definition phases : Phases := {|
    ParseNode := nat;
    Parser_run := fun file => if file =? 2 then raise else ret file;
    node2Tree := fun node => ret (Literal (mkLoc node (Some (0, 1))) "1");
    SubprocessTextPlugin_run := fun t =>
      ret (t, if loc_file (Expression_loc t) =? 3
              then [mkFile "gen.rb" "" Normal StrictLevel.None_ StrictLevel.None_ false]
              else []);
    DSL_run := fun t => ret t;
    LocalVars_run := fun p => ret p;
    loadExpression := fun _ id => ret (Literal (mkLoc id (Some (0, 1))) "cached");
    storeExpression := fun _ _ => [];
    hash64Hex := fun _ => "00";
    fileSigil := fun src => if String.prefix "# typed: true" src then StrictLevel.True_
                            else StrictLevel.None_;
    deepCopy := fun gs => gs;
    GlobalState_sanityCheck := ret tt;
    GlobalSubstitution_new := fun from _ => ret (mkGlobalSubstitution 1 []);
    Substitute_run := fun _ t => ret t
  |}.


(** A source file reserved but not yet read. *)
Definition reserved (p : string) : File :=
  mkFile p "" NotYetRead StrictLevel.None_ StrictLevel.None_ false.

(** [a.rb] with sigil [typed: ignore]. *)
Definition ignoredFile : File :=
  mkFile "a.rb" "# typed: ignore" Normal StrictLevel.Ignore StrictLevel.Ignore false.

(** [b.rb], read, at the default level. *)
Definition falseFile (p : string) : File :=
  mkFile p "" Normal StrictLevel.None_ StrictLevel.False_ false.

Definition fsAll : string -> option string := fun _ => Some "".

Definition optsPlain : Options :=
  mkOptions ∅ StrictLevel.Ignore StrictLevel.Strong Phase.INFERENCER false "" fsAll.

Definition optsStopInit : Options :=
  mkOptions ∅ StrictLevel.Ignore StrictLevel.Strong Phase.INIT false "" fsAll.

(** A cache that holds an entry for [a.rb] with an empty source. *)
Definition cacheWithA : KeyValueStore := {[ "a.rb//00" := [] ]}.

(** Three reserved source files. *)
Definition gsReserved : GlobalState :=
  gsWith [reserved "a.rb"; reserved "b.rb"; reserved "c.rb"].

(** Two threads; the files go to the threads in turn; the coordinator
    pops the second pack first. *)
Definition twoThreads : Schedule :=
  mkSchedule 1 (fun i => i) (fun _ => 1) (fun _ store => store).

(** A symbol table with the class [Foo] (symbol 8) under the root, and
    the names table up to the name [Foo] (name 11). *)
Definition dummySymbol : Symbol :=
  mkSymbol 0 (Names.wellKnown 0) KClass [] [] ∅ false NoType emptyFlags.

Definition classFoo : Symbol :=
  mkSymbol Symbols.root (mkNameRef 11 1) KClass [mkLoc 1 (Some (0, 9))] [] ∅ false NoType
           emptyFlags.

Definition gsFoo : GlobalState :=
  mkGlobalState 1 [] (replicate 11 (UTF8 "<well-known>") ++ [UTF8 "Foo"; UTF8 "bar"])
                (replicate 8 dummySymbol ++ [classFoo]) [file0; trueFile] [] false.

(** [module Foo ... end] and [class Foo ... end]. *)
Definition moduleFoo : ClassDefNode :=
  mkClassDefNode (mkLoc 1 (Some (0, 40))) (mkLoc 1 (Some (0, 9))) 8 Module_ EmptyTree [] [] [].

Definition klassFoo : ClassDefNode :=
  mkClassDefNode (mkLoc 1 (Some (0, 40))) (mkLoc 1 (Some (0, 9))) 8 Class_ EmptyTree [] [] [].

Definition self : Expression := Local (mkLoc 1 (Some (12, 12))) selfVariable.

(** The statement [interface!]. *)
Definition interfaceBang : Expression :=
  Send (mkLoc 1 (Some (12, 22))) self Names.declareInterface [] None.

(** Collaborators of the namer for the examples: every symbol is its own
    enclosing class and its own dealiased symbol; an argument list of
    locals parses to positional arguments, the local named [blkArg] to a
    block argument. *)
Definition namerCollaborators : NamerCollaborators := {|
    enclosingClass := fun _ s => s;
    dealias := fun _ s => s;
    parseArgs := fun _ args =>
      omap (fun e => match e with
                     | Local l v =>
                         Some (mkParsedArg l v None false
                                           (NameRef_eqb (_name v) Names.blkArg) false false)
                     | _ => None
                     end) args
  |}.

(** The names [bar], [x], [y] (12, 13, 14) after [Foo]. *)
Definition namesBar : list Name :=
  replicate 11 (UTF8 "<well-known>") ++ [UTF8 "Foo"; UTF8 "bar"; UTF8 "x"; UTF8 "y"].

Definition blockArg : ArgInfo :=
  mkArgInfo Names.blkArg (Loc_none FileRef_none) (mkArgFlags false false false true).

(** [class Foo ... end] has been entered (symbol 8), no method yet. *)
Definition gsFooNamed : GlobalState :=
  mkGlobalState 1 [] namesBar (replicate 8 dummySymbol ++ [classFoo]) [file0; trueFile] []
                false.

(** The same table, where [Foo] holds a stub [bar] (symbol 9) made for
    an intrinsic: no location, no result type, the block argument only. *)
Definition stubBar : Symbol :=
  mkSymbol 8 (mkNameRef 12 1) KMethod [] [blockArg] ∅ true NoType emptyFlags.

Definition classFooWithBar : Symbol :=
  mkSymbol Symbols.root (mkNameRef 11 1) KClass [mkLoc 1 (Some (0, 9))] [] {[ 12 := 9 ]}
           false NoType emptyFlags.

Definition gsStubBar : GlobalState :=
  mkGlobalState 1 [] namesBar (replicate 8 dummySymbol ++ [classFooWithBar; stubBar])
                [file0; trueFile] [] false.

(** The first definition of [class Foo; def bar(x); end; def bar(x, y);
    end; end]. *)
Definition defBarX : MethodDefNode :=
  mkMethodDefNode (mkLoc 1 (Some (11, 26))) (mkLoc 1 (Some (11, 21))) Symbols.todo
                  (mkNameRef 12 1)
                  [Local (mkLoc 1 (Some (19, 20))) (mkLocalVariable (mkNameRef 13 1) 0);
                   Local (Loc_none 1) (mkLocalVariable Names.blkArg 0)]
                  EmptyTree false false.

(** The table after the namer has seen [def bar(x)] in [Foo]. *)
Definition afterDefBarX (gs : GlobalState) : GlobalState :=
  snd (@NameInserter.preTransformMethodDef debugBuild namerCollaborators [] 8 defBarX gs).

Definition gsBar : GlobalState := afterDefBarX gsFooNamed.

(** The second definition, [def bar(x, y); end], further down in the
    class body. *)
Definition defBarXY : MethodDefNode :=
  mkMethodDefNode (mkLoc 1 (Some (30, 48))) (mkLoc 1 (Some (30, 43))) Symbols.todo
                  (mkNameRef 12 1)
                  [Local (mkLoc 1 (Some (38, 39))) (mkLocalVariable (mkNameRef 13 1) 0);
                   Local (mkLoc 1 (Some (41, 42))) (mkLocalVariable (mkNameRef 14 1) 0);
                   Local (Loc_none 1) (mkLocalVariable Names.blkArg 0)]
                  EmptyTree false false.

(** [stopAfterPhase] at [PARSER]. *)
Definition optsStopParser : Options :=
  mkOptions ∅ StrictLevel.Ignore StrictLevel.Strong Phase.PARSER false "" fsAll.

(** The tree that the sample loader builds for file 1. *)
Definition cachedA : Expression := Literal (mkLoc 1 (Some (0, 1))) "cached".

(** The constant [Foo] as written in [class Foo]. *)
Definition constFoo : Expression :=
  UnresolvedConstantLit (mkLoc 1 (Some (6, 9))) EmptyTree (mkNameRef 11 1).

(** [include Foo, 1]. *)
Definition includeFoo : list Expression :=
  [constFoo; Literal (mkLoc 1 (Some (25, 26))) "1"].

(** The symbol of [bar] after [def bar(x)]. *)
Definition symBar : Symbol := default dummySymbol (symbols gsBar !! 9).

(** [def bar(y); end] further down: the same shape as [def bar(x)]. *)
Definition defBarY : MethodDefNode :=
  mkMethodDefNode (mkLoc 1 (Some (30, 45))) (mkLoc 1 (Some (30, 40))) Symbols.todo
                  (mkNameRef 12 1)
                  [Local (mkLoc 1 (Some (38, 39))) (mkLocalVariable (mkNameRef 14 1) 0);
                   Local (Loc_none 1) (mkLocalVariable Names.blkArg 0)]
                  EmptyTree false false.

(** [def bar(x)] once named, and the table once [Foo] has its singleton
    class (symbol 10). *)
Definition namedBarX : MethodDefNode :=
  NameInserter.withSymbolAndArgs defBarX 9 (md_args defBarX).

Definition gsBarSingleton : GlobalState := snd (singletonClass 8 gsBar).

(** Two states cloned from state 1 when it knew the names up to [Foo]
    (name 11). *)
Definition gsCloneA : GlobalState :=
  mkGlobalState 2 [mkDeepCloneHistoryEntry 1 12] namesBar [] [file0] [] false.

Definition gsCloneB : GlobalState :=
  mkGlobalState 3 [mkDeepCloneHistoryEntry 1 12] namesBar [] [file0] [] false.

End Sample.

(** ** Part II: properties *)

Arguments StrictLevel.max : simpl never.
Arguments StrictLevel.min : simpl never.
Arguments StrictLevel.leb : simpl never.
Arguments StrictLevel.ltb : simpl never.

(** *** [decideStrictLevel] *)

Section DecideStrictLevel.
Import pipeline Spec.

Lemma guard_clamped l :
  StrictLevel.leb l StrictLevel.Max && StrictLevel.ltb StrictLevel.Ignore l = clamped l.
Proof. by destruct l. Qed.

(** The level and the state that [decideStrictLevel] computes. *)
Lemma decideStrictLevel_run gs file opts :
  decideStrictLevel file opts gs =
  match strictnessOverrides opts !! normalizePath (path (FileRef_data gs file)) with
  | Some fnd =>
      (Returns (levelOf gs opts fnd),
       if StrictLevel.eqb fnd (originalSigil (FileRef_data gs file))
       then withErrors (errors_ gs ++ [uselessOverrideError file]) gs else gs)
  | None => (Returns (levelOf gs opts (chosenLevel gs file opts)), gs)
  end.
Proof.
  unfold decideStrictLevel, chosenLevel, normalizePath, levelOf, clamp, uselessOverrideError,
    bind, get, ret, whenM, beginError, modify.
  destruct (strictnessOverrides opts !! _) as [fnd|]; simpl.
  - destruct (StrictLevel.eqb fnd _); simpl;
      destruct (runningUnderAutogen gs); simpl; rewrite ?guard_clamped; reflexivity.
  - destruct (StrictLevel.eqb (originalSigil _) _); simpl;
      destruct (runningUnderAutogen gs); simpl; rewrite ?guard_clamped; reflexivity.
Qed.

(** C3, counterexample: a file whose sigil is [autogenerated], checked
    with the maximum level forced to [true], keeps the level
    [Autogenerated]; the claim asks for the clamped level [True], since
    [Autogenerated] is neither [Ignore] nor [Internal]. *)
Lemma decideStrictLevel_autogenerated_not_clamped :
  ~ decideStrictLevelAsSpecified (Sample.gsWith [Sample.autogeneratedFile]) 1 Sample.optsMaxTrue.
Proof. unfold decideStrictLevelAsSpecified. vm_compute. discriminate. Qed.

(** C3 (amended): [decideStrictLevel] chooses the override if the
    normalized path has one, else the sigil, else [False]; it clamps the
    chosen level to [max(min(level, forceMaxStrict), forceMinStrict)]
    exactly when the level lies above [Ignore] and at most at [Max]
    ([False], [True], [Strict], [Strong], [Max]) and leaves every other
    level as it is ([Ignore] and [Internal], and also [None],
    [Autogenerated] and [Stdlib]); under autogen the result is [False]
    regardless. *)
Theorem decideStrictLevel_level gs file opts :
  fst (decideStrictLevel file opts gs) =
  Returns (if runningUnderAutogen gs then StrictLevel.False_
           else if clamped (chosenLevel gs file opts)
                then clamp opts (chosenLevel gs file opts)
                else chosenLevel gs file opts).
Proof.
  rewrite decideStrictLevel_run. unfold chosenLevel, levelOf.
  destruct (strictnessOverrides opts !! _); reflexivity.
Qed.

(** C4, counterexample: [./a.rb] carries the sigil [true] and is
    overridden to [true]; the diagnostic that is queued has the class
    [Parser::ParserError], so none of kind [UselessStrictnessOverride]
    is emitted although the override equals the sigil. *)
Lemma decideStrictLevel_useless_override_is_ParserError :
  ~ uselessOverrideAsSpecified (Sample.gsWith [Sample.trueFile]) 1 Sample.optsOverrideTrue.
Proof.
  intros Hspec. destruct (Hspec StrictLevel.True_) as [_ [_ Hemit]]; [reflexivity|].
  destruct Hemit as (e & Hin & _ & Hkind); [reflexivity|].
  vm_compute in Hin. apply list_elem_of_singleton in Hin. subst e. discriminate Hkind.
Qed.

(** C4 (amended): when the normalized path of the file is a key of
    [strictnessOverrides], the override is the level chosen (the level
    returned is that level after the clamp and the autogen rule of C3),
    and [decideStrictLevel] queues exactly one diagnostic, of class
    [Parser::ParserError] with header "Useless override of strictness
    level" on [Loc::none(file)], if the override equals the file's
    [originalSigil], and no diagnostic otherwise. *)
Theorem decideStrictLevel_override gs file opts override :
  strictnessOverrides opts !! normalizePath (path (FileRef_data gs file)) = Some override ->
  chosenLevel gs file opts = override
  /\ fst (decideStrictLevel file opts gs) = Returns (levelOf gs opts override)
  /\ emitted gs (snd (decideStrictLevel file opts gs)) =
     (if bool_decide (override = originalSigil (FileRef_data gs file))
      then [uselessOverrideError file] else []).
Proof.
  intros Hfnd. rewrite decideStrictLevel_run. unfold chosenLevel, emitted, StrictLevel.eqb.
  rewrite Hfnd. split; [reflexivity|]. split; [reflexivity|].
  simpl. case_bool_decide; simpl.
  - by rewrite drop_app_length.
  - by rewrite drop_all.
Qed.

Lemma decideStrictLevel_override_witness :
  strictnessOverrides Sample.optsOverrideTrue
    !! normalizePath (path (FileRef_data (Sample.gsWith [Sample.trueFile]) 1))
  = Some StrictLevel.True_
  /\ emitted (Sample.gsWith [Sample.trueFile])
             (snd (decideStrictLevel 1 Sample.optsOverrideTrue (Sample.gsWith [Sample.trueFile])))
     = [uselessOverrideError 1].
Proof.
  split; [reflexivity|].
  apply (decideStrictLevel_override (Sample.gsWith [Sample.trueFile]) 1
           Sample.optsOverrideTrue StrictLevel.True_).
  reflexivity.
Defined.
End DecideStrictLevel.

(** *** The monad and [ENFORCE] *)

Section MonadFacts.
Context `{B : Build}.

Lemma ENFORCE_debug (Hdebug : debug_mode = true) c gs :
  ENFORCE c gs = if c then (Returns tt, gs) else (Throws, gs).
Proof. unfold ENFORCE. rewrite Hdebug. by destruct c. Qed.

Lemma ENFORCE_release (Hrelease : debug_mode = false) c gs :
  ENFORCE c gs = (Returns tt, gs).
Proof. unfold ENFORCE. by rewrite Hrelease. Qed.

(** Whatever the build, [ENFORCE] leaves the state alone. *)
Lemma ENFORCE_state c gs : snd (ENFORCE c gs) = gs.
Proof. unfold ENFORCE. by destruct (debug_mode && negb c). Qed.

Lemma ENFORCE_cases c gs :
  ENFORCE c gs = (Returns tt, gs) \/ ENFORCE c gs = (Throws, gs).
Proof. unfold ENFORCE. destruct (debug_mode && negb c); auto. Qed.
Lemma bind_run {A A'} (m : M A) (k : A -> M A') gs a gs1 :
  m gs = (Returns a, gs1) -> bind m k gs = k a gs1.
Proof. intros Hm. unfold bind. by rewrite Hm. Qed.

Lemma ENFORCE_true c gs : c = true -> ENFORCE c gs = (Returns tt, gs).
Proof. intros ->. unfold ENFORCE. by rewrite andb_false_r. Qed.
End MonadFacts.

(** *** The name table *)

Section NameTable.
Import Spec.
Context `{B : Build}.

(** In a debug build [Name::sanityCheck] returns on the name stored at
    id [i] exactly when the name satisfies the invariant of the name
    table and re-entering the name yields the id [i] again; it raises
    otherwise. *)
Lemma Name_sanityCheck_debug gs i nm :
  debug_mode = true ->
  names gs !! i = Some nm ->
  fst (Name_sanityCheck i gs) = Returns tt
  <-> Name_wellFormed i nm
      /\ exists again gs', reenter nm gs = (Returns again, gs') /\ _id again = i.
Proof.
  intros Hd Hnm. unfold Name_sanityCheck, Name_ref. rewrite Hd. simpl.
  unfold bind at 1. unfold get at 1. rewrite Hnm.
  destruct nm as [s|k num original|original]; simpl.
  - unfold bind. destruct (enterNameUTF8 s gs) as [[again|] gs'] eqn:E.
    + rewrite (ENFORCE_debug Hd). unfold NameRef_eqb. simpl.
      destruct (Nat.eqb_spec i (_id again)); simpl; naive_solver.
    + naive_solver.
  - unfold bind. rewrite !(ENFORCE_debug Hd).
    destruct (Nat.ltb_spec (_id original) i); simpl; [|split; [done|lia]].
    rewrite !(ENFORCE_debug Hd).
    destruct (Nat.ltb_spec 0 num); simpl; [|split; [done|lia]].
    destruct (freshNameUnique k original num gs) as [[again|] gs'] eqn:E.
    + rewrite (ENFORCE_debug Hd). unfold NameRef_eqb. simpl.
      destruct (Nat.eqb_spec i (_id again)); simpl; naive_solver.
    + naive_solver.
  - unfold bind. rewrite !(ENFORCE_debug Hd).
    destruct (Nat.ltb_spec (_id original) i); simpl; [|split; [done|lia]].
    destruct (enterNameConstant original gs) as [[again|] gs'] eqn:E.
    + rewrite (ENFORCE_debug Hd). unfold NameRef_eqb. simpl.
      destruct (Nat.eqb_spec i (_id again)); simpl; naive_solver.
    + naive_solver.
Qed.

Lemma Name_same_refl nm : Name_same nm nm = true.
Proof.
  destruct nm as [s|k num o|o]; simpl; unfold NameRef_eqb;
    rewrite ?bool_decide_eq_true_2, ?Nat.eqb_refl; done.
Qed.

Lemma Name_same_sym a b : Name_same a b = Name_same b a.
Proof.
  destruct a as [s|k num o|o], b as [s'|k' num' o'|o']; simpl; try done; unfold NameRef_eqb.
  - apply bool_decide_ext. naive_solver.
  - rewrite (Nat.eqb_sym num), (Nat.eqb_sym (_id o)). do 2 f_equal.
    apply bool_decide_ext. naive_solver.
  - apply Nat.eqb_sym.
Qed.

Definition tableInvariant (gs : GlobalState) : Prop :=
  tableWellFormed gs /\ internedOnce gs /\ (debug_mode = true -> constantsOk gs).

Lemma enterName_stored gs i nm :
  internedOnce gs -> names gs !! i = Some nm ->
  enterName nm gs = (Returns (NameRef_new gs i), gs).
Proof.
  intros Honce Hnm. unfold enterName.
  assert (list_find (fun m => Name_same nm m = true) (names gs) = Some (i, nm)) as ->; [|done].
  apply list_find_Some. split; [done|]. split; [apply Name_same_refl|].
  intros j y Hy Hlt Hsame. specialize (Honce i j nm y Hnm Hy Hsame). lia.
Qed.

Lemma constantOriginalOk_app gs more original :
  _id original < length (names gs) ->
  constantOriginalOk (withNames (names gs ++ more) gs) original = constantOriginalOk gs original.
Proof. intros Hlt. unfold constantOriginalOk. simpl. by rewrite lookup_app_l. Qed.

Lemma enterName_invariant nm gs r gs' :
  tableInvariant gs -> enterable gs nm ->
  (debug_mode = true -> forall original, nm = CONSTANT original ->
                                         constantOriginalOk gs original = true) ->
  enterName nm gs = (Returns r, gs') ->
  tableInvariant gs'.
Proof.
  intros (Hwf & Honce & Hconst) Hnm Hok. unfold enterName.
  destruct (list_find _ (names gs)) as [[i stored]|] eqn:Hfind; intros [= _ <-]; [done|].
  assert (Hnone : forall j b, names gs !! j = Some b -> Name_same nm b = false).
  { intros j b Hb. destruct (Name_same nm b) eqn:Hsame; [|done].
    eapply list_find_None in Hfind. rewrite Forall_forall in Hfind.
    destruct (Hfind b); [by eapply list_elem_of_lookup_2|done]. }
  assert (Hnew : forall j b, (names gs ++ [nm]) !! j = Some b ->
                             names gs !! j = Some b \/ j = length (names gs) /\ b = nm).
  { intros j b Hb. apply lookup_app_Some in Hb as [Hb|[Hlen Hb]]; [by left|right].
    destruct (j - length (names gs)) as [|k] eqn:Hk; [|done].
    injection Hb as <-. split; [lia|done]. }
  split_and!.
  - intros j b Hb. simpl in Hb. destruct (Hnew j b Hb) as [Hold|[-> ->]]; [by apply Hwf|].
    destruct nm as [s|k num o|o]; simpl in *; done.
  - intros i j a b Ha Hb Hsame. simpl in Ha, Hb.
    destruct (Hnew i a Ha) as [Ha'|[-> ->]], (Hnew j b Hb) as [Hb'|[-> ->]].
    + by eapply Honce.
    + rewrite Name_same_sym, (Hnone _ _ Ha') in Hsame. done.
    + rewrite (Hnone _ _ Hb') in Hsame. done.
    + done.
  - intros Hd j original Hj. simpl in Hj.
    destruct (Hnew j _ Hj) as [Hold|[-> Heq]].
    + rewrite constantOriginalOk_app; [by eapply (Hconst Hd)|].
      specialize (Hwf j _ Hold). simpl in Hwf.
      apply lookup_lt_Some in Hold. lia.
    + subst nm. simpl in Hnm. rewrite constantOriginalOk_app by done. by eapply Hok.
Qed.

Lemma reenter_invariant nm gs r gs' :
  tableInvariant gs -> enterable gs nm -> reenter nm gs = (Returns r, gs') ->
  tableInvariant gs'.
Proof.
  intros Hinv Hnm. destruct nm as [s|k num o|o]; simpl.
  - unfold enterNameUTF8. by apply enterName_invariant.
  - unfold freshNameUnique. by apply enterName_invariant.
  - unfold enterNameConstant, bind, get. intros Hrun.
    destruct (ENFORCE (constantOriginalOk gs o) gs) as [[[]|] gs1] eqn:Hcheck; [|done].
    assert (gs1 = gs) as ->.
    { pose proof (ENFORCE_state (constantOriginalOk gs o) gs) as Hs. by rewrite Hcheck in Hs. }
    eapply enterName_invariant; [done|done| |exact Hrun].
    intros Hd original [= <-]. rewrite (ENFORCE_debug Hd) in Hcheck.
    by destruct (constantOriginalOk gs o).
Qed.

Lemma tableInvariant_names gs gs' :
  tableInvariant gs -> names gs' = names gs -> tableInvariant gs'.
Proof.
  intros (Hwf & Honce & Hconst) Hnames. split_and!.
  - intros i nm. rewrite Hnames. apply Hwf.
  - intros i j a b. rewrite Hnames. apply Honce.
  - intros Hd i original. unfold constantOriginalOk. rewrite Hnames. by apply (Hconst Hd).
Qed.

Lemma tableEntered_invariant gs : tableEntered gs -> tableInvariant gs.
Proof.
  induction 1 as [gs Hnone | gs nm r gs' _ IH Hnm Hrun | gs gs' _ IH Hnames].
  - split_and!.
    + intros i nm. by rewrite Hnone.
    + intros i j a b. by rewrite Hnone.
    + intros _ i original. by rewrite Hnone.
  - by eapply reenter_invariant.
  - by eapply tableInvariant_names.
Qed.

(** The check returns on a stored name that satisfies the invariant,
    in a table that interns each name once, and leaves the state as it
    is. *)
Lemma Name_sanityCheck_returns gs i nm :
  internedOnce gs -> (debug_mode = true -> constantsOk gs) ->
  names gs !! i = Some nm -> Name_wellFormed i nm ->
  Name_sanityCheck i gs = (Returns tt, gs).
Proof.
  intros Honce Hconst Hnm Hwf. unfold Name_sanityCheck.
  destruct debug_mode eqn:Hd; [|done]. simpl.
  unfold bind at 1. unfold get at 1. rewrite Hnm. unfold Name_ref.
  destruct nm as [s|k num o|o]; simpl in Hwf.
  - unfold enterNameUTF8. erewrite bind_run by (by apply enterName_stored).
    apply ENFORCE_true. unfold NameRef_eqb. simpl. apply Nat.eqb_refl.
  - destruct Hwf as [Hlt Hpos].
    erewrite bind_run by (apply ENFORCE_true; simpl; by apply Nat.ltb_lt).
    erewrite bind_run by (apply ENFORCE_true; by apply Nat.ltb_lt).
    unfold freshNameUnique. erewrite bind_run by (by apply enterName_stored).
    apply ENFORCE_true. unfold NameRef_eqb. simpl. apply Nat.eqb_refl.
  - erewrite bind_run by (apply ENFORCE_true; simpl; by apply Nat.ltb_lt).
    unfold enterNameConstant.
    erewrite bind_run.
    2:{ erewrite bind_run by reflexivity.
        erewrite bind_run by (apply ENFORCE_true; by eapply (Hconst eq_refl)).
        by apply enterName_stored. }
    apply ENFORCE_true. unfold NameRef_eqb. simpl. apply Nat.eqb_refl.
Qed.

(** C6: every [UNIQUE] or [CONSTANT] name stored in a name table that
    the operations of the name table have built (from refs into the
    table and positive numbers) has an [original] whose id is strictly
    smaller than its own id, and a [UNIQUE] name has [num > 0]; and
    [Name::sanityCheck] returns for every stored name of such a table.
    The check asserts this: in a debug build, on a table that interns
    each name once, it returns on the name stored at id [i] exactly when
    the name satisfies this invariant, and raises otherwise; on any table
    it returns exactly when the name satisfies the invariant and
    re-entering the name yields the id [i] again. *)
Theorem Name_sanityCheck_asserts gs :
  (tableEntered gs ->
   tableWellFormed gs
   /\ forall i nm, names gs !! i = Some nm -> Name_sanityCheck i gs = (Returns tt, gs))
  /\ (debug_mode = true ->
      internedOnce gs -> constantsOk gs ->
      forall i nm,
        names gs !! i = Some nm ->
        (fst (Name_sanityCheck i gs) = Returns tt <-> Name_wellFormed i nm)
        /\ (fst (Name_sanityCheck i gs) = Throws <-> ~ Name_wellFormed i nm))
  /\ (debug_mode = true ->
      forall i nm,
        names gs !! i = Some nm ->
        fst (Name_sanityCheck i gs) = Returns tt
        <-> Name_wellFormed i nm
            /\ exists again gs', reenter nm gs = (Returns again, gs') /\ _id again = i).
Proof.
  split_and!.
  - intros Hentered. destruct (tableEntered_invariant gs Hentered) as (Hwf & Honce & Hconst).
    split; [exact Hwf|]. intros i nm Hnm. eapply Name_sanityCheck_returns; eauto.
  - intros Hd Honce Hconst i nm Hnm.
    assert (Hiff : fst (Name_sanityCheck i gs) = Returns tt <-> Name_wellFormed i nm).
    { split.
      - intros Hrun. by apply (Name_sanityCheck_debug gs i nm Hd Hnm).
      - intros Hwf. by rewrite (Name_sanityCheck_returns gs i nm Honce (fun _ => Hconst) Hnm Hwf). }
    split; [exact Hiff|]. rewrite <- Hiff.
    destruct (fst (Name_sanityCheck i gs)) as [[]|]; naive_solver.
  - intros Hd i nm. by apply Name_sanityCheck_debug.
Qed.

(** In a release build the check does nothing. *)
Lemma Name_sanityCheck_release gs i :
  debug_mode = false -> Name_sanityCheck i gs = (Returns tt, gs).
Proof. intros Hr. unfold Name_sanityCheck. by rewrite Hr. Qed.





End NameTable.

Lemma Name_sanityCheck_asserts_witness :
  @Spec.tableEntered Sample.debugBuild Sample.gsNames
  /\ names Sample.gsNames !! 3 = Some (UNIQUE MangleRename 1 (mkNameRef 1 1))
  /\ Name_wellFormed 3 (UNIQUE MangleRename 1 (mkNameRef 1 1))
  /\ @Name_sanityCheck Sample.debugBuild 3 Sample.gsNames = (Returns tt, Sample.gsNames).
Proof.
  assert (Hentered : @Spec.tableEntered Sample.debugBuild Sample.gsNames).
  { eapply (Spec.entered_name
              (withNames [UTF8 "<none>"; UTF8 "bar"; CONSTANT (mkNameRef 1 1)] Sample.gsNames)
              (UNIQUE MangleRename 1 (mkNameRef 1 1)));
      [|simpl; lia|vm_compute; reflexivity].
    eapply (Spec.entered_name (withNames [UTF8 "<none>"; UTF8 "bar"] Sample.gsNames)
              (CONSTANT (mkNameRef 1 1)));
      [|simpl; lia|vm_compute; reflexivity].
    eapply (Spec.entered_name (withNames [UTF8 "<none>"] Sample.gsNames) (UTF8 "bar"));
      [|exact I|vm_compute; reflexivity].
    eapply (Spec.entered_name (withNames [] Sample.gsNames) (UTF8 "<none>"));
      [|exact I|vm_compute; reflexivity].
    apply Spec.entered_none. reflexivity. }
  split; [exact Hentered|]. split; [reflexivity|].
  destruct (proj1 (@Name_sanityCheck_asserts Sample.debugBuild Sample.gsNames) Hentered)
    as [Hwf Hcheck].
  split; [exact (Hwf 3 _ eq_refl)|exact (Hcheck 3 _ eq_refl)].
Defined.



(** *** Postconditions of computations that return *)

Section Postconditions.
(** [returning m Q]: whenever [m] returns, [Q] holds of the value. *)
Definition returning {A} (m : M A) (Q : A -> Prop) : Prop :=
  forall gs a gs', m gs = (Returns a, gs') -> Q a.

Lemma returning_ret {A} (a : A) (Q : A -> Prop) : Q a -> returning (ret a) Q.
Proof. intros HQ gs a' gs' [= <- _]. exact HQ. Qed.

Lemma returning_bind {A C} (m : M A) (k : A -> M C) (Q : C -> Prop) :
  (forall a, returning (k a) Q) -> returning (bind m k) Q.
Proof.
  intros Hk gs c gs'. unfold bind. destruct (m gs) as [[a|] gs1]; [|discriminate].
  apply Hk.
Qed.

Lemma returning_if {A} (b : bool) (m1 m2 : M A) Q :
  returning m1 Q -> returning m2 Q -> returning (if b then m1 else m2) Q.
Proof. by destruct b. Qed.

Lemma returning_try_catch {A} (m h : M A) Q :
  returning m Q -> returning h Q -> returning (try_catch m h) Q.
Proof.
  intros Hm Hh gs a gs'. unfold try_catch.
  destruct (m gs) as [[a'|] gs1] eqn:E.
  - intros [= <- <-]. eauto.
  - apply Hh.
Qed.
Lemma returning_bind_run {A C} (m : M A) (k : A -> M C) (R : A -> Prop) (Q : C -> Prop) :
  returning m R -> (forall a, R a -> returning (k a) Q) -> returning (bind m k) Q.
Proof.
  intros Hm Hk gs c gs'. unfold bind. destruct (m gs) as [[a|] gs1] eqn:E; [|discriminate].
  apply Hk. by eapply Hm.
Qed.
End Postconditions.

Ltac returning_step :=
  lazymatch goal with
  | |- returning (ret _) _ => apply returning_ret
  | |- returning (bind _ _) _ => apply returning_bind; intros ?
  | |- returning (if _ then _ else _) _ => apply returning_if
  | |- returning (try_catch _ _) _ => apply returning_try_catch
  | |- returning (match ?x with (_, _) => _ end) _ => destruct x
  end.

Section Indexing.
Import pipeline Spec.
Context `{B : Build} `{P : Phases}.

Lemma indexOneTry_file opts file_ kvstore :
  returning (indexOneTry opts file_ kvstore) (fun p => file p = file_).
Proof.
  unfold indexOneTry.
  apply returning_bind; intros [cached|]; repeat returning_step; reflexivity.
Qed.

Lemma indexOneWithPluginsTry_file opts file_ kvstore :
  returning (indexOneWithPluginsTry opts file_ kvstore) (fun r => file (fst r) = file_).
Proof.
  unfold indexOneWithPluginsTry.
  apply returning_bind; intros [cached|]; repeat returning_step; try reflexivity.
Qed.

Lemma indexOne_file opts file_ kvstore :
  returning (indexOne opts file_ kvstore) (fun p => file p = file_).
Proof.
  unfold indexOne. repeat returning_step; try reflexivity. apply indexOneTry_file.
Qed.

Lemma indexOneWithPlugins_file opts file_ kvstore :
  returning (indexOneWithPlugins opts file_ kvstore) (fun r => file (fst r) = file_).
Proof.
  unfold indexOneWithPlugins. repeat returning_step; try reflexivity.
  apply indexOneWithPluginsTry_file.
Qed.


(** A phase that raises makes the block raise, in the state the phase
    left. *)
Lemma bind_throws {A C} (m : M A) (k : A -> M C) gs gs1 :
  m gs = (Throws, gs1) -> bind m k gs = (Throws, gs1).
Proof. intros Hm. unfold bind. by rewrite Hm. Qed.

Lemma Phase_eqb_ne (a b : Phase.t) : a <> b -> Phase.eqb a b = false.
Proof. intros Hne. unfold Phase.eqb. by rewrite bool_decide_eq_false_2. Qed.

Lemma StrictLevel_eqb_ne (a b : StrictLevel.t) : a <> b -> StrictLevel.eqb a b = false.
Proof. intros Hne. unfold StrictLevel.eqb. by rewrite bool_decide_eq_false_2. Qed.

(** The run of a block up to a phase. *)
Ltac phases_run :=
  repeat first
    [ erewrite bind_run by eassumption
    | erewrite bind_run by reflexivity
    | rewrite StrictLevel_eqb_ne by assumption
    | rewrite Phase_eqb_ne by assumption
    | match goal with H : skipDSLPasses _ = _ |- _ => rewrite H end
    | progress cbv beta iota ];
  try (by apply bind_throws);
  try (erewrite bind_throws; [reflexivity|]; by apply bind_throws).

Lemma phaseRaises_indexOneWithPluginsTry opts file_ kvstore gs gsRaise :
  phaseRaises true opts file_ kvstore gs gsRaise ->
  indexOneWithPluginsTry opts file_ kvstore gs = (Throws, gsRaise).
Proof.
  unfold indexOneWithPluginsTry.
  destruct 1 as [Hfetch | gs1 [Hfetch Hlevel] Hraise
                 | parseTree gs2 (gs1 & [Hfetch Hlevel] & Hparse & Hstop1) Hraise
                 | tree_ gs3 _ (parseTree & gs2 & (gs1 & [Hfetch Hlevel] & Hparse & Hstop1)
                                & Hdesugar & Hstop2) Hraise
                 | tree_ gs4 Hskip Hplugins Hraise
                 | tree_ gs5 Hdsl Hraise ].
  - by apply bind_throws.
  - phases_run.
  - phases_run.
  - phases_run.
  - destruct Hplugins as (desugaredTree & gs3 & pluginFiles
                          & (parseTree & gs2 & (gs1 & [Hfetch Hlevel] & Hparse & Hstop1)
                             & Hdesugar & Hstop2) & Hplugin).
    phases_run.
  - unfold dslRun in Hdsl. destruct (skipDSLPasses opts) eqn:Hskip.
    + destruct Hdsl as (desugaredTree & gs3 & pluginFiles
                        & (parseTree & gs2 & (gs1 & [Hfetch Hlevel] & Hparse & Hstop1)
                           & Hdesugar & Hstop2) & Hplugin).
      phases_run.
    + destruct Hdsl as (pluginTree & gs4
                        & (desugaredTree & gs3 & pluginFiles
                           & (parseTree & gs2 & (gs1 & [Hfetch Hlevel] & Hparse & Hstop1)
                              & Hdesugar & Hstop2) & Hplugin) & Hrun).
      phases_run.
Qed.

Lemma phaseRaises_indexOneTry opts file_ kvstore gs gsRaise :
  phaseRaises false opts file_ kvstore gs gsRaise ->
  indexOneTry opts file_ kvstore gs = (Throws, gsRaise).
Proof.
  unfold indexOneTry.
  destruct 1 as [Hfetch | gs1 [Hfetch Hlevel] Hraise
                 | parseTree gs2 (gs1 & [Hfetch Hlevel] & Hparse & Hstop1) Hraise
                 | tree_ gs3 Hplugins _ Hraise
                 | tree_ gs4 Hskip
                     (parseTree & gs2 & (gs1 & [Hfetch Hlevel] & Hparse & Hstop1)
                      & Hdesugar & Hstop2) Hraise
                 | tree_ gs5 Hdsl Hraise ].
  - by apply bind_throws.
  - phases_run.
  - phases_run.
  - discriminate Hplugins.
  - phases_run.
  - unfold dslRun in Hdsl. destruct (skipDSLPasses opts) eqn:Hskip.
    + destruct Hdsl as (parseTree & gs2 & (gs1 & [Hfetch Hlevel] & Hparse & Hstop1)
                        & Hdesugar & Hstop2).
      phases_run.
    + destruct Hdsl as (pluginTree & gs4
                        & (parseTree & gs2 & (gs1 & [Hfetch Hlevel] & Hparse & Hstop1)
                           & Hdesugar & Hstop2) & Hrun).
      phases_run.
Qed.

(** The check at the entry of [indexOne] raises in a debug build when
    the level stored for the file is not the level that
    [decideStrictLevel] decides, and in no other case. *)
Lemma indexOneEnforce_throws opts file_ gs :
  fst (indexOneEnforce opts file_ gs) = Throws
  <-> debug_mode = true
      /\ strictLevel (FileRef_data gs file_) <> levelOf gs opts (chosenLevel gs file_ opts).
Proof.
  unfold indexOneEnforce. destruct debug_mode eqn:Hd; [|naive_solver].
  unfold bind. rewrite decideStrictLevel_run. unfold chosenLevel, get.
  destruct (strictnessOverrides opts !! _) as [fnd|]; simpl.
  - rewrite (ENFORCE_debug Hd).
    assert (FileRef_data (if StrictLevel.eqb fnd (originalSigil (FileRef_data gs file_))
                          then withErrors (errors_ gs ++ [uselessOverrideError file_]) gs
                          else gs) file_ = FileRef_data gs file_) as ->
        by (by destruct (StrictLevel.eqb fnd _)).
    unfold StrictLevel.eqb. case_bool_decide; simpl; naive_solver.
  - rewrite (ENFORCE_debug Hd). unfold StrictLevel.eqb.
    case_bool_decide as Hlevel; simpl; [naive_solver|].
    split; [|done]. intros _. split; [done|]. exact Hlevel.
Qed.

(** C2: whatever the phases do, an exception that a phase raises while
    a file is indexed (cache lookup, parser, desugarer, plugin rewrite,
    DSL passes, local variables) does not leave [indexOneWithPlugins] or
    [indexOne]: the call returns the empty parsed file of the requested
    file (an [EmptyTree]), and the state in which the phase raised gains
    one [InternalError] diagnostic on [Loc::none(file)] and is otherwise
    unchanged, so the other files are as the phases left them.
    [indexOneWithPlugins] never raises.  [indexOne] raises only at the
    [ENFORCE] that precedes its [try] block, before any phase has run:
    in a debug build, when the level stored for the file is not the
    level that [decideStrictLevel] decides. *)
Theorem indexing_is_failure_isolated opts file_ kvstore gs :
  (forall gsRaise,
      phaseRaises true opts file_ kvstore gs gsRaise ->
      indexOneWithPlugins opts file_ kvstore gs
      = (Returns (mkParsedFile EmptyTree file_, []),
         withErrors (errors_ gsRaise ++ [internalError file_]) gsRaise))
  /\ (forall gs0 gsRaise,
        indexOneEnforce opts file_ gs = (Returns tt, gs0) ->
        phaseRaises false opts file_ kvstore gs0 gsRaise ->
        indexOne opts file_ kvstore gs
        = (Returns (mkParsedFile EmptyTree file_),
           withErrors (errors_ gsRaise ++ [internalError file_]) gsRaise))
  /\ (exists r gs', indexOneWithPlugins opts file_ kvstore gs = (Returns r, gs'))
  /\ (fst (indexOne opts file_ kvstore gs) = Throws
      <-> debug_mode = true
          /\ strictLevel (FileRef_data gs file_)
             <> levelOf gs opts (chosenLevel gs file_ opts)).
Proof.
  split_and!.
  - intros gsRaise Hraise. unfold indexOneWithPlugins, try_catch.
    by rewrite (phaseRaises_indexOneWithPluginsTry _ _ _ _ _ Hraise).
  - intros gs0 gsRaise Hentry Hraise. unfold indexOne.
    erewrite bind_run by exact Hentry. unfold try_catch.
    by rewrite (phaseRaises_indexOneTry _ _ _ _ _ Hraise).
  - unfold indexOneWithPlugins, try_catch.
    destruct (indexOneWithPluginsTry opts file_ kvstore gs) as [[r|] gs1]; by eexists _, _.
  - rewrite <- indexOneEnforce_throws. unfold indexOne, bind.
    destruct (indexOneEnforce opts file_ gs) as [[[]|] gs0]; [|done].
    unfold try_catch. simpl.
    destruct (indexOneTry opts file_ kvstore gs0) as [[p|] gs1]; done.
Qed.

(** The files of the state are not touched by the catch-all. *)
Lemma internalError_keeps_files file_ gs1 :
  files (withErrors (errors_ gs1 ++ [internalError file_]) gs1) = files gs1.
Proof. reflexivity. Qed.





End Indexing.

Lemma indexing_is_failure_isolated_witness :
  @pipeline.indexOneEnforce Sample.debugBuild Sample.optsPlain 2
     (Sample.gsWith [Sample.falseFile "a.rb"; Sample.falseFile "b.rb"])
  = (Returns tt, Sample.gsWith [Sample.falseFile "a.rb"; Sample.falseFile "b.rb"])
  /\ @Spec.phaseRaises Sample.debugBuild Sample.phases false Sample.optsPlain 2 None
       (Sample.gsWith [Sample.falseFile "a.rb"; Sample.falseFile "b.rb"])
       (Sample.gsWith [Sample.falseFile "a.rb"; Sample.falseFile "b.rb"])
  /\ @pipeline.indexOne Sample.debugBuild Sample.phases Sample.optsPlain 2 None
       (Sample.gsWith [Sample.falseFile "a.rb"; Sample.falseFile "b.rb"])
     = (Returns (mkParsedFile EmptyTree 2),
        withErrors [Spec.internalError 2]
                   (Sample.gsWith [Sample.falseFile "a.rb"; Sample.falseFile "b.rb"])).
Proof.
  assert (Hraise : @Spec.phaseRaises Sample.debugBuild Sample.phases false Sample.optsPlain 2
                     None (Sample.gsWith [Sample.falseFile "a.rb"; Sample.falseFile "b.rb"])
                     (Sample.gsWith [Sample.falseFile "a.rb"; Sample.falseFile "b.rb"])).
  { apply Spec.raises_parser
      with (gs1 := Sample.gsWith [Sample.falseFile "a.rb"; Sample.falseFile "b.rb"]).
    - split; [reflexivity|discriminate].
    - reflexivity. }
  split; [reflexivity|]. split; [exact Hraise|].
  exact (proj1 (proj2 (@indexing_is_failure_isolated Sample.debugBuild Sample.phases
                         Sample.optsPlain 2 None
                         (Sample.gsWith [Sample.falseFile "a.rb"; Sample.falseFile "b.rb"])))
           _ _ eq_refl Hraise).
Defined.

(** The parser of the sample phases fails on file 2: the call returns
    the empty parsed file and one [InternalError] on that file. *)
Example indexOne_parser_failure :
  @pipeline.indexOne Sample.debugBuild Sample.phases Sample.optsPlain 2 None
     (Sample.gsWith [Sample.falseFile "a.rb"; Sample.falseFile "b.rb"])
  = (Returns (mkParsedFile EmptyTree 2),
     withErrors [Spec.internalError 2]
                (Sample.gsWith [Sample.falseFile "a.rb"; Sample.falseFile "b.rb"])).
Proof. reflexivity. Qed.


(** *** The coordinator *)

Lemma bind_returns_inv {A C} (m : M A) (k : A -> M C) gs c gs' :
  bind m k gs = (Returns c, gs') ->
  exists a gs1, m gs = (Returns a, gs1) /\ k a gs1 = (Returns c, gs').
Proof. unfold bind. destruct (m gs) as [[a|] gs1]; [eauto|discriminate]. Qed.

Ltac inv_bind H :=
  let a := fresh "a" in let gs1 := fresh "gs" in let H1 := fresh H in
  apply bind_returns_inv in H; destruct H as (a & gs1 & H1 & H).

Section Coordinator.
Import pipeline Spec.
Context `{B : Build} `{P : Phases}.

Lemma substituteTrees_files onlyUncached substitution trees :
  forall gs trees' gs',
    substituteTrees onlyUncached substitution trees gs = (Returns trees', gs') ->
    file <$> trees' = file <$> trees.
Proof.
  induction trees as [|t trees IH]; intros gs trees' gs' Hrun; simpl in Hrun.
  - by injection Hrun as <- _.
  - inv_bind Hrun. inv_bind Hrun. inv_bind Hrun. injection Hrun as <- _.
    simpl. f_equal; [|by eapply IH].
    destruct (onlyUncached && _).
    + by injection Hrun1 as <- _.
    + inv_bind Hrun1. by injection Hrun1 as <- _.
Qed.

Lemma indexSuppliedFilesWorkerLoop_files opts kv jobs :
  forall trees pluginFiles gs trees' pluginFiles' gs',
    indexSuppliedFilesWorkerLoop opts kv jobs trees pluginFiles gs
    = (Returns (trees', pluginFiles'), gs') ->
    file <$> trees' = (file <$> trees) ++ jobs.
Proof.
  induction jobs as [|job jobs IH]; intros trees pluginFiles gs trees' pluginFiles' gs' Hrun;
    simpl in Hrun.
  - injection Hrun as <- _ _. by rewrite app_nil_r.
  - inv_bind Hrun. inv_bind Hrun. destruct a0 as [parsedFile pluginFiles0].
    apply IH in Hrun. rewrite Hrun, fmap_app, <- app_assoc. simpl.
    by rewrite <- (indexOneWithPlugins_file _ _ _ _ _ _ Hrun1).
Qed.

Lemma indexPluginFilesWorkerLoop_files opts kv jobs :
  forall trees gs trees' pluginFiles' gs',
    indexPluginFilesWorkerLoop opts kv jobs trees gs = (Returns (trees', pluginFiles'), gs') ->
    file <$> trees' = (file <$> trees) ++ jobs /\ pluginFiles' = [].
Proof.
  induction jobs as [|job jobs IH]; intros trees gs trees' pluginFiles' gs' Hrun; simpl in Hrun.
  - injection Hrun as <- <- _. by rewrite app_nil_r.
  - inv_bind Hrun. inv_bind Hrun. inv_bind Hrun.
    apply IH in Hrun as [Hrun ->]. split; [|done].
    rewrite Hrun, fmap_app, <- app_assoc. simpl.
    by rewrite <- (indexOne_file _ _ _ _ _ _ Hrun2).
Qed.

(** The files of the trees of a pack. *)
Definition packFiles (r : IndexThreadResultPack) : list FileRef := file <$> res_trees r.

Lemma multiplexJob_files job baseGs :
  (forall jobs gs trees pluginFiles gs',
      job jobs gs = (Returns (trees, pluginFiles), gs') -> file <$> trees = jobs) ->
  forall jobsOf results,
    multiplexJob job baseGs jobsOf = Returns results ->
    concat (packFiles <$> results) = concat jobsOf.
Proof.
  intros Hjob. induction jobsOf as [|jobs jobsOf IH]; intros results Hrun; simpl in Hrun.
  - by injection Hrun as <-.
  - destruct (runThread job baseGs jobs) as [r|] eqn:Hthread; [|discriminate].
    destruct (multiplexJob job baseGs jobsOf) as [rs|]; [|discriminate].
    injection Hrun as <-. rewrite fmap_app, concat_app, (IH rs eq_refl). simpl. f_equal.
    unfold runThread in Hthread.
    destruct (job jobs (deepCopy baseGs)) as [[[trees pluginFiles]|] localGs] eqn:Hj; [|discriminate].
    apply Hjob in Hj. injection Hthread as <-.
    destruct (Nat.eqb_spec (length trees) 0) as [Hlen|Hlen]; simpl.
    + apply length_zero_iff_nil in Hlen. subst trees. by rewrite <- Hj.
    + unfold packFiles. simpl. by rewrite app_nil_r.
Qed.

Lemma concat_alter_snoc (f : FileRef) i (jobs : list (list FileRef)) :
  i < length jobs -> concat (alter (fun js => js ++ [f]) i jobs) ≡ₚ concat jobs ++ [f].
Proof.
  revert i. induction jobs as [|js jobs IH]; intros i Hi; simpl in Hi; [lia|].
  destruct i as [|i].
  - change (concat ((js ++ [f]) :: jobs) ≡ₚ concat (js :: jobs) ++ [f]).
    rewrite !concat_cons, <- !app_assoc. f_equiv. apply Permutation_app_comm.
  - change (concat (js :: alter (fun js => js ++ [f]) i jobs) ≡ₚ concat (js :: jobs) ++ [f]).
    rewrite !concat_cons, IH by lia. by rewrite app_assoc.
Qed.

Lemma distribute_Permutation sched queue :
  forall i jobs,
    length jobs = S (extraThreads sched) ->
    concat (distribute sched i queue jobs) ≡ₚ concat jobs ++ queue.
Proof.
  induction queue as [|f queue IH]; intros i jobs Hlen; cbn [distribute].
  - by rewrite app_nil_r.
  - rewrite IH by (by rewrite length_alter).
    rewrite concat_alter_snoc.
    + by rewrite <- app_assoc.
    + rewrite Hlen. apply Nat.mod_upper_bound. lia.
Qed.

Lemma jobsOfThreads_Permutation sched queue :
  concat (jobsOfThreads sched queue) ≡ₚ queue.
Proof.
  unfold jobsOfThreads. rewrite distribute_Permutation by apply length_replicate.
  generalize (S (extraThreads sched)). intros n.
  replace (concat (replicate n [])) with (@nil FileRef); [done|].
  induction n; simpl; auto.
Qed.

Lemma arrivalOrder_Permutation {A} sched (waiting : list A) :
  forall n k, n = length waiting -> arrivalOrder n sched k waiting ≡ₚ waiting.
Proof.
  intros n. revert waiting. induction n as [|n IH]; intros waiting k Hn; cbn [arrivalOrder].
  - symmetry in Hn. apply length_zero_iff_nil in Hn. by subst.
  - destruct (waiting !! (pick sched k mod length waiting)) as [x|] eqn:Hx.
    + rewrite IH.
      * symmetry. by apply delete_Permutation.
      * rewrite length_delete by eauto. lia.
    + apply lookup_ge_None in Hx.
      assert (pick sched k mod length waiting < length waiting) by (apply Nat.mod_upper_bound; lia).
      lia.
Qed.

Lemma mergeIndexResultsLoop_files cgs input :
  forall ret0 kvstore ret_ kvstore',
    (ir_gs ret0 = None -> ir_trees ret0 = [] /\ ir_pluginGeneratedFiles ret0 = []) ->
    mergeIndexResultsLoop cgs input ret0 kvstore = Returns (ret_, kvstore') ->
    file <$> ir_trees ret_ = (file <$> ir_trees ret0) ++ concat (packFiles <$> input)
    /\ ir_pluginGeneratedFiles ret_
       = ir_pluginGeneratedFiles ret0 ++ concat (res_pluginGeneratedFiles <$> input)
    /\ (ir_gs ret_ = None -> input = [] /\ ir_gs ret0 = None).
Proof.
  induction input as [|threadResult input IH]; intros ret0 kvstore ret_ kvstore' Hinv Hrun;
    cbn [mergeIndexResultsLoop] in Hrun.
  - injection Hrun as <- _. simpl. by rewrite !app_nil_r.
  - destruct (ir_gs ret0) as [retGs|] eqn:Hgs.
    + destruct (bind _ _ retGs) as [[trees|] retGs'] eqn:Hsubst; [|discriminate].
      inv_bind Hsubst. apply substituteTrees_files in Hsubst.
      apply IH in Hrun as (Htrees & Hplugin & Hnone); [|discriminate].
      cbn [ir_trees ir_pluginGeneratedFiles ir_gs] in *.
      rewrite Htrees, Hplugin, fmap_app, Hsubst. simpl.
      rewrite <- !app_assoc. split; [done|]. split; [done|].
      intros Hn. by destruct (Hnone Hn).
    + destruct (Hinv eq_refl) as [Ht Hp].
      destruct (debug_mode && _); [discriminate|].
      apply IH in Hrun as (Htrees & Hplugin & Hnone); [|discriminate].
      cbn [ir_trees ir_pluginGeneratedFiles ir_gs] in *.
      rewrite Htrees, Hplugin, Ht, Hp. simpl. split; [done|]. split; [done|].
      intros Hn. by destruct (Hnone Hn).
Qed.

Lemma mergeIndexResults_files cgs sched results kvstore ret_ kvstore' :
  mergeIndexResults cgs sched results kvstore = Returns (ret_, kvstore') ->
  file <$> ir_trees ret_ ≡ₚ concat (packFiles <$> results)
  /\ length (ir_pluginGeneratedFiles ret_)
     = length (concat (res_pluginGeneratedFiles <$> results))
  /\ (ir_gs ret_ = None -> results = []).
Proof.
  unfold mergeIndexResults. intros Hrun.
  apply mergeIndexResultsLoop_files in Hrun as (Htrees & Hplugin & Hnone); [|done].
  pose proof (arrivalOrder_Permutation sched results (length results) 0 eq_refl) as Hperm.
  simpl in Htrees, Hplugin. rewrite Htrees, Hplugin. split; [|split].
  - by rewrite Hperm.
  - by rewrite Hperm.
  - intros Hn. destruct (Hnone Hn) as [Hnil _].
    rewrite Hnil in Hperm. symmetry. by apply Permutation_nil_l.
Qed.

Lemma indexSuppliedFiles_files sched baseGs files_ opts kvstore firstPass kvstore' :
  indexSuppliedFiles sched baseGs files_ opts kvstore = Returns (firstPass, kvstore') ->
  file <$> ir_trees firstPass ≡ₚ files_.
Proof.
  unfold indexSuppliedFiles. intros Hrun.
  destruct (multiplexJob _ _ _) as [results|] eqn:Hjobs; [|discriminate].
  apply mergeIndexResults_files in Hrun as (Htrees & _ & _).
  apply multiplexJob_files in Hjobs.
  - by rewrite Htrees, Hjobs, jobsOfThreads_Permutation.
  - intros jobs gsw trees pluginFiles gsw' Hloop.
    apply indexSuppliedFilesWorkerLoop_files in Hloop. by rewrite Hloop.
Qed.

Lemma enterPluginFiles_length pluginFiles :
  forall gs refs gs',
    enterPluginFiles pluginFiles gs = (Returns refs, gs') -> length refs = length pluginFiles.
Proof.
  induction pluginFiles as [|f pluginFiles IH]; intros gs refs gs' Hrun; simpl in Hrun.
  - by injection Hrun as <- _.
  - inv_bind Hrun. inv_bind Hrun. injection Hrun as <- _. simpl. f_equal. by eapply IH.
Qed.

Lemma indexPluginFiles_files sched firstPass opts kvstore pluginPass kvstore' :
  indexPluginFiles sched firstPass opts kvstore = Returns (pluginPass, kvstore') ->
  ir_gs pluginPass <> None ->
  exists pluginRefs,
    length pluginRefs = length (ir_pluginGeneratedFiles firstPass)
    /\ file <$> ir_trees pluginPass ≡ₚ (file <$> ir_trees firstPass) ++ pluginRefs.
Proof.
  unfold indexPluginFiles. intros Hrun Hgs.
  destruct (Nat.eqb_spec (length (ir_pluginGeneratedFiles firstPass)) 0) as [Hlen|Hlen].
  { injection Hrun as <- _. exists []. by rewrite app_nil_r. }
  destruct (ir_gs firstPass) as [firstGs|]; [|discriminate].
  destruct (enterPluginFiles _ firstGs) as [[pluginFileq|] protoGs] eqn:Henter; [|discriminate].
  destruct (multiplexJob _ _ _) as [results|] eqn:Hjobs; [|discriminate].
  destruct (mergeIndexResults _ _ _ _) as [[indexedPluginFiles kvstore1]|] eqn:Hmerge;
    [|discriminate].
  destruct (length (ir_trees indexedPluginFiles) =? 0).
  { injection Hrun as <- _. by destruct Hgs. }
  destruct (ir_gs indexedPluginFiles) as [newGs|]; [|discriminate].
  destruct (bind _ _ newGs) as [[trees|] newGs'] eqn:Hsubst; [|discriminate].
  injection Hrun as <- _. inv_bind Hsubst. apply substituteTrees_files in Hsubst.
  apply mergeIndexResults_files in Hmerge as (Htrees & _ & _).
  apply multiplexJob_files in Hjobs.
  - exists pluginFileq. split; [by eapply enterPluginFiles_length|].
    simpl. by rewrite fmap_app, Hsubst, Htrees, Hjobs, jobsOfThreads_Permutation.
  - intros jobs gsw trees0 pluginFiles gsw' Hloop.
    apply indexPluginFilesWorkerLoop_files in Hloop as [Hloop _]. by rewrite Hloop.
Qed.

Lemma indexInlinePluginFiles_files opts pluginFiles kvstore :
  forall ret0 gs ret_ gs',
    indexInlinePluginFiles opts pluginFiles kvstore ret0 gs = (Returns ret_, gs') ->
    exists pluginRefs,
      length pluginRefs = length pluginFiles
      /\ file <$> ret_ = (file <$> ret0) ++ pluginRefs.
Proof.
  induction pluginFiles as [|f pluginFiles IH]; intros ret0 gs ret_ gs' Hrun; simpl in Hrun.
  - injection Hrun as <- _. exists []. by rewrite app_nil_r.
  - inv_bind Hrun. inv_bind Hrun. inv_bind Hrun. inv_bind Hrun.
    apply IH in Hrun as (pluginRefs & Hlen & Hfiles).
    exists (a :: pluginRefs). split; [simpl; by rewrite Hlen|].
    rewrite Hfiles, fmap_app, <- app_assoc. simpl.
    by rewrite (indexOne_file _ _ _ _ _ _ Hrun3).
Qed.

Lemma indexInline_files opts files_ :
  forall kvstore ret0 count0 gs ret_ count kvstore' gs',
    indexInline opts files_ kvstore ret0 count0 gs = (Returns (ret_, count, kvstore'), gs') ->
    exists pluginRefs,
      count = count0 + length pluginRefs
      /\ file <$> ret_ ≡ₚ (file <$> ret0) ++ files_ ++ pluginRefs.
Proof.
  induction files_ as [|f files_ IH];
    intros kvstore ret0 count0 gs ret_ count kvstore' gs' Hrun; simpl in Hrun.
  - injection Hrun as <- <- _ _. exists []. simpl. by rewrite Nat.add_0_r, app_nil_r.
  - inv_bind Hrun. inv_bind Hrun. destruct a0 as [parsedFile pluginFiles].
    inv_bind Hrun. inv_bind Hrun.
    apply indexInlinePluginFiles_files in Hrun2 as (refs1 & Hlen1 & Hfiles1).
    apply IH in Hrun as (refs2 & Hcount & Hfiles).
    exists (refs1 ++ refs2). split; [rewrite length_app; lia|].
    rewrite Hfiles, Hfiles1, fmap_app. simpl.
    rewrite (indexOneWithPlugins_file _ _ _ _ _ _ Hrun1 : file parsedFile = f).
    rewrite <- !app_assoc. f_equiv. simpl. f_equiv.
    rewrite !app_assoc. f_equiv. apply Permutation_app_comm.
Qed.

(** What [index] returns before the sort: one tree per input file and
    one per plugin-generated file. *)
Lemma indexUnsorted_files sched sched' files_ opts kvstore gs ret_ count kvstore' gs' :
  stopAfterPhase opts <> Phase.INIT ->
  indexUnsorted sched sched' files_ opts kvstore gs = (Returns (ret_, count, kvstore'), gs') ->
  exists pluginRefs,
    length pluginRefs = count /\ file <$> ret_ ≡ₚ files_ ++ pluginRefs.
Proof.
  intros Hphase. unfold indexUnsorted, Phase.eqb. rewrite bool_decide_eq_false_2 by done.
  intros Hrun. inv_bind Hrun.
  destruct (length files_ <? 3).
  - inv_bind Hrun. destruct a0 as [[ret0 count0] kvstore0]. inv_bind Hrun.
    injection Hrun as <- <- _ _.
    apply indexInline_files in Hrun1 as (pluginRefs & -> & Hfiles).
    exists pluginRefs. split; [done|]. by rewrite Hfiles.
  - destruct (indexSuppliedFiles _ _ _ _ _) as [[firstPass kvstore1]|] eqn:Hfirst; [|discriminate].
    destruct (indexPluginFiles _ _ _ _) as [[pluginPass kvstore2]|] eqn:Hplugin; [|discriminate].
    destruct (ir_gs pluginPass) as [gsFinal|] eqn:Hgs; [|discriminate].
    injection Hrun as <- <- _ _.
    apply indexPluginFiles_files in Hplugin as (pluginRefs & Hlen & Hfiles); [|by rewrite Hgs].
    apply indexSuppliedFiles_files in Hfirst.
    exists pluginRefs. split; [done|]. by rewrite Hfiles, Hfirst.
Qed.

#[local] Instance ParsedFile_le_trans : Transitive ParsedFile_le.
Proof. intros a b c. unfold ParsedFile_le. lia. Qed.

#[local] Instance ParsedFile_le_total : Total ParsedFile_le.
Proof. intros a b. unfold ParsedFile_le. lia. Qed.

Lemma fast_sort_sorted trees : sortedByFile (fast_sort trees).
Proof. apply StronglySorted_merge_sort; apply _. Qed.

Lemma fast_sort_Permutation trees : fast_sort trees ≡ₚ trees.
Proof. apply merge_sort_Permutation. Qed.

Lemma index_returns_inv sched sched' files_ opts kvstore gs ret_ kvstore' gs' :
  index sched sched' files_ opts kvstore gs = (Returns (ret_, kvstore'), gs') ->
  exists unsorted count,
    indexUnsorted sched sched' files_ opts kvstore gs = (Returns (unsorted, count, kvstore'), gs')
    /\ ret_ = fast_sort unsorted.
Proof.
  unfold index. intros Hrun. inv_bind Hrun. destruct a as [[unsorted count] kvstore1].
  injection Hrun as <- <- <-. eauto.
Qed.

(** C9: the vector that [index] returns is in ascending [FileRef]
    order, on the inline path and on the worker-pool path, for every way
    the pool hands out the files and every order in which the coordinator
    merges the packs. *)
Theorem index_sorted_by_FileRef sched sched' files_ opts kvstore gs ret_ kvstore' gs' :
  index sched sched' files_ opts kvstore gs = (Returns (ret_, kvstore'), gs') ->
  sortedByFile ret_.
Proof.
  intros Hrun. apply index_returns_inv in Hrun as (unsorted & count & _ & ->).
  apply fast_sort_sorted.
Qed.

(** The order of the merge does not show in the result: two runs that
    return trees for the same files return them in the same file order. *)
Lemma sorted_files_unique (l1 l2 : list ParsedFile) :
  sortedByFile l1 -> sortedByFile l2 -> file <$> l1 ≡ₚ file <$> l2 ->
  file <$> l1 = file <$> l2.
Proof.
  intros H1 H2 Hperm.
  assert (Hs : forall l, sortedByFile l -> StronglySorted le (file <$> l)).
  { induction 1 as [|a l Hl IH Ha]; simpl; constructor; [done|].
    apply Forall_fmap. eapply Forall_impl; [exact Ha|]. done. }
  apply (StronglySorted_unique le); auto.
Qed.

Section FileCount.

Lemma keepsFileCount_run {A} (m : M A) gs r gs' :
  keepsFileCount m -> m gs = (r, gs') -> length (files gs') = length (files gs).
Proof. intros Hm Hrun. specialize (Hm gs). by rewrite Hrun in Hm. Qed.

Lemma keepsFileCount_ret {A} (a : A) : keepsFileCount (ret a).
Proof. done. Qed.

Lemma keepsFileCount_raise {A} : keepsFileCount (@raise A).
Proof. done. Qed.

Lemma keepsFileCount_get : keepsFileCount get.
Proof. done. Qed.

Lemma keepsFileCount_bind {A C} (m : M A) (k : A -> M C) :
  keepsFileCount m -> (forall a, keepsFileCount (k a)) -> keepsFileCount (bind m k).
Proof.
  intros Hm Hk gs. unfold bind. specialize (Hm gs).
  destruct (m gs) as [[a|] gs1]; simpl in *; [|done]. by rewrite Hk.
Qed.

Lemma keepsFileCount_try_catch {A} (m h : M A) :
  keepsFileCount m -> keepsFileCount h -> keepsFileCount (try_catch m h).
Proof.
  intros Hm Hh gs. unfold try_catch. specialize (Hm gs).
  destruct (m gs) as [[a|] gs1]; simpl in *; [done|]. by rewrite Hh.
Qed.

Lemma keepsFileCount_if {A} (b : bool) (m1 m2 : M A) :
  keepsFileCount m1 -> keepsFileCount m2 -> keepsFileCount (if b then m1 else m2).
Proof. by destruct b. Qed.

Lemma keepsFileCount_ENFORCE c : keepsFileCount (ENFORCE c).
Proof. intros gs. by rewrite ENFORCE_state. Qed.

Lemma keepsFileCount_beginError l what header : keepsFileCount (beginError l what header).
Proof. done. Qed.

Lemma keepsFileCount_updFile f g : keepsFileCount (updFile f g).
Proof. intros gs. unfold updFile, modify. simpl. apply length_alter. Qed.

Lemma keepsFileCount_enterNewFileAt f id : keepsFileCount (enterNewFileAt f id).
Proof. intros gs. unfold enterNewFileAt, bind, modify, ret. simpl. apply length_insert. Qed.

Ltac keeps_files_step :=
  first
    [ apply keepsFileCount_ret
    | apply keepsFileCount_raise
    | apply keepsFileCount_get
    | apply keepsFileCount_ENFORCE
    | apply keepsFileCount_beginError
    | apply keepsFileCount_updFile
    | apply keepsFileCount_enterNewFileAt
    | assumption
    | apply keepsFileCount_bind; [|intros ?]
    | apply keepsFileCount_try_catch
    | apply keepsFileCount_if
    | lazymatch goal with
      | |- keepsFileCount (match ?x with Some _ => _ | None => _ end) => destruct x
      | |- keepsFileCount (match ?x with (_, _) => _ end) => destruct x
      | |- keepsFileCount (whenM ?b _) => unfold whenM
      end ].

Ltac keeps_files := repeat keeps_files_step.

Lemma keepsFileCount_decideStrictLevel file opts : keepsFileCount (decideStrictLevel file opts).
Proof. intros gs. rewrite decideStrictLevel_run. by repeat case_match. Qed.

Lemma keepsFileCount_incrementStrictLevelCounter level :
  keepsFileCount (incrementStrictLevelCounter level).
Proof. by destruct level. Qed.

Lemma keepsFileCount_readFile file opts :
  keepsFileCount (readFileWithStrictnessOverrides file opts).
Proof.
  unfold readFileWithStrictnessOverrides.
  apply keepsFileCount_bind; [apply keepsFileCount_get|]. intros gs0.
  apply keepsFileCount_if; [apply keepsFileCount_ret|].
  destruct (fs_readFile opts _);
    keeps_files;
    first [apply keepsFileCount_decideStrictLevel | apply keepsFileCount_incrementStrictLevelCounter].
Qed.

Context (Hkeep : phasesKeepFiles).

Lemma keepsFileCount_fetchTreeFromCache file kvstore :
  keepsFileCount (fetchTreeFromCache file kvstore).
Proof.
  destruct Hkeep as (_ & _ & _ & _ & _ & Hload & _).
  unfold fetchTreeFromCache.
  apply keepsFileCount_bind; [apply keepsFileCount_get|]. intros gs0.
  destruct kvstore as [store|]; [|apply keepsFileCount_ret].
  apply keepsFileCount_if; [|apply keepsFileCount_ret].
  destruct (store !! _); [|apply keepsFileCount_ret].
  keeps_files. apply Hload.
Qed.

Lemma keepsFileCount_indexOneWithPlugins opts file kvstore :
  keepsFileCount (indexOneWithPlugins opts file kvstore).
Proof.
  destruct Hkeep as (Hparse & Hdesugar & Hplugin & Hdsl & Hlocal & _).
  unfold indexOneWithPlugins, indexOneWithPluginsTry, runParser, runDesugar, runDSL,
    runLocalVars.
  pose proof (keepsFileCount_fetchTreeFromCache file kvstore).
  keeps_files; first [apply Hparse | apply Hdesugar | apply Hplugin | apply Hdsl | apply Hlocal].
Qed.

Lemma keepsFileCount_indexOne opts file kvstore :
  keepsFileCount (indexOne opts file kvstore).
Proof.
  destruct Hkeep as (Hparse & Hdesugar & Hplugin & Hdsl & Hlocal & _).
  unfold indexOne, indexOneEnforce, indexOneTry, runParser, runDesugar, runDSL, runLocalVars.
  pose proof (keepsFileCount_fetchTreeFromCache file kvstore).
  pose proof (keepsFileCount_decideStrictLevel file opts).
  keeps_files; first [apply Hparse | apply Hdesugar | apply Hdsl | apply Hlocal].
Qed.

Lemma keepsFileCount_indexSuppliedFilesWorkerLoop opts kv jobs :
  forall trees pluginFiles,
    keepsFileCount (indexSuppliedFilesWorkerLoop opts kv jobs trees pluginFiles).
Proof.
  induction jobs as [|job jobs IH]; intros trees pluginFiles; simpl; [apply keepsFileCount_ret|].
  apply keepsFileCount_bind; [apply keepsFileCount_readFile|]. intros _.
  apply keepsFileCount_bind; [apply keepsFileCount_indexOneWithPlugins|].
  intros [parsedFile pluginFiles0]. apply IH.
Qed.

Lemma keepsFileCount_indexPluginFilesWorkerLoop opts kv jobs :
  forall trees, keepsFileCount (indexPluginFilesWorkerLoop opts kv jobs trees).
Proof.
  induction jobs as [|job jobs IH]; intros trees; simpl; [apply keepsFileCount_ret|].
  apply keepsFileCount_bind; [apply keepsFileCount_decideStrictLevel|]. intros level.
  apply keepsFileCount_bind; [apply keepsFileCount_updFile|]. intros _.
  apply keepsFileCount_bind; [apply keepsFileCount_indexOne|]. intros parsedFile. apply IH.
Qed.

Lemma keepsFileCount_substituteTrees onlyUncached substitution trees :
  keepsFileCount (substituteTrees onlyUncached substitution trees).
Proof.
  destruct Hkeep as (_ & _ & _ & _ & _ & _ & _ & _ & Hsubst & _).
  induction trees as [|t trees IH]; simpl; [apply keepsFileCount_ret|].
  apply keepsFileCount_bind; [apply keepsFileCount_get|]. intros gs0.
  apply keepsFileCount_bind.
  - apply keepsFileCount_if; [apply keepsFileCount_ret|].
    apply keepsFileCount_bind; [apply Hsubst|]. intros t'. apply keepsFileCount_ret.
  - intros tree'. apply keepsFileCount_bind; [apply IH|]. intros rest'. apply keepsFileCount_ret.
Qed.

Lemma keepsFileCount_substitution from to onlyUncached trees :
  keepsFileCount (bind (GlobalSubstitution_new from to)
                       (fun substitution => substituteTrees onlyUncached substitution trees)).
Proof.
  apply keepsFileCount_bind; [apply Hkeep|]. intros substitution.
  apply keepsFileCount_substituteTrees.
Qed.

(** The states of the packs have as many files as the base state. *)
Lemma multiplexJob_fileCount job baseGs :
  (forall jobs, keepsFileCount (job jobs)) ->
  forall jobsOf results,
    multiplexJob job baseGs jobsOf = Returns results ->
    Forall (fun r => length (files (res_gs r)) = length (files baseGs)) results.
Proof.
  destruct Hkeep as (_ & _ & _ & _ & _ & _ & _ & _ & _ & Hcopy).
  intros Hjob. induction jobsOf as [|jobs jobsOf IH]; intros results Hrun; simpl in Hrun.
  - injection Hrun as <-. constructor.
  - destruct (runThread job baseGs jobs) as [r|] eqn:Hthread; [|discriminate].
    destruct (multiplexJob job baseGs jobsOf) as [rs|]; [|discriminate].
    injection Hrun as <-. apply Forall_app. split; [|by apply IH].
    unfold runThread in Hthread.
    destruct (job jobs (deepCopy baseGs)) as [[[trees pluginFiles]|] localGs] eqn:Hj;
      [|discriminate].
    apply (keepsFileCount_run _ _ _ _ (Hjob jobs)) in Hj. rewrite Hcopy in Hj.
    injection Hthread as <-. destruct (length trees =? 0); simpl; [constructor|].
    by repeat constructor.
Qed.

Lemma mergeIndexResultsLoop_fileCount cgs input c :
  Forall (fun r => length (files (res_gs r)) = c) input ->
  forall ret0 kvstore ret_ kvstore',
    (forall g, ir_gs ret0 = Some g -> length (files g) = c) ->
    mergeIndexResultsLoop cgs input ret0 kvstore = Returns (ret_, kvstore') ->
    forall g, ir_gs ret_ = Some g -> length (files g) = c.
Proof.
  induction 1 as [|threadResult input Hfirst _ IH]; intros ret0 kvstore ret_ kvstore' Hret0 Hrun;
    cbn [mergeIndexResultsLoop] in Hrun.
  - by injection Hrun as <- _.
  - destruct (ir_gs ret0) as [retGs|] eqn:Hgs.
    + destruct (bind _ _ retGs) as [[trees|] retGs'] eqn:Hsubst; [|discriminate].
      apply (keepsFileCount_run _ _ _ _ (keepsFileCount_substitution _ _ _ _)) in Hsubst.
      eapply IH; [|exact Hrun]. simpl. intros g [= <-]. rewrite Hsubst. by apply Hret0.
    + destruct (debug_mode && _); [discriminate|].
      eapply IH; [|exact Hrun]. simpl. by intros g [= <-].
Qed.

Lemma mergeIndexResults_fileCount cgs sched results kvstore ret_ kvstore' c :
  Forall (fun r => length (files (res_gs r)) = c) results ->
  mergeIndexResults cgs sched results kvstore = Returns (ret_, kvstore') ->
  forall g, ir_gs ret_ = Some g -> length (files g) = c.
Proof.
  intros Hresults. unfold mergeIndexResults.
  apply mergeIndexResultsLoop_fileCount; [|done].
  by rewrite (arrivalOrder_Permutation sched results (length results) 0 eq_refl).
Qed.

Lemma indexSuppliedFiles_fileCount sched baseGs files_ opts kvstore firstPass kvstore' :
  indexSuppliedFiles sched baseGs files_ opts kvstore = Returns (firstPass, kvstore') ->
  forall g, ir_gs firstPass = Some g -> length (files g) = length (files baseGs).
Proof.
  unfold indexSuppliedFiles. intros Hrun.
  destruct (multiplexJob _ _ _) as [results|] eqn:Hjobs; [|discriminate].
  eapply mergeIndexResults_fileCount; [|exact Hrun].
  eapply multiplexJob_fileCount; [|exact Hjobs].
  intros jobs. apply keepsFileCount_indexSuppliedFilesWorkerLoop.
Qed.

(** The refs of the generated files: the slots appended to the file
    table. *)
Lemma enterPluginFiles_refs pluginFiles :
  forall gs refs gs',
    enterPluginFiles pluginFiles gs = (Returns refs, gs') ->
    refs = seq (length (files gs)) (length pluginFiles)
    /\ length (files gs') = length (files gs) + length pluginFiles.
Proof.
  induction pluginFiles as [|f pluginFiles IH]; intros gs refs gs' Hrun; simpl in Hrun.
  - injection Hrun as <- <-. simpl. split; [done|lia].
  - apply bind_returns_inv in Hrun as (generatedFile & gs1 & Henter & Hrun).
    apply bind_returns_inv in Hrun as (others & gs2 & Hothers & Hrun).
    injection Hrun as <- <-.
    unfold enterFile, bind, get, modify, ret in Henter. injection Henter as <- <-.
    apply IH in Hothers as [-> Hlen]. simpl in *. rewrite length_app in *. simpl in *.
    split; [|lia]. f_equal. f_equal. lia.
Qed.

Lemma indexPluginFiles_refs sched firstPass opts kvstore pluginPass kvstore' c :
  (forall g, ir_gs firstPass = Some g -> length (files g) = c) ->
  indexPluginFiles sched firstPass opts kvstore = Returns (pluginPass, kvstore') ->
  forall g,
    ir_gs pluginPass = Some g ->
    file <$> ir_trees pluginPass
    ≡ₚ (file <$> ir_trees firstPass) ++ seq c (length (ir_pluginGeneratedFiles firstPass))
    /\ length (files g) = c + length (ir_pluginGeneratedFiles firstPass).
Proof.
  unfold indexPluginFiles. intros Hfirst Hrun g Hg.
  destruct (Nat.eqb_spec (length (ir_pluginGeneratedFiles firstPass)) 0) as [Hlen|Hlen].
  { injection Hrun as <- _. rewrite Hlen. simpl. rewrite app_nil_r, Nat.add_0_r.
    split; [done|]. by apply Hfirst. }
  destruct (ir_gs firstPass) as [firstGs|]; [|discriminate].
  destruct (enterPluginFiles _ firstGs) as [[pluginFileq|] protoGs] eqn:Henter; [|discriminate].
  apply enterPluginFiles_refs in Henter as [-> Hproto].
  rewrite (Hfirst firstGs eq_refl) in *.
  destruct (multiplexJob _ _ _) as [results|] eqn:Hjobs; [|discriminate].
  destruct (mergeIndexResults _ _ _ _) as [[indexedPluginFiles kvstore1]|] eqn:Hmerge;
    [|discriminate].
  destruct (length (ir_trees indexedPluginFiles) =? 0).
  { injection Hrun as <- _. discriminate Hg. }
  destruct (ir_gs indexedPluginFiles) as [newGs|] eqn:HnewGs; [|discriminate].
  destruct (bind _ _ newGs) as [[trees|] newGs'] eqn:Hsubst; [|discriminate].
  injection Hrun as <- _. simpl in Hg. injection Hg as <-.
  pose proof (keepsFileCount_run _ _ _ _ (keepsFileCount_substitution _ _ _ _) Hsubst) as Hcount.
  apply bind_returns_inv in Hsubst as (substitution & gs1 & _ & Hsubst).
  apply substituteTrees_files in Hsubst.
  pose proof (multiplexJob_fileCount _ _
                (fun jobs => keepsFileCount_indexPluginFilesWorkerLoop opts _ jobs [])
                _ _ Hjobs) as Hpacks.
  pose proof (mergeIndexResults_fileCount _ _ _ _ _ _ _ Hpacks Hmerge newGs HnewGs) as HnewCount.
  apply mergeIndexResults_files in Hmerge as (Htrees & _ & _).
  apply multiplexJob_files in Hjobs.
  - split; [|lia]. simpl.
    by rewrite fmap_app, Hsubst, Htrees, Hjobs, jobsOfThreads_Permutation.
  - intros jobs gsw trees0 pluginFiles gsw' Hloop.
    apply indexPluginFilesWorkerLoop_files in Hloop as [Hloop _]. by rewrite Hloop.
Qed.

Lemma indexInlinePluginFiles_refs opts pluginFiles kvstore :
  forall ret0 gs ret_ gs',
    indexInlinePluginFiles opts pluginFiles kvstore ret0 gs = (Returns ret_, gs') ->
    file <$> ret_ = (file <$> ret0) ++ seq (length (files gs)) (length pluginFiles)
    /\ length (files gs') = length (files gs) + length pluginFiles.
Proof.
  induction pluginFiles as [|f pluginFiles IH]; intros ret0 gs ret_ gs' Hrun; simpl in Hrun.
  - injection Hrun as <- <-. simpl. rewrite app_nil_r. split; [done|lia].
  - apply bind_returns_inv in Hrun as (pluginFileRef & gs1 & Henter & Hrun).
    apply bind_returns_inv in Hrun as (level & gs2 & Hlevel & Hrun).
    apply bind_returns_inv in Hrun as ([] & gs3 & Hupd & Hrun).
    apply bind_returns_inv in Hrun as (parsed & gs4 & Hindex & Hrun).
    unfold enterFile, bind, get, modify, ret in Henter. injection Henter as <- <-.
    apply (keepsFileCount_run _ _ _ _ (keepsFileCount_decideStrictLevel _ _)) in Hlevel.
    apply (keepsFileCount_run _ _ _ _ (keepsFileCount_updFile _ _)) in Hupd.
    pose proof (indexOne_file _ _ _ _ _ _ Hindex) as Hfile.
    apply (keepsFileCount_run _ _ _ _ (keepsFileCount_indexOne _ _ _)) in Hindex.
    apply IH in Hrun as [-> Hlen].
    simpl in Hlevel. rewrite length_app in Hlevel. simpl in Hlevel.
    assert (Hcount : length (files gs4) = S (length (files gs))) by lia.
    simpl in Hfile. rewrite Hcount in Hlen |- *. cbn [length seq]. split; [|lia].
    rewrite fmap_app, <- app_assoc. simpl. by rewrite Hfile.
Qed.

Lemma indexInline_refs opts files_ :
  forall kvstore ret0 count0 gs ret_ count kvstore' gs',
    indexInline opts files_ kvstore ret0 count0 gs = (Returns (ret_, count, kvstore'), gs') ->
    exists n,
      count = count0 + n
      /\ length (files gs') = length (files gs) + n
      /\ file <$> ret_ ≡ₚ (file <$> ret0) ++ files_ ++ seq (length (files gs)) n.
Proof.
  induction files_ as [|f files_ IH];
    intros kvstore ret0 count0 gs ret_ count kvstore' gs' Hrun; simpl in Hrun.
  - injection Hrun as <- <- _ <-. exists 0. simpl. by rewrite !Nat.add_0_r, app_nil_r.
  - apply bind_returns_inv in Hrun as ([] & gs1 & Hread & Hrun).
    apply bind_returns_inv in Hrun as ([parsedFile pluginFiles] & gs2 & Hindex & Hrun).
    apply bind_returns_inv in Hrun as (ret1 & gs3 & Hplugins & Hrun).
    apply bind_returns_inv in Hrun as (gs3' & gs3'' & Hget & Hrun).
    injection Hget as <- <-.
    apply (keepsFileCount_run _ _ _ _ (keepsFileCount_readFile _ _)) in Hread.
    pose proof (indexOneWithPlugins_file _ _ _ _ _ _ Hindex : file parsedFile = f) as Hfile.
    apply (keepsFileCount_run _ _ _ _ (keepsFileCount_indexOneWithPlugins _ _ _)) in Hindex.
    apply indexInlinePluginFiles_refs in Hplugins as [Hfiles1 Hlen1].
    apply IH in Hrun as (n & -> & Hlen & Hfiles).
    exists (length pluginFiles + n). split; [lia|]. split; [lia|].
    rewrite Hfiles, Hfiles1, fmap_app, Hlen1, Hindex, Hread. simpl. rewrite Hfile.
    rewrite seq_app, <- !app_assoc. f_equiv. simpl. f_equiv.
    rewrite !app_assoc. f_equiv. apply Permutation_app_comm.
Qed.

(** What [index] returns before the sort, and the file table it
    leaves. *)
Lemma indexUnsorted_refs sched sched' files_ opts kvstore gs ret_ count kvstore' gs' :
  stopAfterPhase opts <> Phase.INIT ->
  indexUnsorted sched sched' files_ opts kvstore gs = (Returns (ret_, count, kvstore'), gs') ->
  length (files gs') = length (files gs) + count
  /\ file <$> ret_ ≡ₚ files_ ++ seq (length (files gs)) count.
Proof.
  intros Hphase. unfold indexUnsorted, Phase.eqb. rewrite bool_decide_eq_false_2 by done.
  intros Hrun. apply bind_returns_inv in Hrun as ([] & gsS & Hcheck & Hrun).
  assert (HS : length (files gsS) = length (files gs)).
  { eapply keepsFileCount_run; [|exact Hcheck]. apply Hkeep. }
  destruct (length files_ <? 3).
  - apply bind_returns_inv in Hrun as ([[ret0 count0] kvstore0] & gs1 & Hinline & Hrun).
    apply bind_returns_inv in Hrun as ([] & gs2 & Henforce & Hrun).
    injection Hrun as <- <- _ <-.
    apply (keepsFileCount_run _ _ _ _ (keepsFileCount_ENFORCE _)) in Henforce.
    apply indexInline_refs in Hinline as (n & -> & Hlen & Hfiles).
    simpl in Hfiles. rewrite HS in *. split; [lia|done].
  - destruct (indexSuppliedFiles _ _ _ _ _) as [[firstPass kvstore1]|] eqn:Hfirst; [|discriminate].
    destruct (indexPluginFiles _ _ _ _) as [[pluginPass kvstore2]|] eqn:Hplugin; [|discriminate].
    destruct (ir_gs pluginPass) as [gsFinal|] eqn:Hgs; [|discriminate].
    injection Hrun as <- <- _ <-.
    pose proof (indexSuppliedFiles_fileCount _ _ _ _ _ _ _ Hfirst) as Hcount.
    eapply indexPluginFiles_refs in Hplugin as [Hfiles Hlen]; [|exact Hcount|exact Hgs].
    apply indexSuppliedFiles_files in Hfirst.
    rewrite HS in *. split; [done|]. by rewrite Hfiles, Hfirst.
Qed.
End FileCount.

(** C10, counterexample: with [stopAfterPhase] set to [INIT], [index]
    returns the empty vector for one input file. *)
Lemma index_stop_after_init_returns_nothing :
  ~ (forall ret_ kvstore' gs',
        @index Sample.debugBuild Sample.phases Sample.twoThreads Sample.twoThreads [1]
               Sample.optsStopInit None Sample.gsReserved = (Returns (ret_, kvstore'), gs') ->
        oneTreePerFile [1] ret_).
Proof.
  intros Hspec. destruct (Hspec [] None Sample.gsReserved eq_refl) as [pluginRefs Hperm].
  simpl in Hperm. by apply Permutation_nil_cons in Hperm.
Qed.

(** C10 (amended): with [stopAfterPhase] at [INIT], [index] returns the
    empty vector and leaves the state as it is.  Otherwise the vector
    that [index] returns holds exactly one parsed file per input
    [FileRef] and exactly one per plugin-generated file, on both paths:
    its length is the number of input files plus the number of generated
    files, and its files are the input files and as many further refs, up
    to order; no input file is dropped, whether it was missing on disk,
    ignored, stopped by [stopAfterPhase] or hit by an exception.  When
    the phases leave the file table alone, the further refs are exactly
    the slots that were appended to the file table for the generated
    files, each once. *)
Theorem index_one_tree_per_file sched sched' files_ opts kvstore gs :
  (stopAfterPhase opts = Phase.INIT ->
   index sched sched' files_ opts kvstore gs = (Returns ([], kvstore), gs))
  /\ (stopAfterPhase opts <> Phase.INIT ->
      forall ret_ kvstore' gs',
        index sched sched' files_ opts kvstore gs = (Returns (ret_, kvstore'), gs') ->
        exists unsorted pluginFileCount,
          indexUnsorted sched sched' files_ opts kvstore gs
          = (Returns (unsorted, pluginFileCount, kvstore'), gs')
          /\ ret_ ≡ₚ unsorted
          /\ length ret_ = length files_ + pluginFileCount
          /\ (exists pluginRefs,
                length pluginRefs = pluginFileCount
                /\ file <$> ret_ ≡ₚ files_ ++ pluginRefs)
          /\ (phasesKeepFiles ->
              length (files gs') = length (files gs) + pluginFileCount
              /\ file <$> ret_ ≡ₚ files_ ++ seq (length (files gs)) pluginFileCount)).
Proof.
  split.
  - intros Hinit. unfold index, indexUnsorted, Phase.eqb.
    by rewrite bool_decide_eq_true_2.
  - intros Hphase ret_ kvstore' gs' Hrun.
    apply index_returns_inv in Hrun as (unsorted & count & Hrun & ->).
    destruct (indexUnsorted_files _ _ _ _ _ _ _ _ _ _ Hphase Hrun)
      as (pluginRefs & Hlen & Hfiles).
    assert (Hsorted : file <$> fast_sort unsorted ≡ₚ files_ ++ pluginRefs)
      by (by rewrite fast_sort_Permutation).
    exists unsorted, count.
    split; [done|]. split; [apply fast_sort_Permutation|]. split_and!.
    + apply Permutation_length in Hsorted. rewrite length_fmap, length_app in Hsorted. lia.
    + by exists pluginRefs.
    + intros Hkeep.
      destruct (indexUnsorted_refs Hkeep _ _ _ _ _ _ _ _ _ _ Hphase Hrun) as [Hcount Hrefs].
      split; [done|]. by rewrite fast_sort_Permutation.
Qed.

(** On the inline path the [ENFORCE] that counts the trees holds. *)
Lemma indexInline_count opts files_ kvstore gs ret_ count kvstore' gs' :
  indexInline opts files_ kvstore [] 0 gs = (Returns (ret_, count, kvstore'), gs') ->
  length files_ + count = length ret_.
Proof.
  intros Hrun. apply indexInline_files in Hrun as (pluginRefs & -> & Hfiles).
  apply Permutation_length in Hfiles. rewrite length_fmap in Hfiles.
  simpl in Hfiles. rewrite length_app in Hfiles. lia.
Qed.
End Coordinator.

Lemma index_sorted_by_FileRef_witness :
  exists ret_ kvstore' gs',
    @pipeline.index Sample.debugBuild Sample.phases Sample.twoThreads Sample.twoThreads [3; 1; 2]
                    Sample.optsPlain None Sample.gsReserved = (Returns (ret_, kvstore'), gs')
    /\ file <$> ret_ = [1; 2; 3; 4]
    /\ Spec.sortedByFile ret_.
Proof.
  eexists _, _, _. split; [vm_compute; reflexivity|]. split; [reflexivity|].
  eapply (@index_sorted_by_FileRef Sample.debugBuild Sample.phases Sample.twoThreads
            Sample.twoThreads [3; 1; 2] Sample.optsPlain None Sample.gsReserved).
  vm_compute. reflexivity.
Defined.

(** The inline path, with two files given out of order. *)
Example index_inline_sorted :
  file <$> default [] (match fst (@pipeline.index Sample.debugBuild Sample.phases Sample.twoThreads
                                    Sample.twoThreads [3; 1] Sample.optsPlain None
                                    Sample.gsReserved) with
                       | Returns (ret_, _) => Some ret_
                       | Throws => None
                       end) = [1; 3; 4].
Proof. vm_compute. reflexivity. Qed.

Lemma index_one_tree_per_file_witness :
  stopAfterPhase Sample.optsPlain <> Phase.INIT
  /\ @Spec.phasesKeepFiles Sample.phases
  /\ exists ret_ kvstore' gs',
      @pipeline.index Sample.debugBuild Sample.phases Sample.twoThreads Sample.twoThreads [3; 1; 2]
                      Sample.optsPlain None Sample.gsReserved = (Returns (ret_, kvstore'), gs')
      /\ length ret_ = 4
      /\ file <$> ret_ ≡ₚ [3; 1; 2] ++ seq (length (files Sample.gsReserved)) 1.
Proof.
  assert (Hkeep : @Spec.phasesKeepFiles Sample.phases).
  { unfold Spec.phasesKeepFiles, Spec.keepsFileCount. split_and!; try (intros; reflexivity).
    intros file gs. simpl. by destruct (file =? 2). }
  split; [discriminate|]. split; [exact Hkeep|].
  eexists _, _, _. split; [vm_compute; reflexivity|]. split; [reflexivity|].
  edestruct (proj2 (@index_one_tree_per_file Sample.debugBuild Sample.phases Sample.twoThreads
                      Sample.twoThreads [3; 1; 2] Sample.optsPlain None Sample.gsReserved))
    as (unsorted & count & Hrun & _ & _ & _ & Hexact);
    [discriminate | vm_compute; reflexivity |].
  assert (count = 1) as -> by (vm_compute in Hrun; injection Hrun; intros; congruence).
  exact (proj2 (Hexact Hkeep)).
Defined.

(** A file that is missing on disk still yields its entry, and the
    [FileNotFound] diagnostic. *)
Example index_missing_file :
  @pipeline.index Sample.debugBuild Sample.phases Sample.twoThreads Sample.twoThreads [1]
                  Sample.optsMaxTrue None Sample.gsReserved
  = (Returns ([mkParsedFile (Literal (mkLoc 1 (Some (0, 1))) "1") 1], None),
     withErrors [mkError (Loc_none 1) errors.Internal.FileNotFound "File Not Found"]
       (withFiles [Sample.file0; mkFile "a.rb" "" Normal StrictLevel.None_ StrictLevel.False_ false;
                   Sample.reserved "b.rb"; Sample.reserved "c.rb"] Sample.gsReserved)).
Proof. vm_compute. reflexivity. Qed.

(** *** The symbol table *)

Section SymbolTable.
Import Spec.
Context `{B : Build} `{C : NamerCollaborators}.

Lemma enterName_run n gs :
  exists name gs',
    enterName n gs = (Returns name, gs')
    /\ symbols gs' = symbols gs /\ errors_ gs' = errors_ gs /\ files gs' = files gs
    /\ (exists more, names gs' = names gs ++ more)
    /\ (exists stored, names gs' !! _id name = Some stored /\ Name_same n stored = true).
Proof.
  unfold enterName.
  destruct (list_find _ (names gs)) as [[i stored]|] eqn:Hfind.
  - apply list_find_Some in Hfind as (Hi & Hsame & _).
    eexists _, _. split; [reflexivity|]. repeat split; try done.
    + exists []. by rewrite app_nil_r.
    + exists stored. by split.
  - eexists _, _. split; [reflexivity|]. repeat split; try done.
    + by eexists.
    + exists n. simpl. split; [by rewrite lookup_app_r, Nat.sub_diag|].
      destruct n as [s|k num o|o]; simpl; unfold NameRef_eqb;
        rewrite ?bool_decide_eq_true_2, ?Nat.eqb_refl; done.
Qed.

Lemma updSymbol_run s f gs d :
  symbols gs !! s = Some d ->
  updSymbol s f gs = (Returns tt, withSymbols (alter f s (symbols gs)) gs).
Proof. intros Hd. unfold updSymbol, bind, symData, modify. by rewrite Hd. Qed.

Lemma symData_run s gs d : symbols gs !! s = Some d -> symData s gs = (Returns d, gs).
Proof. intros Hd. unfold symData. by rewrite Hd. Qed.

Lemma singletonClass_run gs k fk fs :
  classAndSingleton gs k fk fs ->
  exists s gs',
    singletonClass k gs = (Returns s, gs')
    /\ errors_ gs' = errors_ gs
    /\ classAndSingleton gs' k fk fs
    /\ (exists d, symbols gs' !! k = Some d /\ sym_members d !! _id Names.singleton = Some s).
Proof.
  intros (d & Hd & Hfk & Hs). unfold singletonClass, bind. rewrite (symData_run _ _ _ Hd).
  destruct (sym_members d !! _id Names.singleton) as [s|] eqn:Hmem.
  - exists s, gs. split; [done|]. split; [done|]. split.
    + exists d. by rewrite Hmem.
    + exists d. by split.
  - destruct (enterName_run (UNIQUE Singleton 1 (sym_name d)) gs)
      as (name & gs1 & Hname & Hsyms & Herrs & _ & _ & _).
    unfold freshNameUnique. rewrite Hname. simpl. unfold modify. simpl.
    assert (Hk : k < length (symbols gs)) by (by eapply lookup_lt_Some).
    eexists _, _. split; [reflexivity|]. simpl. rewrite !Hsyms. split; [done|].
    set (d' := set_members (<[_id Names.singleton := length (symbols gs)]> (sym_members d)) d).
    assert (Hd' : (alter (fun o => set_members
                      (<[_id Names.singleton := length (symbols gs)]> (sym_members o)) o)
                     k (symbols gs) ++
                   [mkSymbol k name KClass (sym_locs d) [] {[_id Names.attached := k]} false NoType
                             freshSingletonFlags]) !! k = Some d').
    { rewrite lookup_app_l by (rewrite length_alter; lia).
      by rewrite list_lookup_alter_eq, Hd. }
    split.
    + exists d'. split; [done|]. split; [done|].
      subst d'. simpl. rewrite lookup_insert_eq. split; [lia|].
      subst fs. eexists. split.
      * rewrite lookup_app_r by (by rewrite length_alter).
        rewrite length_alter, Nat.sub_diag. reflexivity.
      * reflexivity.
    + exists d'. split; [done|]. subst d'. simpl. by rewrite lookup_insert_eq.
Qed.

Lemma updSymbol_class F G gs k fk fs :
  (forall d, sym_flags (F d) = G (sym_flags d)) ->
  (forall d, sym_members (F d) = sym_members d) ->
  classAndSingleton gs k fk fs ->
  exists gs',
    updSymbol k F gs = (Returns tt, gs')
    /\ errors_ gs' = errors_ gs
    /\ classAndSingleton gs' k (G fk) fs
    /\ (hasSingleton gs k -> hasSingleton gs' k).
Proof.
  intros HF HFm (d & Hd & Hfk & Hs).
  rewrite (updSymbol_run _ _ _ _ Hd). eexists. split; [reflexivity|]. split; [done|].
  assert (Hk : symbols (withSymbols (alter F k (symbols gs)) gs) !! k = Some (F d))
    by (simpl; by rewrite list_lookup_alter_eq, Hd).
  split.
  - exists (F d). split; [done|]. split; [by rewrite HF, Hfk|].
    rewrite HFm. destruct (sym_members d !! _id Names.singleton) as [s|]; [|done].
    destruct Hs as (Hne & ds & Hds & Hfs). split; [done|]. exists ds. split; [|done].
    simpl. by rewrite list_lookup_alter_ne.
  - intros (d0 & s & Hd0 & Hs0). exists (F d), s. split; [done|].
    rewrite HFm. congruence.
Qed.

Lemma updSymbol_singleton F G gs k s fk fs :
  (forall d, sym_flags (F d) = G (sym_flags d)) ->
  classAndSingleton gs k fk fs ->
  (exists d, symbols gs !! k = Some d /\ sym_members d !! _id Names.singleton = Some s) ->
  exists gs',
    updSymbol s F gs = (Returns tt, gs')
    /\ errors_ gs' = errors_ gs
    /\ classAndSingleton gs' k fk (G fs)
    /\ hasSingleton gs' k.
Proof.
  intros HF (d & Hd & Hfk & Hs) (d0 & Hd0 & Hs0).
  assert (d0 = d) as -> by congruence. rewrite Hs0 in Hs.
  destruct Hs as (Hne & ds & Hds & Hfs).
  rewrite (updSymbol_run _ _ _ _ Hds). eexists. split; [reflexivity|]. split; [done|].
  assert (Hk : symbols (withSymbols (alter F s (symbols gs)) gs) !! k = Some d)
    by (simpl; by rewrite list_lookup_alter_ne).
  split.
  - exists d. split; [done|]. split; [done|]. rewrite Hs0. split; [done|].
    exists (F ds). split; [simpl; by rewrite list_lookup_alter_eq, Hds|].
    by rewrite HF, Hfs.
  - by exists d, s.
Qed.

(** Setting a flag on the class and on its singleton, as the first two
    blocks of [handleNamerDSL] do. *)
Lemma flagClassAndSingleton_run F G gs k fk fs :
  (forall d, sym_flags (F d) = G (sym_flags d)) ->
  (forall d, sym_members (F d) = sym_members d) ->
  classAndSingleton gs k fk fs ->
  exists gs',
    (updSymbol k F;; s <- singletonClass k;; updSymbol s F) gs = (Returns tt, gs')
    /\ errors_ gs' = errors_ gs
    /\ classAndSingleton gs' k (G fk) (G fs)
    /\ hasSingleton gs' k.
Proof.
  intros HF HFm Hcs.
  destruct (updSymbol_class F G gs k fk fs HF HFm Hcs) as (gs1 & Hrun1 & Herr1 & Hcs1 & _).
  destruct (singletonClass_run gs1 k (G fk) fs Hcs1) as (s & gs2 & Hrun2 & Herr2 & Hcs2 & Hs2).
  destruct (updSymbol_singleton F G gs2 k s (G fk) fs HF Hcs2 Hs2)
    as (gs3 & Hrun3 & Herr3 & Hcs3 & Hhas3).
  exists gs3. unfold bind. rewrite Hrun1, Hrun2, Hrun3.
  split; [done|]. split; [congruence|]. done.
Qed.

Lemma addAncestor_other klass loc recv fun_ args block gs :
  NameRef_eqb fun_ Names.include = false ->
  NameRef_eqb fun_ Names.extend = false ->
  NameInserter.addAncestor klass (Send loc recv fun_ args block) gs = (Returns (false, klass), gs).
Proof. intros Hi He. unfold NameInserter.addAncestor. by rewrite Hi, He. Qed.

Lemma emitted_same gs gs' : errors_ gs' = errors_ gs -> emitted gs gs' = [].
Proof. intros Heq. unfold emitted. rewrite Heq. apply drop_all. Qed.

(** C8 (amended): for a class-body statement that is a call of [final!],
    [abstract!] or [interface!], [handleNamerDSL] keeps the statement and
    - [final!] sets the final flag on the class symbol and on its
      singleton class;
    - [abstract!] sets the abstract flag on both;
    - [interface!] sets the abstract flag on both and the interface flag
      on the class symbol only: the singleton's interface flag is left as
      it was; in a [class] (not a [module]) it also emits one
      [InterfaceClass] diagnostic;
    no other diagnostic is emitted. *)
Theorem handleNamerDSL_flags gs klass loc recv fun_ args block fk fs :
  classAndSingleton gs (cd_symbol klass) fk fs ->
  NameRef_eqb fun_ Names.declareFinal
  || NameRef_eqb fun_ Names.declareAbstract
  || NameRef_eqb fun_ Names.declareInterface = true ->
  exists gs' fk' fs',
    NameInserter.handleNamerDSL klass (Send loc recv fun_ args block) gs
    = (Returns (false, klass), gs')
    /\ hasSingleton gs' (cd_symbol klass)
    /\ classAndSingleton gs' (cd_symbol klass) fk' fs'
    /\ (NameRef_eqb fun_ Names.declareFinal = true ->
        isClassFinal fk' = true /\ isClassFinal fs' = true)
    /\ (NameRef_eqb fun_ Names.declareAbstract = true ->
        isClassAbstract fk' = true /\ isClassAbstract fs' = true)
    /\ (NameRef_eqb fun_ Names.declareInterface = true ->
        isClassAbstract fk' = true /\ isClassAbstract fs' = true
        /\ isClassInterface fk' = true /\ isClassInterface fs' = isClassInterface fs)
    /\ emitted gs gs' =
       (if NameRef_eqb fun_ Names.declareInterface
           && match cd_kind klass with Class_ => true | Module_ => false end
        then [interfaceClassError loc] else []).
Proof.
  intros Hcs Hfun. unfold NameInserter.handleNamerDSL. unfold bind at 1.
  assert (Hcases : _id fun_ = 5 \/ _id fun_ = 6 \/ _id fun_ = 7).
  { unfold NameRef_eqb in Hfun. simpl in Hfun.
    destruct (Nat.eqb_spec (_id fun_) 5), (Nat.eqb_spec (_id fun_) 6),
      (Nat.eqb_spec (_id fun_) 7); auto; discriminate. }
  rewrite addAncestor_other
    by (unfold NameRef_eqb; simpl; apply Nat.eqb_neq; lia).
  unfold NameRef_eqb. simpl.
  destruct Hcases as [Hid|[Hid|Hid]]; rewrite Hid; simpl.
  - (* final! *)
    destruct (flagClassAndSingleton_run Symbol_setClassFinal withClassFinal gs (cd_symbol klass)
                fk fs (fun _ => eq_refl) (fun _ => eq_refl) Hcs)
      as (gs' & Hrun & Herr & Hcs' & Hhas).
    exists gs', (withClassFinal fk), (withClassFinal fs).
    unfold bind at 1. rewrite Hrun. simpl.
    split_and!; try done. by apply emitted_same.
  - (* abstract! *)
    destruct (flagClassAndSingleton_run Symbol_setClassAbstract withClassAbstract gs
                (cd_symbol klass) fk fs (fun _ => eq_refl) (fun _ => eq_refl) Hcs)
      as (gs' & Hrun & Herr & Hcs' & Hhas).
    exists gs', (withClassAbstract fk), (withClassAbstract fs).
    unfold bind at 1. unfold ret at 1. unfold bind at 1. rewrite Hrun. simpl.
    split_and!; try done. by apply emitted_same.
  - (* interface! *)
    destruct (flagClassAndSingleton_run Symbol_setClassAbstract withClassAbstract gs
                (cd_symbol klass) fk fs (fun _ => eq_refl) (fun _ => eq_refl) Hcs)
      as (gs1 & Hrun1 & Herr1 & Hcs1 & Hhas1).
    destruct (updSymbol_class Symbol_setClassInterface withClassInterface gs1 (cd_symbol klass)
                (withClassAbstract fk) (withClassAbstract fs)
                (fun _ => eq_refl) (fun _ => eq_refl) Hcs1)
      as (gs2 & Hrun2 & Herr2 & Hcs2 & Hhas2).
    unfold bind at 1. unfold ret at 1. unfold bind at 1. rewrite Hrun1.
    unfold bind at 1. unfold bind at 1. rewrite Hrun2.
    destruct (cd_kind klass); simpl.
    + exists gs2, (withClassInterface (withClassAbstract fk)), (withClassAbstract fs).
      split_and!; try done; [by apply Hhas2|]. apply emitted_same. congruence.
    + exists (withErrors (errors_ gs2 ++ [interfaceClassError loc]) gs2),
        (withClassInterface (withClassAbstract fk)), (withClassAbstract fs).
      split; [reflexivity|]. split_and!.
      * destruct (Hhas2 Hhas1) as (d & s & Hd & Hs). by exists d, s.
      * destruct Hcs2 as (d & Hd & Hf & Hs). by exists d.
      * discriminate.
      * discriminate.
      * done.
      * unfold emitted. simpl. rewrite Herr2, Herr1. by rewrite drop_app_length.
Qed.
End SymbolTable.

(** C8, counterexample: after [interface!] in [module Foo] the interface
    flag is set on [Foo] but not on its singleton class. *)
Lemma interface_not_set_on_singleton :
  ~ Spec.flagOnClassAndSingleton isClassInterface
      (snd (NameInserter.handleNamerDSL Sample.moduleFoo Sample.interfaceBang Sample.gsFoo)) 8.
Proof.
  intros (fk & fs & _ & (d & Hd & _ & Hs) & _ & Hfs).
  vm_compute in Hd. injection Hd as <-. vm_compute in Hs.
  destruct Hs as (_ & ds & Hds & <-). injection Hds as <-. discriminate Hfs.
Qed.

Lemma handleNamerDSL_flags_witness :
  Spec.classAndSingleton Sample.gsFoo (cd_symbol Sample.klassFoo) emptyFlags
                         Spec.freshSingletonFlags
  /\ exists gs' fk' fs',
      NameInserter.handleNamerDSL Sample.klassFoo Sample.interfaceBang Sample.gsFoo
      = (Returns (false, Sample.klassFoo), gs')
      /\ Spec.classAndSingleton gs' (cd_symbol Sample.klassFoo) fk' fs'
      /\ isClassAbstract fk' = true /\ isClassAbstract fs' = true
      /\ isClassInterface fk' = true /\ isClassInterface fs' = false
      /\ Spec.emitted Sample.gsFoo gs' = [Spec.interfaceClassError (mkLoc 1 (Some (12, 22)))].
Proof.
  assert (Hcs : Spec.classAndSingleton Sample.gsFoo (cd_symbol Sample.klassFoo) emptyFlags
                                       Spec.freshSingletonFlags).
  { exists Sample.classFoo. split; [reflexivity|]. split; reflexivity. }
  split; [exact Hcs|].
  destruct (handleNamerDSL_flags Sample.gsFoo Sample.klassFoo (mkLoc 1 (Some (12, 22)))
              Sample.self Names.declareInterface [] None emptyFlags Spec.freshSingletonFlags
              Hcs eq_refl)
    as (gs' & fk' & fs' & Hrun & _ & Hcs' & _ & _ & Hi & Hemit).
  destruct (Hi eq_refl) as (Ha & Has & Hik & His).
  exists gs', fk', fs'. split; [exact Hrun|]. split; [exact Hcs'|].
  split; [exact Ha|]. split; [exact Has|]. split; [exact Hik|]. split; [exact His|]. exact Hemit.
Defined.

(** *** Method definitions *)


Section Preserves.
Context (R : relation GlobalState) `{!PreOrder R}.








End Preserves.

(** The part of a symbol that filling in arguments, locations and flags
    leaves alone. *)
Definition sameCore (d d' : Symbol) : Prop :=
  sym_owner d' = sym_owner d /\ sym_name d' = sym_name d /\ sym_kind d' = sym_kind d
  /\ sym_members d' = sym_members d.

(** The states related by [fillsIn]: same diagnostics, a name table that
    only grew, the same symbols up to arguments, locations and flags. *)
Definition fillsIn (gs gs' : GlobalState) : Prop :=
  errors_ gs' = errors_ gs
  /\ (exists more, names gs' = names gs ++ more)
  /\ Forall2 sameCore (symbols gs) (symbols gs').

#[local] Instance sameCore_refl : Reflexive sameCore.
Proof. by intros d. Qed.

#[local] Instance sameCore_trans : Transitive sameCore.
Proof. intros a b c (?&?&?&?) (?&?&?&?). unfold sameCore. split_and!; congruence. Qed.

#[local] Instance fillsIn_preorder : PreOrder fillsIn.
Proof.
  split.
  - intros gs. split; [done|]. split; [exists []; by rewrite app_nil_r|].
    reflexivity.
  - intros a b c (He1 & [m1 Hn1] & Hs1) (He2 & [m2 Hn2] & Hs2).
    split; [congruence|]. split; [exists (m1 ++ m2); by rewrite Hn2, Hn1, app_assoc|].
    by etrans.
Qed.


Section MethodDefs.
Import Spec.
Context `{B : Build} `{C : NamerCollaborators}.








Lemma firstMismatch_allMatch symArgs parsedArgs :
  NameInserter.firstMismatch symArgs parsedArgs = None <-> allMatch symArgs parsedArgs = true.
Proof.
  revert parsedArgs. induction symArgs as [|a symArgs IH]; intros [|p parsedArgs]; simpl; try done.
  unfold argMatches.
  destruct (Bool.eqb (isKeyword (arg_flags a)) (pa_keyword p)); simpl; [|done].
  destruct (Bool.eqb (isBlock (arg_flags a)) (pa_block p)); simpl; [|done].
  destruct (Bool.eqb (isRepeated (arg_flags a)) (pa_repeated p)); simpl; [|done].
  destruct (isKeyword (arg_flags a)); simpl; [|apply IH].
  destruct (NameRef_eqb (arg_name a) (_name (pa_local p))); simpl; [apply IH|done].
Qed.

(** [paramsMatch] decides [sameShape] on the dealiased symbol and emits
    one [RedefinitionOfMethod] diagnostic on [loc] when it answers no. *)
Lemma paramsMatch_run owner loc parsedArgs gs dealiased :
  symbols gs !! dealias gs owner = Some dealiased ->
  exists gs',
    NameInserter.paramsMatch owner loc parsedArgs gs
    = (Returns (sameShape (sym_arguments dealiased) parsedArgs), gs')
    /\ if sameShape (sym_arguments dealiased) parsedArgs then gs' = gs
       else exists header,
           gs' = withErrors (errors_ gs ++ [mkError loc errors.Namer.RedefinitionOfMethod header]) gs.
Proof.
  intros Hd. unfold NameInserter.paramsMatch, bind. simpl.
  rewrite (symData_run _ _ _ Hd). unfold sameShape.
  destruct (length (sym_arguments dealiased) =? length parsedArgs); simpl.
  - destruct (NameInserter.firstMismatch (sym_arguments dealiased) parsedArgs) as [header|] eqn:Hm.
    + assert (allMatch (sym_arguments dealiased) parsedArgs = false) as ->.
      { destruct (allMatch _ _) eqn:Ha; [|done].
        apply firstMismatch_allMatch in Ha. congruence. }
      eexists. split; [reflexivity|]. by exists header.
    + apply firstMismatch_allMatch in Hm. rewrite Hm. by exists gs.
  - eexists. split; [reflexivity|]. by eexists.
Qed.




Lemma resolveOwner_run {A} gs ctxOwner method owner (k : SymbolRef -> M A) :
  resolvedOwner gs ctxOwner method = Some owner ->
  (owner0 <- NameInserter.methodOwner ctxOwner;;
   ownerData <- symData owner0;;
   owner <- (if md_isSelf method && Symbol_isClass ownerData
             then singletonClass owner0 else ret owner0);;
   k owner) gs = k owner gs.
Proof.
  unfold resolvedOwner, NameInserter.methodOwner. intros Howner.
  unfold bind at 1. unfold bind at 1. unfold get at 1.
  set (owner0 := if enclosingClass gs ctxOwner =? Symbols.root
                 then Symbols.Object else enclosingClass gs ctxOwner) in *.
  assert ((if enclosingClass gs ctxOwner =? Symbols.root
           then ret Symbols.Object else ret (enclosingClass gs ctxOwner)) gs
          = (Returns owner0, gs)) as ->.
  { subst owner0. by destruct (enclosingClass gs ctxOwner =? Symbols.root). }
  destruct (symbols gs !! owner0) as [ownerData|] eqn:Hod; [|done].
  unfold bind at 1. rewrite (symData_run _ _ _ Hod).
  destruct (md_isSelf method && Symbol_isClass ownerData).
  - unfold bind at 1. unfold singletonClass, bind. rewrite (symData_run _ _ _ Hod), Howner. done.
  - injection Howner as <-. done.
Qed.

Lemma enterSymbol_fresh l owner name k gs ownerData :
  symbols gs !! owner = Some ownerData ->
  sym_members ownerData !! _id name = None ->
  enterSymbol l owner name k gs
  = (Returns (length (symbols gs)),
     withSymbols (alter (fun o => set_members (<[_id name := length (symbols gs)]> (sym_members o)) o)
                        owner (symbols gs)
                  ++ [Symbol_addLoc l (mkSymbol owner name k [] [] ∅ false NoType emptyFlags)]) gs).
Proof.
  intros Hod Hnone. unfold enterSymbol, bind. by rewrite (symData_run _ _ _ Hod), Hnone.
Qed.

Lemma Symbol_addLoc_core l d : sameCore d (Symbol_addLoc l d).
Proof.
  unfold Symbol_addLoc. destruct (loc_file l =? FileRef_none); [done|].
  by destruct (replaceLocOfFile l (sym_locs d)).
Qed.




(** The tail of [preTransformMethodDef] after the method symbol is
    entered. *)
Definition fillFresh (st : NameInserter.scopeStack) (method : MethodDefNode)
           (symbol : SymbolRef) (parsedArgs : list ParsedArg)
  : M (NameInserter.scopeStack * MethodDefNode) :=
  args <- NameInserter.fillInArgs symbol parsedArgs;;
  updSymbol symbol (Symbol_addLoc (md_declLoc method));;
  whenM (md_isDSLSynthesized method) (updSymbol symbol Symbol_setDSLSynthesized);;
  ret (st, NameInserter.withSymbolAndArgs method symbol args).





Lemma isIntrinsic_run sym gs d :
  symbols gs !! sym = Some d -> NameInserter.isIntrinsic sym gs = (Returns (intrinsicStub d), gs).
Proof. intros Hd. unfold NameInserter.isIntrinsic, bind. by rewrite (symData_run _ _ _ Hd). Qed.


End MethodDefs.


(** The first [def bar(x)] fills the stub in: the stub keeps its symbol
    and its name, gets the arguments of the definition and is still a
    stub that holds an intrinsic (the namer sets no result type). *)
Example preTransformMethodDef_fills_stub :
  match @NameInserter.preTransformMethodDef Sample.debugBuild Sample.namerCollaborators
          [] 8 Sample.defBarX Sample.gsStubBar with
  | (Returns (_, method'), gs') =>
      md_symbol method' = 9
      /\ (Spec.intrinsicStub <$> symbols gs' !! 9) = Some true
      /\ (length <$> (sym_arguments <$> symbols gs' !! 9)) = Some 2
      /\ errors_ gs' = []
  | (Throws, _) => False
  end.
Proof. vm_compute. split_and!; reflexivity. Qed.



(** The second definition of [bar] on the sample table: the call
    returns, the method definition gets the fresh symbol 10, and the
    prior symbol 9 carries the new name 16, the first mangled name of
    [bar]. *)
Example preTransformMethodDef_bar_twice :
  match @NameInserter.preTransformMethodDef Sample.debugBuild Sample.namerCollaborators
          [] 8 Sample.defBarXY Sample.gsBar with
  | (Returns (_, method'), gs') =>
      md_symbol method' = 10
      /\ (sym_name <$> symbols gs' !! 9) = Some (mkNameRef 16 1)
      /\ names gs' !! 16 = Some (UNIQUE MangleRename 1 (mkNameRef 12 1))
      /\ (sym_members <$> symbols gs' !! 8) = Some {[ 12 := 10; 16 := 9 ]}
      /\ length (errors_ gs') = 1
  | (Throws, _) => False
  end.
Proof. vm_compute. split_and!; reflexivity. Qed.

(** ** Part III: further properties of the code *)

Section NameRefs.
Context `{B : Build}.

Lemma ownerFromHistory_known history id creator :
  NameRefDebugCheck.ownerFromHistory history id creator = creator
  \/ existsb (fun deepCloneInfo =>
                (NameRefDebugCheck.ownerFromHistory history id creator
                 =? dch_globalStateId deepCloneInfo)%Z
                && (id <? lastNameKnownByParentGlobalState deepCloneInfo)) history = true.
Proof.
  induction history as [|e es IH]; simpl; [by left|].
  destruct (id <? lastNameKnownByParentGlobalState e) eqn:Hlt.
  - right. by rewrite Z.eqb_refl.
  - destruct IH as [-> | IH]; [by left|]. right. rewrite IH. apply orb_true_r.
Qed.

Lemma NameRef_new_check_run gs id :
  enforceCorrectGlobalState (NameRef_new gs id) gs = (Returns tt, gs).
Proof.
  unfold enforceCorrectGlobalState, runDebugOnlyCheck. destruct debug_mode; [|done].
  unfold NameRefDebugCheck.check, bind, get, NameRef_new, NameRefDebugCheck.new. simpl.
  destruct (_ =? -1)%Z; [done|]. destruct (id <=? _); [done|].
  destruct (ownerFromHistory_known (deepCloneHistory gs) id (gs_globalStateId gs)) as [-> | ->].
  - by rewrite Z.eqb_refl.
  - by destruct (_ =? gs_globalStateId gs)%Z.
Qed.

Lemma ownerFromHistory_ancestor history id creator :
  existsb (fun deepCloneInfo => id <? lastNameKnownByParentGlobalState deepCloneInfo) history
  = true ->
  existsb (fun deepCloneInfo =>
             (NameRefDebugCheck.ownerFromHistory history id creator
              =? dch_globalStateId deepCloneInfo)%Z
             && (id <? lastNameKnownByParentGlobalState deepCloneInfo)) history = true.
Proof.
  induction history as [|e es IH]; simpl; [done|].
  destruct (id <? lastNameKnownByParentGlobalState e) eqn:Hlt.
  - intros _. by rewrite Z.eqb_refl.
  - simpl. intros Hes. rewrite (IH Hes). apply orb_true_r.
Qed.

(** A ref made by the constructor [NameRef(gs, id)] passes
    [enforceCorrectGlobalState] in the state that made it, in every
    build and for every deep-clone history; and refs are shared between
    siblings: if the name was already known by an ancestor of the
    history, the ref passes in every state with the same history. *)
Theorem NameRef_new_passes_check gs sibling id :
  enforceCorrectGlobalState (NameRef_new gs id) gs = (Returns tt, gs)
  /\ (deepCloneHistory sibling = deepCloneHistory gs ->
      existsb (fun deepCloneInfo => id <? lastNameKnownByParentGlobalState deepCloneInfo)
              (deepCloneHistory gs) = true ->
      enforceCorrectGlobalState (NameRef_new gs id) sibling = (Returns tt, sibling)).
Proof.
  split; [apply NameRef_new_check_run|].
  intros Hsame Hknown.
  unfold enforceCorrectGlobalState, runDebugOnlyCheck. destruct debug_mode; [|done].
  unfold NameRefDebugCheck.check, bind, get, NameRef_new, NameRefDebugCheck.new. simpl.
  destruct (_ =? -1)%Z; [done|]. destruct (id <=? _); [done|].
  destruct (_ =? gs_globalStateId sibling)%Z; [done|].
  by rewrite Hsame, (ownerFromHistory_ancestor _ _ _ Hknown).
Qed.

(** [Name::deepCopy] keeps the kind, the number and the ids (the copy
    interns as the original does), keeps the invariant of the name table,
    and the refs it makes are valid in the destination state. *)
Theorem Name_deepCopy_valid to n i :
  Name_same (Name_deepCopy to n) n = true
  /\ (Name_wellFormed i (Name_deepCopy to n) <-> Name_wellFormed i n)
  /\ (forall o, (exists k num, Name_deepCopy to n = UNIQUE k num o)
                \/ Name_deepCopy to n = CONSTANT o ->
                enforceCorrectGlobalState o to = (Returns tt, to)).
Proof.
  destruct n as [s|k num o|o]; simpl.
  - split; [by apply bool_decide_eq_true|]. split; [done|].
    intros o [(k & num & [=])|[=]].
  - unfold NameRef_eqb. simpl. rewrite !Nat.eqb_refl, bool_decide_eq_true_2 by done.
    split; [done|]. split; [done|].
    intros o' [(k' & num' & [= _ _ <-])|[=]]. apply NameRef_new_check_run.
  - unfold NameRef_eqb. simpl. rewrite Nat.eqb_refl.
    split; [done|]. split; [done|].
    intros o' [(k' & num' & [=])|[= <-]]. apply NameRef_new_check_run.
Qed.
End NameRefs.

Section NameData.
Import Notions.
Context `{B : Build}.

Lemma NameRef_data_run n gs nm :
  names gs !! _id n = Some nm ->
  (debug_mode = true ->
   NameRef_exists n = true /\ enforceCorrectGlobalState n gs = (Returns tt, gs)) ->
  NameRef_data n gs = (Returns nm, gs).
Proof.
  intros Hnm Hdebug. unfold NameRef_data, bind, get.
  assert (Hlt : (_id n <? length (names gs)) = true)
    by (apply Nat.ltb_lt; by eapply lookup_lt_Some).
  rewrite Hlt, (ENFORCE_true _ _ eq_refl).
  destruct debug_mode eqn:Hd.
  - destruct (Hdebug eq_refl) as [Hex Hcheck]. rewrite Hex, (ENFORCE_true _ _ eq_refl), Hcheck.
    by rewrite Hnm.
  - rewrite (ENFORCE_release Hd). unfold enforceCorrectGlobalState, runDebugOnlyCheck.
    rewrite Hd. by rewrite Hnm.
Qed.

(** What a call of [NameRef::data] that returns tells about the ref. *)
Lemma NameRef_data_returns n gs nm gs' :
  NameRef_data n gs = (Returns nm, gs') ->
  gs' = gs /\ names gs !! _id n = Some nm
  /\ (debug_mode = true ->
      NameRef_exists n = true /\ enforceCorrectGlobalState n gs = (Returns tt, gs)).
Proof.
  unfold NameRef_data, bind, get. intros Hrun.
  destruct (ENFORCE_cases (_id n <? length (names gs)) gs) as [H1|H1]; rewrite H1 in Hrun;
    [|done].
  destruct (ENFORCE_cases (NameRef_exists n) gs) as [H2|H2]; rewrite H2 in Hrun; [|done].
  destruct (enforceCorrectGlobalState n gs) as [[[]|] gs1] eqn:Hcheck; [|done].
  assert (gs1 = gs) as ->.
  { revert Hcheck. unfold enforceCorrectGlobalState, runDebugOnlyCheck.
    destruct debug_mode; [|by intros [= <-]].
    unfold NameRefDebugCheck.check, bind, get.
    repeat match goal with |- context [if ?c then _ else _] => destruct c end;
      try (by intros [= <-]).
    intros Hc. pose proof (ENFORCE_state false gs) as Hs. by rewrite Hc in Hs. }
  destruct (names gs !! _id n) as [nm'|] eqn:Hnm; [|done].
  injection Hrun as <- <-. split; [done|]. split; [done|].
  intros Hd. split; [|done].
  rewrite (ENFORCE_debug Hd) in H2. by destruct (NameRef_exists n).
Qed.

(** [Name::show] and [Name::shortName] terminate on a readable table:
    for the name stored at id [i], a budget of [i] calls is enough, the
    answer does not depend on the budget beyond that, and the state is
    left as it is. *)
Theorem Name_show_returns gs i nm :
  tableReadable gs ->
  names gs !! i = Some nm ->
  exists shown short,
    forall budget, i <= budget ->
      Name_show budget nm gs = (Returns (Some shown), gs)
      /\ Name_shortName budget nm gs = (Returns (Some short), gs).
Proof.
  intros Hread. revert nm. induction i as [i IH] using lt_wf_ind. intros nm Hnm.
  assert (Hderived : forall original,
             Name_original nm = Some original ->
             exists od shown short,
               NameRef_data original gs = (Returns od, gs)
               /\ 0 < i
               /\ forall budget, i <= S budget ->
                    Name_show budget od gs = (Returns (Some shown), gs)
                    /\ Name_shortName budget od gs = (Returns (Some short), gs)).
  { intros original Ho. destruct (Hread i nm original Hnm Ho) as [Hlt Hdebug].
    assert (is_Some (names gs !! _id original)) as [od Hod].
    { apply lookup_lt_is_Some. apply lookup_lt_Some in Hnm. lia. }
    destruct (IH (_id original) Hlt od Hod) as (shown & short & Hbudget).
    exists od, shown, short. split; [by apply NameRef_data_run|]. split; [lia|].
    intros budget Hle. apply Hbudget. lia. }
  destruct nm as [utf8|k num original|original].
  - exists utf8, utf8. intros budget _. by destruct budget.
  - destruct (Hderived original eq_refl) as (od & shown & short & Hdata & Hpos & Hbudget).
    eexists _, short. intros [|budget] Hle; [lia|].
    destruct (Hbudget budget Hle) as [Hshow Hshort].
    cbn [Name_show Name_shortName]. unfold bind. rewrite Hdata, Hshow, Hshort. done.
  - destruct (Hderived original eq_refl) as (od & shown & short & Hdata & Hpos & Hbudget).
    exists shown, short. intros [|budget] Hle; [lia|].
    destruct (Hbudget budget Hle) as [Hshow Hshort].
    cbn [Name_show Name_shortName]. unfold bind. rewrite Hdata, Hshow, Hshort. done.
Qed.

Lemma Name_same_UTF8 str stored : Name_same (UTF8 str) stored = true -> stored = UTF8 str.
Proof. destruct stored; simpl; try done. intros H. by apply bool_decide_eq_true_1 in H as <-. Qed.

(** Entering a [UTF8] name. *)
Lemma enterNameUTF8_interns str gs :
  exists r gs',
    enterNameUTF8 str gs = (Returns r, gs')
    /\ names gs' !! _id r = Some (UTF8 str)
    /\ (names gs' = names gs \/ names gs' = names gs ++ [UTF8 str])
    /\ symbols gs' = symbols gs /\ errors_ gs' = errors_ gs
    /\ gs_globalStateId gs' = gs_globalStateId gs
    /\ deepCloneHistory gs' = deepCloneHistory gs
    /\ exists r', enterNameUTF8 str gs' = (Returns r', gs') /\ _id r' = _id r.
Proof.
  unfold enterNameUTF8, enterName.
  destruct (list_find _ (names gs)) as [[i stored]|] eqn:Hfind.
  - pose proof Hfind as Hfind'. apply list_find_Some in Hfind as (Hi & Hsame & _).
    apply Name_same_UTF8 in Hsame as ->.
    eexists _, _. split; [reflexivity|]. cbn [_id NameRef_new]. split_and!; try done; [by left|].
    unfold enterNameUTF8, enterName. rewrite Hfind'. by eexists.
  - eexists _, _. split; [reflexivity|]. cbn [_id NameRef_new names withNames].
    split; [by rewrite lookup_app_r, Nat.sub_diag|]. split_and!; try done; [by right|].
    unfold enterNameUTF8, enterName. cbn [names withNames].
    assert (list_find (fun m => Name_same (UTF8 str) m = true) (names gs ++ [UTF8 str])
            = Some (length (names gs), UTF8 str)) as ->.
    { apply list_find_Some. split; [by rewrite lookup_app_r, Nat.sub_diag|].
      split; [simpl; by apply bool_decide_eq_true|].
      intros j y Hj Hlt. rewrite lookup_app_l in Hj by done.
      apply list_find_None in Hfind. rewrite Forall_forall in Hfind.
      apply Hfind. by eapply list_elem_of_lookup_2. }
    eexists. split; reflexivity.
Qed.

Lemma NameRef_data_grown n gs gs' nm :
  NameRef_data n gs = (Returns nm, gs) ->
  (names gs' = names gs \/ exists more, names gs' = names gs ++ more) ->
  gs_globalStateId gs' = gs_globalStateId gs ->
  deepCloneHistory gs' = deepCloneHistory gs ->
  NameRef_data n gs' = (Returns nm, gs').
Proof.
  intros Hdata Hnames Hid Hhist.
  apply NameRef_data_returns in Hdata as (_ & Hnm & Hdebug).
  apply NameRef_data_run.
  - destruct Hnames as [->|[more ->]]; [done|]. by apply lookup_app_l_Some.
  - intros Hd. destruct (Hdebug Hd) as [Hex Hcheck]. split; [done|].
    revert Hcheck. unfold enforceCorrectGlobalState, runDebugOnlyCheck. rewrite Hd.
    unfold NameRefDebugCheck.check, bind, get. rewrite Hid, Hhist.
    repeat match goal with |- context [if ?c then _ else _] => destruct c end; try done.
    rewrite !(ENFORCE_debug Hd). done.
Qed.

Lemma affix_interns (f : string -> string) n utf8 gs :
  NameRef_data n gs = (Returns (UTF8 utf8), gs) ->
  internsUTF8 (name <- NameRef_data n;;
               ENFORCE (Name_isUTF8 name);;
               match name with
               | UTF8 utf8 => enterNameUTF8 (f utf8)
               | _ => raise
               end) gs (f utf8).
Proof.
  intros Hdata.
  destruct (enterNameUTF8_interns (f utf8) gs)
    as (r & gs' & Hrun & Hr & Hnames & Hsyms & Herrs & Hid & Hhist & r' & Hrun' & Hr').
  exists r, gs'. unfold bind. rewrite Hdata, (ENFORCE_true _ _ eq_refl). split; [done|].
  split_and!; try done.
  exists r'. split; [|done].
  rewrite (NameRef_data_grown n gs gs' (UTF8 utf8) Hdata), (ENFORCE_true _ _ eq_refl); try done.
  destruct Hnames as [->| ->]; [by left|right; by eexists].
Qed.

(** [addEq], [addQuestion], [addAt] and [prepend] on a ref to the [UTF8]
    name [utf8]: each interns the string with the affix and returns a ref
    to it; calling it again returns the same id and adds nothing;
    [addAt] is [prepend] with ["@"]. *)
Theorem NameRef_affixes n utf8 gs :
  NameRef_data n gs = (Returns (UTF8 utf8), gs) ->
  internsUTF8 (NameRef_addEq n) gs (utf8 +:+ "=")
  /\ internsUTF8 (NameRef_addQuestion n) gs (utf8 +:+ "?")
  /\ internsUTF8 (NameRef_addAt n) gs ("@" +:+ utf8)
  /\ (forall s, internsUTF8 (NameRef_prepend n s) gs (s +:+ utf8))
  /\ NameRef_addAt n = NameRef_prepend n "@".
Proof.
  intros Hdata. split_and!.
  - apply (affix_interns (fun u => u +:+ "=") n utf8 gs Hdata).
  - apply (affix_interns (fun u => u +:+ "?") n utf8 gs Hdata).
  - apply (affix_interns (fun u => "@" +:+ u) n utf8 gs Hdata).
  - intros s. apply (affix_interns (fun u => s +:+ u) n utf8 gs Hdata).
  - reflexivity.
Qed.

(** In a debug build the four functions refuse a name that is not
    [UTF8]. *)
Theorem NameRef_affix_of_derived_name_raises n nm gs :
  debug_mode = true ->
  NameRef_data n gs = (Returns nm, gs) ->
  Name_isUTF8 nm = false ->
  NameRef_addEq n gs = (Throws, gs) /\ NameRef_addQuestion n gs = (Throws, gs)
  /\ NameRef_addAt n gs = (Throws, gs) /\ forall s, NameRef_prepend n s gs = (Throws, gs).
Proof.
  intros Hd Hdata Hkind.
  unfold NameRef_addEq, NameRef_addQuestion, NameRef_addAt, NameRef_prepend, bind.
  rewrite Hdata, Hkind, (ENFORCE_debug Hd). done.
Qed.
End NameData.

Section ReadFile.
Import pipeline Spec Notions.
Context `{B : Build} `{P : Phases}.

(** The file slot and the diagnostics after
    [readFileWithStrictnessOverrides] has read a file. *)
Lemma FileRef_data_insert gs file f :
  file < length (files gs) ->
  FileRef_data (withFiles (<[file := f]> (files gs)) gs) file = f.
Proof. intros Hlt. unfold FileRef_data. simpl. by rewrite list_lookup_insert_eq. Qed.

Lemma FileRef_data_alter gs file g :
  FileRef_data (withFiles (alter g file (files gs)) gs) file
  = if bool_decide (file < length (files gs)) then g (FileRef_data gs file) else notYetRead.
Proof.
  unfold FileRef_data. simpl. rewrite list_lookup_alter_eq.
  case_bool_decide as Hlt.
  - destruct (lookup_lt_is_Some_2 _ _ Hlt) as [f Hf]. by rewrite Hf.
  - rewrite lookup_ge_None_2 by lia. done.
Qed.

Lemma FileRef_data_errors gs es file :
  FileRef_data (withErrors es gs) file = FileRef_data gs file.
Proof. done. Qed.

(** What [decideStrictLevel] does to the state: it may queue the
    diagnostic, nothing else. *)
Lemma decideStrictLevel_state gs file opts :
  files (snd (decideStrictLevel file opts gs)) = files gs
  /\ runningUnderAutogen (snd (decideStrictLevel file opts gs)) = runningUnderAutogen gs.
Proof.
  rewrite decideStrictLevel_run.
  destruct (strictnessOverrides opts !! _); [|done].
  by destruct (StrictLevel.eqb _ _).
Qed.

(** The level that [decideStrictLevel] returns depends on the path and
    the sigil of the file, the options and the autogen flag only. *)
Lemma decideStrictLevel_depends gs1 gs2 file opts :
  path (FileRef_data gs1 file) = path (FileRef_data gs2 file) ->
  originalSigil (FileRef_data gs1 file) = originalSigil (FileRef_data gs2 file) ->
  runningUnderAutogen gs1 = runningUnderAutogen gs2 ->
  fst (decideStrictLevel file opts gs1) = fst (decideStrictLevel file opts gs2).
Proof.
  intros Hp Hs Ha. rewrite !decideStrictLevel_run. unfold chosenLevel, levelOf.
  rewrite Hp, Hs, Ha. by destruct (strictnessOverrides opts !! _).
Qed.

(** The state after the steps of [readFileWithStrictnessOverrides] that
    precede the counter. *)
Definition afterRead (file : FileRef) (opts : Options) (gs : GlobalState) : GlobalState :=
  let fileName := path (FileRef_data gs file) in
  let gs1 := withFiles (<[file := File_new fileName (default "" (fs_readFile opts fileName))
                                          Normal]> (files gs)) gs in
  let gs2 := if fs_readFile opts fileName is Some _ then gs1
             else withErrors (errors_ gs1 ++ [mkError (Loc_none file) errors.Internal.FileNotFound
                                                     "File Not Found"]) gs1 in
  let gs3 := if String.eqb (storeState opts) "" then gs2
             else withFiles (alter (set_sourceType PayloadGeneration) file (files gs2)) gs2 in
  let gs4 := snd (decideStrictLevel file opts gs3) in
  withFiles (alter (set_strictLevel
                      (match fst (decideStrictLevel file opts gs3) with
                       | Returns level => level
                       | Throws => StrictLevel.None_
                       end)) file (files gs4)) gs4.

Lemma decideStrictLevel_returns gs file opts :
  exists level, fst (decideStrictLevel file opts gs) = Returns level.
Proof. rewrite decideStrictLevel_run. destruct (strictnessOverrides opts !! _); eauto. Qed.

Lemma readFileWithStrictnessOverrides_run file opts gs :
  sourceType (FileRef_data gs file) = NotYetRead ->
  file < length (files gs) ->
  readFileWithStrictnessOverrides file opts gs
  = incrementStrictLevelCounter (strictLevel (FileRef_data (afterRead file opts gs) file))
                                (afterRead file opts gs).
Proof.
  intros Hnot Hlt.
  unfold readFileWithStrictnessOverrides, afterRead.
  unfold enterNewFileAt, whenM, beginError, updFile, ENFORCE.
  unfold bind, get, modify, ret, raise.
  rewrite Hnot. rewrite bool_decide_eq_true_2 by done. cbn [negb].
  set (fileName := path (FileRef_data gs file)).
  assert (Hlevel : forall gs3 level gs4,
             length (files gs3) = length (files gs) ->
             decideStrictLevel file opts gs3 = (Returns level, gs4) ->
             strictLevel (FileRef_data (withFiles (alter (set_strictLevel level) file (files gs4))
                                                  gs4) file) = level).
  { intros gs3 level gs4 Hlen Hrun. rewrite FileRef_data_alter.
    pose proof (proj1 (decideStrictLevel_state gs3 file opts)) as Hfiles.
    rewrite Hrun in Hfiles. simpl in Hfiles.
    rewrite bool_decide_eq_true_2 by (rewrite Hfiles, Hlen; done). done. }
  destruct (fs_readFile opts fileName) as [src|]; cbn [default from_option negb id];
    cbn beta iota zeta; rewrite Nat.eqb_refl, andb_false_r; cbn beta iota;
    destruct (String.eqb (storeState opts) ""); cbn [negb]; cbn beta iota;
    match goal with
    | |- context [decideStrictLevel file opts ?gs3] =>
        destruct (decideStrictLevel_returns gs3 file opts) as [level Hret];
        destruct (decideStrictLevel file opts gs3) as [r gs4] eqn:Hrun;
        simpl in Hret; subst r; cbn [fst snd];
        rewrite (Hlevel gs3 level gs4); [reflexivity| |exact Hrun]
    end; simpl; rewrite ?length_alter, ?length_insert; done.
Qed.

Lemma list_alter_insert {A} (g : A -> A) (l : list A) i x :
  alter g i (<[i:=x]> l) = <[i:=g x]> l.
Proof.
  apply list_eq. intros j. destruct (decide (i = j)) as [<-|Hne].
  - rewrite list_lookup_alter_eq. destruct (decide (i < length l)).
    + by rewrite !list_lookup_insert_eq.
    + by rewrite !lookup_ge_None_2 by (rewrite ?length_insert; lia).
  - by rewrite list_lookup_alter_ne, !list_lookup_insert_ne.
Qed.

Lemma afterRead_eq file opts gs :
  file < length (files gs) ->
  let fileName := path (FileRef_data gs file) in
  let src := default "" (fs_readFile opts fileName) in
  files (afterRead file opts gs)
  = <[file := mkFile fileName src
                     (if String.eqb (storeState opts) "" then Normal else PayloadGeneration)
                     (fileSigil src) (levelRead file opts gs) false]> (files gs)
  /\ errors_ (afterRead file opts gs)
     = errors_ gs
       ++ (if fs_readFile opts fileName is Some _ then []
           else [mkError (Loc_none file) errors.Internal.FileNotFound "File Not Found"])
       ++ match strictnessOverrides opts !! normalizePath fileName with
          | Some fnd => if StrictLevel.eqb fnd (fileSigil src) then [uselessOverrideError file]
                        else []
          | None => []
          end
  /\ names (afterRead file opts gs) = names gs
  /\ symbols (afterRead file opts gs) = symbols gs.
Proof.
  intros Hlt fileName src. unfold afterRead, levelRead. fold fileName. fold src.
  set (gs3 := if String.eqb (storeState opts) "" then _ else _).
  assert (Hdata : FileRef_data gs3 file
                  = mkFile fileName src
                           (if String.eqb (storeState opts) "" then Normal else PayloadGeneration)
                           (fileSigil src) (fileSigil src) false).
  { subst gs3. destruct (String.eqb (storeState opts) ""), (fs_readFile opts fileName);
      unfold FileRef_data; simpl; rewrite ?list_alter_insert, list_lookup_insert_eq by done;
      done. }
  assert (Hfiles : files gs3
                   = <[file := mkFile fileName src
                                 (if String.eqb (storeState opts) "" then Normal
                                  else PayloadGeneration)
                                 (fileSigil src) (fileSigil src) false]> (files gs)).
  { subst gs3. destruct (String.eqb (storeState opts) ""), (fs_readFile opts fileName);
      simpl; rewrite ?list_alter_insert; done. }
  assert (Herrors : errors_ gs3
                    = errors_ gs ++ (if fs_readFile opts fileName is Some _ then []
                                     else [mkError (Loc_none file) errors.Internal.FileNotFound
                                                   "File Not Found"])).
  { subst gs3. destruct (String.eqb (storeState opts) ""), (fs_readFile opts fileName);
      simpl; rewrite ?app_nil_r; done. }
  assert (Hrest : names gs3 = names gs /\ symbols gs3 = symbols gs
                  /\ runningUnderAutogen gs3 = runningUnderAutogen gs).
  { subst gs3. by destruct (String.eqb (storeState opts) ""), (fs_readFile opts fileName). }
  destruct Hrest as (Hnames & Hsymbols & Hautogen).
  rewrite decideStrictLevel_run. unfold chosenLevel, levelOf. rewrite Hdata, Hautogen. simpl.
  destruct (strictnessOverrides opts !! normalizePath fileName) as [fnd|]; simpl.
  - destruct (StrictLevel.eqb fnd (fileSigil src)); simpl;
      rewrite Hfiles, Herrors, list_alter_insert, ?app_nil_r, <- ?app_assoc; done.
  - rewrite Hfiles, Herrors, list_alter_insert, ?app_nil_r. done.
Qed.

Lemma incrementStrictLevelCounter_state level gs :
  snd (incrementStrictLevelCounter level gs) = gs.
Proof. by destruct level. Qed.

(** A file is read once: [readFileWithStrictnessOverrides] does nothing
    to a file whose slot is marked as read, and whatever the outcome of a
    read, the slot is marked as read afterwards, so a second call does
    nothing. *)
Theorem readFileWithStrictnessOverrides_reads_once file opts gs :
  (sourceType (FileRef_data gs file) <> NotYetRead ->
   readFileWithStrictnessOverrides file opts gs = (Returns tt, gs))
  /\ (file < length (files gs) ->
      readFileWithStrictnessOverrides file opts
        (snd (readFileWithStrictnessOverrides file opts gs))
      = (Returns tt, snd (readFileWithStrictnessOverrides file opts gs))).
Proof.
  assert (Hread : forall gs0, sourceType (FileRef_data gs0 file) <> NotYetRead ->
                              readFileWithStrictnessOverrides file opts gs0 = (Returns tt, gs0)).
  { intros gs0 Hne. unfold readFileWithStrictnessOverrides, bind, get.
    by rewrite bool_decide_eq_false_2. }
  split; [apply Hread|]. intros Hlt.
  destruct (decide (sourceType (FileRef_data gs file) = NotYetRead)) as [Hnot|Hne].
  - rewrite (readFileWithStrictnessOverrides_run _ _ _ Hnot Hlt).
    rewrite incrementStrictLevelCounter_state. apply Hread.
    destruct (afterRead_eq file opts gs Hlt) as (Hfiles & _).
    unfold FileRef_data at 1. rewrite Hfiles, list_lookup_insert_eq by done. simpl.
    by destruct (String.eqb (storeState opts) "").
  - rewrite (Hread gs Hne). simpl. by apply Hread.
Qed.

(** The source and the diagnostics of a read: the slot gets the text
    that the file system returns, or the empty text and the
    [FileNotFound] diagnostic when the file is missing; the only other
    diagnostic is the one of a useless override; the other slots, the
    names and the symbols are left alone.  This holds of the state that
    the call leaves, whether it returns or raises. *)
Theorem readFileWithStrictnessOverrides_source file opts gs :
  sourceType (FileRef_data gs file) = NotYetRead ->
  file < length (files gs) ->
  let gs' := snd (readFileWithStrictnessOverrides file opts gs) in
  let fileName := path (FileRef_data gs file) in
  path (FileRef_data gs' file) = fileName
  /\ source (FileRef_data gs' file) = default "" (fs_readFile opts fileName)
  /\ emitted gs gs'
     = (if fs_readFile opts fileName is Some _ then []
        else [mkError (Loc_none file) errors.Internal.FileNotFound "File Not Found"])
       ++ match strictnessOverrides opts !! normalizePath fileName with
          | Some fnd =>
              if StrictLevel.eqb fnd (fileSigil (default "" (fs_readFile opts fileName)))
              then [uselessOverrideError file] else []
          | None => []
          end
  /\ (forall other, other <> file -> files gs' !! other = files gs !! other)
  /\ names gs' = names gs /\ symbols gs' = symbols gs.
Proof.
  intros Hnot Hlt gs' fileName. subst gs'.
  rewrite (readFileWithStrictnessOverrides_run _ _ _ Hnot Hlt), incrementStrictLevelCounter_state.
  destruct (afterRead_eq file opts gs Hlt) as (Hfiles & Herrors & Hnames & Hsymbols).
  unfold FileRef_data at 1 2. rewrite Hfiles, list_lookup_insert_eq by done. simpl.
  split_and!; try done.
  - unfold emitted. rewrite Herrors. by rewrite drop_app_length.
  - intros other Hne. by rewrite list_lookup_insert_ne.
Qed.

(** The read raises exactly when the level decided for the file is one
    that [incrementStrictLevelCounter] refuses ([None], [Internal],
    [Max]); the level is stored in the slot either way. *)
Theorem readFileWithStrictnessOverrides_raises file opts gs :
  sourceType (FileRef_data gs file) = NotYetRead ->
  file < length (files gs) ->
  strictLevel (FileRef_data (snd (readFileWithStrictnessOverrides file opts gs)) file)
  = levelRead file opts gs
  /\ (fst (readFileWithStrictnessOverrides file opts gs) = Throws
      <-> levelRead file opts gs = StrictLevel.None_
          \/ levelRead file opts gs = StrictLevel.Internal
          \/ levelRead file opts gs = StrictLevel.Max)
  /\ (fst (readFileWithStrictnessOverrides file opts gs) = Returns tt
      <-> levelRead file opts gs <> StrictLevel.None_
          /\ levelRead file opts gs <> StrictLevel.Internal
          /\ levelRead file opts gs <> StrictLevel.Max).
Proof.
  intros Hnot Hlt.
  rewrite (readFileWithStrictnessOverrides_run _ _ _ Hnot Hlt), incrementStrictLevelCounter_state.
  destruct (afterRead_eq file opts gs Hlt) as (Hfiles & _).
  assert (Hlevel : strictLevel (FileRef_data (afterRead file opts gs) file)
                   = levelRead file opts gs).
  { unfold FileRef_data. by rewrite Hfiles, list_lookup_insert_eq. }
  rewrite Hlevel. split; [done|].
  destruct (levelRead file opts gs); simpl; naive_solver.
Qed.

(** After a read that returns, the level stored in the slot is the
    level that [decideStrictLevel] computes, so the check at the entry of
    [indexOne] passes. *)
Theorem readFileWithStrictnessOverrides_then_indexOne file opts gs gs' :
  sourceType (FileRef_data gs file) = NotYetRead ->
  file < length (files gs) ->
  readFileWithStrictnessOverrides file opts gs = (Returns tt, gs') ->
  fst (decideStrictLevel file opts gs') = Returns (strictLevel (FileRef_data gs' file))
  /\ fst (indexOneEnforce opts file gs') = Returns tt.
Proof.
  intros Hnot Hlt Hrun.
  pose proof (readFileWithStrictnessOverrides_run file opts gs Hnot Hlt) as Hrun'.
  rewrite Hrun in Hrun'.
  assert (gs' = afterRead file opts gs) as ->.
  { apply (f_equal snd) in Hrun'. by rewrite incrementStrictLevelCounter_state in Hrun'. }
  destruct (afterRead_eq file opts gs Hlt) as (Hfiles & _).
  assert (Hdata : FileRef_data (afterRead file opts gs) file
                  = mkFile (path (FileRef_data gs file))
                           (default "" (fs_readFile opts (path (FileRef_data gs file))))
                           (if String.eqb (storeState opts) "" then Normal else PayloadGeneration)
                           (fileSigil (default "" (fs_readFile opts (path (FileRef_data gs file)))))
                           (levelRead file opts gs) false).
  { unfold FileRef_data. by rewrite Hfiles, list_lookup_insert_eq. }
  assert (Hdecide : decideStrictLevel file opts (afterRead file opts gs)
                    = (Returns (levelRead file opts gs),
                       snd (decideStrictLevel file opts (afterRead file opts gs)))).
  { assert (Hauto : runningUnderAutogen (afterRead file opts gs) = runningUnderAutogen gs).
    { unfold afterRead. simpl.
      rewrite (proj2 (decideStrictLevel_state _ file opts)).
      by destruct (String.eqb (storeState opts) ""),
           (fs_readFile opts (path (FileRef_data gs file))). }
    rewrite decideStrictLevel_run. unfold chosenLevel, levelRead, levelOf.
    rewrite Hdata, Hauto. simpl.
    by destruct (strictnessOverrides opts !! _). }
  split.
  - rewrite Hdecide, Hdata. done.
  - unfold indexOneEnforce. destruct debug_mode eqn:Hd; [|done].
    unfold bind. rewrite Hdecide. unfold get.
    unfold FileRef_data. rewrite (proj1 (decideStrictLevel_state _ file opts)).
    fold (FileRef_data (afterRead file opts gs) file). rewrite Hdata. simpl.
    unfold StrictLevel.eqb. rewrite bool_decide_eq_true_2 by done.
    by rewrite (ENFORCE_debug Hd).
Qed.
End ReadFile.

Section Cache.
Import pipeline Spec Notions.
Context `{B : Build} `{P : Phases}.

(** [fetchTreeFromCache] returns [nullptr] exactly when there is no
    store, the ref lies beyond the file table or the store has no entry
    under the key of the file; the state is then left as it was (the
    loader is not called, the file is not marked). *)
Theorem fetchTreeFromCache_miss file kvstore gs :
  let miss := forall store, kvstore = Some store -> file < length (files gs) ->
                            store !! fileKey gs file = None in
  (miss -> fetchTreeFromCache file kvstore gs = (Returns None, gs))
  /\ (fst (fetchTreeFromCache file kvstore gs) = Returns None -> miss).
Proof.
  unfold fetchTreeFromCache, bind, get. split.
  - intros Hmiss. destruct kvstore as [store|]; [|done].
    destruct (Nat.ltb_spec file (length (files gs))) as [Hlt|]; [|done].
    by rewrite (Hmiss store eq_refl Hlt).
  - intros Hnone store -> Hlt. apply Nat.ltb_lt in Hlt. rewrite Hlt in Hnone.
    destruct (store !! fileKey gs file) as [bytes|]; [|done]. exfalso.
    destruct (loadExpression bytes file gs) as [[t|] gs1]; [|done].
    unfold updFile, modify in Hnone. simpl in Hnone.
    destruct (ENFORCE _ _) as [[[]|] gs2]; done.
Qed.

(** A hit marks the file as served from the cache, in the state that
    the loader left; the call raises exactly when the build is a debug
    build and the loaded tree is located in another file, and returns
    the loaded tree otherwise. *)
Theorem fetchTreeFromCache_hit file store gs bytes t gs1 :
  file < length (files gs) ->
  store !! fileKey gs file = Some bytes ->
  loadExpression bytes file gs = (Returns t, gs1) ->
  fetchTreeFromCache file (Some store) gs
  = (if debug_mode && negb (loc_file (Expression_loc t) =? file)
     then Throws else Returns (Some t),
     withFiles (alter (set_cachedParseTree true) file (files gs1)) gs1).
Proof.
  intros Hlt Hkey Hload. apply Nat.ltb_lt in Hlt.
  unfold fetchTreeFromCache, bind, get. rewrite Hlt, Hkey, Hload.
  unfold updFile, modify. unfold ENFORCE.
  by destruct (debug_mode && negb (loc_file (Expression_loc t) =? file)).
Qed.

(** What [cacheTrees] leaves in the store: under each key the bytes of
    the last tree of the list that has this key and was not served from
    the cache, and the former content under every other key. *)
Theorem cacheTrees_lookup gs store trees :
  exists store',
    cacheTrees gs (Some store) trees = Some store'
    /\ forall key,
        store' !! key
        = match last (filter (fun t => cachedParseTree (FileRef_data gs (file t)) = false
                                       /\ fileKey gs (file t) = key) trees) with
          | Some t => Some (storeExpression gs (tree t))
          | None => store !! key
          end.
Proof.
  revert store. induction trees as [|t trees IH]; intros store.
  - exists store. split; [done|]. intros key. done.
  - cbn [cacheTrees]. destruct (cachedParseTree (FileRef_data gs (file t))) eqn:Hcached.
    + destruct (IH store) as (store' & Hrun & Hlookup). exists store'. split; [done|].
      intros key. rewrite filter_cons_False by (intros [? _]; congruence). apply Hlookup.
    + destruct (IH (<[fileKey gs (file t) := storeExpression gs (tree t)]> store))
        as (store' & Hrun & Hlookup).
      exists store'. split; [done|]. intros key. rewrite Hlookup.
      destruct (decide (fileKey gs (file t) = key)) as [Hkey|Hkey].
      * rewrite filter_cons_True by done. rewrite last_cons.
        destruct (last _); [done|]. subst key. by rewrite lookup_insert_eq.
      * rewrite filter_cons_False by (intros [_ ?]; congruence).
        destruct (last _); [done|]. by rewrite lookup_insert_ne.
Qed.

(** Without a store [cacheTrees] has nothing to write. *)
Lemma cacheTrees_no_store gs trees : cacheTrees gs None trees = None.
Proof. by destruct trees. Qed.

(** Round trip through the cache: a tree that [cacheTrees] wrote is the
    tree that [fetchTreeFromCache] returns for the file, provided the
    serializer reads back what it wrote and the tree is located in the
    file; the file is then marked as served from the cache. *)
Theorem cacheTrees_then_fetch gs store p :
  file p < length (files gs) ->
  cachedParseTree (FileRef_data gs (file p)) = false ->
  loadExpression (storeExpression gs (tree p)) (file p) gs = (Returns (tree p), gs) ->
  loc_file (Expression_loc (tree p)) = file p ->
  fetchTreeFromCache (file p) (cacheTrees gs (Some store) [p]) gs
  = (Returns (Some (tree p)),
     withFiles (alter (set_cachedParseTree true) (file p) (files gs)) gs).
Proof.
  intros Hlt Hcached Hload Hloc. cbn [cacheTrees]. rewrite Hcached.
  unfold fetchTreeFromCache, bind, get. apply Nat.ltb_lt in Hlt. rewrite Hlt.
  rewrite lookup_insert_eq, Hload. unfold updFile, modify, ENFORCE.
  rewrite Hloc, Nat.eqb_refl, andb_false_r. done.
Qed.

(** A tree served from the cache skips the earlier phases and their
    early exits: [indexOne] and [indexOneWithPlugins] hand the cached
    tree on unless [stopAfterPhase] is [DSL], and a cached tree comes
    with no plugin-generated files. *)
Theorem index_of_cached_tree opts file kvstore gs t gs1 :
  fetchTreeFromCache file kvstore gs = (Returns (Some t), gs1) ->
  indexOneTry opts file kvstore gs
  = (Returns (if Phase.eqb (stopAfterPhase opts) Phase.DSL then emptyParsedFile file
              else mkParsedFile t file), gs1)
  /\ indexOneWithPlugins opts file kvstore gs
     = (Returns (if Phase.eqb (stopAfterPhase opts) Phase.DSL then emptyParsedFile file
                 else mkParsedFile t file, []), gs1).
Proof.
  intros Hfetch. unfold indexOneWithPlugins, try_catch, indexOneTry, indexOneWithPluginsTry, bind.
  rewrite Hfetch. by destruct (Phase.eqb _ _).
Qed.

(** A file at level [Ignore] that the cache does not serve is not
    parsed: both functions return the empty parsed file and leave the
    state as it was, so no phase has run. *)
Theorem ignored_file_is_not_parsed opts file kvstore gs :
  strictLevel (FileRef_data gs file) = StrictLevel.Ignore ->
  fetchTreeFromCache file kvstore gs = (Returns None, gs) ->
  indexOneTry opts file kvstore gs = (Returns (emptyParsedFile file), gs)
  /\ indexOneWithPlugins opts file kvstore gs = (Returns (emptyParsedFile file, []), gs).
Proof.
  intros Hlevel Hfetch.
  unfold indexOneWithPlugins, try_catch, indexOneTry, indexOneWithPluginsTry, bind.
  rewrite Hfetch. unfold get. rewrite Hlevel. done.
Qed.

Ltac phase_eqb :=
  repeat match goal with
         | |- context [Phase.eqb ?a ?b] =>
             let v := eval vm_compute in (Phase.eqb a b) in
             change (Phase.eqb a b) with v
         end.

Lemma fetchTreeFromCache_no_store file :
  returning (fetchTreeFromCache file None) (fun cached => cached = None).
Proof. by intros gs cached gs' [= <- _]. Qed.

Lemma early_stop_returning opts file kvstore :
  stopAfterPhase opts = Phase.DSL
  \/ (kvstore = None
      /\ (stopAfterPhase opts = Phase.PARSER \/ stopAfterPhase opts = Phase.DESUGARER
          \/ stopAfterPhase opts = Phase.LOCAL_VARS)) ->
  returning (indexOne opts file kvstore) (fun p => p = emptyParsedFile file)
  /\ returning (indexOneWithPlugins opts file kvstore) (fun r => r = emptyPluginFile file).
Proof.
  intros Hstop. split.
  - unfold indexOne. apply returning_bind. intros _.
    apply returning_try_catch; [|apply returning_bind; intros _; by apply returning_ret].
    unfold indexOneTry.
    destruct Hstop as [Hdsl|[-> Hstop]].
    + rewrite Hdsl. apply returning_bind. intros [t|]; phase_eqb; cbn; repeat returning_step; done.
    + eapply returning_bind_run; [apply fetchTreeFromCache_no_store|]. intros cached ->.
      destruct Hstop as [-> | [-> | ->]]; phase_eqb; cbn; repeat returning_step; done.
  - unfold indexOneWithPlugins.
    apply returning_try_catch; [|apply returning_bind; intros _; by apply returning_ret].
    unfold indexOneWithPluginsTry.
    destruct Hstop as [Hdsl|[-> Hstop]].
    + rewrite Hdsl. apply returning_bind. intros [t|]; phase_eqb; cbn; repeat returning_step; done.
    + eapply returning_bind_run; [apply fetchTreeFromCache_no_store|]. intros cached ->.
      destruct Hstop as [-> | [-> | ->]]; phase_eqb; cbn; repeat returning_step; done.
Qed.

Lemma try_catch_handled {A} (m : M A) l what header (a : A) gs :
  exists r gs', try_catch m (beginError l what header;; ret a) gs = (Returns r, gs').
Proof. unfold try_catch. destruct (m gs) as [[r|] gs1]; by eexists _, _. Qed.

(** With [stopAfterPhase] at [DSL], [indexOneWithPlugins] returns the
    empty tree and no plugin files for every file and every state,
    whatever the phases do (an exception of a phase is caught); so
    does [indexOne] once the check at its entry has passed.  With
    [PARSER], [DESUGARER] or [LOCAL_VARS] this holds when there is no
    store. *)
Theorem early_stop_returns_empty_tree opts file kvstore gs :
  stopAfterPhase opts = Phase.DSL
  \/ (kvstore = None
      /\ (stopAfterPhase opts = Phase.PARSER \/ stopAfterPhase opts = Phase.DESUGARER
          \/ stopAfterPhase opts = Phase.LOCAL_VARS)) ->
  (exists gs', indexOneWithPlugins opts file kvstore gs = (Returns (emptyPluginFile file), gs'))
  /\ (fst (indexOneEnforce opts file gs) = Returns tt ->
      exists gs', indexOne opts file kvstore gs = (Returns (emptyParsedFile file), gs')).
Proof.
  intros Hstop. destruct (early_stop_returning opts file kvstore Hstop) as [Hone Hplugins].
  split.
  - destruct (try_catch_handled (indexOneWithPluginsTry opts file kvstore) (Loc_none file)
                errors.Internal.InternalError internalErrorHeader (emptyPluginFile file) gs)
      as (r & gs' & Hrun).
    exists gs'. fold (indexOneWithPlugins opts file kvstore) in Hrun.
    by rewrite <- (Hplugins _ _ _ Hrun).
  - intros Henforce.
    destruct (indexOneEnforce opts file gs) as [[[]|] gsE] eqn:Hentry; [|discriminate Henforce].
    destruct (try_catch_handled (indexOneTry opts file kvstore) (Loc_none file)
                errors.Internal.InternalError internalErrorHeader (emptyParsedFile file) gsE)
      as (r & gs' & Hrun).
    assert (Hall : indexOne opts file kvstore gs = (Returns r, gs')).
    { unfold indexOne. by erewrite bind_run by exact Hentry. }
    exists gs'. by rewrite <- (Hone _ _ _ Hall).
Qed.
End Cache.

Section Ancestors.
Import Spec Notions.
Context `{B : Build} `{C : NamerCollaborators}.

Lemma isSelfReference_valid arg :
  isSelfReference arg = true -> NameInserter.isValidAncestor arg = true.
Proof. by destruct arg. Qed.

Lemma addAncestorArgs_run reversedArgs dest gs :
  NameInserter.addAncestorArgs "`{}` must only contain constant literals" reversedArgs dest gs
  = (Returns (dest ++ filter (fun a => keptAncestor a = true) reversedArgs),
     withErrors (errors_ gs
                 ++ (ancestorNotConstant
                       <$> filter (fun a => NameInserter.isValidAncestor a = false) reversedArgs))
                gs).
Proof.
  revert dest gs. induction reversedArgs as [|arg rest IH]; intros dest gs.
  - simpl. rewrite !app_nil_r. by destruct gs.
  - cbn [NameInserter.addAncestorArgs]. unfold keptAncestor at 1.
    destruct (isa_EmptyTree arg) eqn:Hempty.
    + rewrite IH. by destruct arg.
    + destruct (isSelfReference arg) eqn:Hself.
      * rewrite IH. pose proof (isSelfReference_valid _ Hself) as Hvalid.
        rewrite filter_cons_True by (unfold keptAncestor; by rewrite Hempty, Hvalid).
        rewrite filter_cons_False by congruence. by rewrite <- app_assoc.
      * destruct (NameInserter.isValidAncestor arg) eqn:Hvalid.
        -- rewrite IH.
           rewrite filter_cons_True by (unfold keptAncestor; by rewrite Hempty, Hvalid).
           rewrite filter_cons_False by congruence. by rewrite <- app_assoc.
        -- unfold bind, beginError, modify. rewrite IH. simpl.
           rewrite filter_cons_False by (unfold keptAncestor; by rewrite Hempty, Hvalid).
           rewrite filter_cons_True by done. rewrite fmap_cons, <- app_assoc. done.
Qed.

(** [include] and [extend] with [self] as receiver, at least one
    argument and no block: the statement is consumed ([true]); the
    arguments that are constants (or [self]) are appended to the
    ancestors ([include]) or to the singleton ancestors ([extend]) in
    reverse order of writing; every other argument is dropped and
    reported with one [AncestorNotConstant] diagnostic at its location;
    nothing else of the class or of the state changes. *)
Theorem addAncestor_appends_in_reverse klass loc recv fun_ args gs :
  NameRef_eqb fun_ Names.include || NameRef_eqb fun_ Names.extend = true ->
  isSelfReference recv = true ->
  args <> [] ->
  let kept := filter (fun a => keptAncestor a = true) (rev args) in
  let klass' :=
    if NameRef_eqb fun_ Names.include
    then mkClassDefNode (cd_loc klass) (cd_declLoc klass) (cd_symbol klass) (cd_kind klass)
                        (cd_name klass) (cd_ancestors klass ++ kept)
                        (cd_singletonAncestors klass) (cd_rhs klass)
    else mkClassDefNode (cd_loc klass) (cd_declLoc klass) (cd_symbol klass) (cd_kind klass)
                        (cd_name klass) (cd_ancestors klass)
                        (cd_singletonAncestors klass ++ kept) (cd_rhs klass) in
  NameInserter.addAncestor klass (Send loc recv fun_ args None) gs
  = (Returns (true, klass'),
     withErrors (errors_ gs
                 ++ (ancestorNotConstant
                       <$> filter (fun a => NameInserter.isValidAncestor a = false) (rev args)))
                gs).
Proof.
  intros Hfun Hself Hargs kept klass'. subst kept klass'.
  unfold NameInserter.addAncestor. rewrite Hself. cbn [negb].
  assert ((length args =? 0) = false) as ->.
  { apply Nat.eqb_neq. by destruct args. }
  destruct (NameRef_eqb fun_ Names.include) eqn:Hinclude; cbn [negb andb].
  - unfold bind. by rewrite addAncestorArgs_run.
  - rewrite orb_false_l in Hfun. rewrite Hfun. cbn [negb andb].
    unfold bind. by rewrite addAncestorArgs_run.
Qed.

(** The statements that [addAncestor] does not consume: it answers
    [false] and leaves the class as it is.  A call of another method,
    or with a receiver other than [self], is passed over without a
    diagnostic; [include] or [extend] without arguments, or with a
    block, gets one diagnostic ([IncludeMutipleParam],
    [IncludePassedBlock]). *)
Theorem addAncestor_rejects klass loc recv fun_ args block gs :
  let included := NameRef_eqb fun_ Names.include || NameRef_eqb fun_ Names.extend in
  (included = false \/ isSelfReference recv = false ->
   NameInserter.addAncestor klass (Send loc recv fun_ args block) gs = (Returns (false, klass), gs))
  /\ (included = true -> isSelfReference recv = true -> args = [] ->
      NameInserter.addAncestor klass (Send loc recv fun_ args block) gs
      = (Returns (false, klass),
         withErrors (errors_ gs ++ [mkError loc errors.Namer.IncludeMutipleParam
                                            "`{}` requires at least one argument"]) gs))
  /\ (included = true -> isSelfReference recv = true -> args <> [] -> block <> None ->
      NameInserter.addAncestor klass (Send loc recv fun_ args block) gs
      = (Returns (false, klass),
         withErrors (errors_ gs ++ [mkError loc errors.Namer.IncludePassedBlock
                                            "`{}` can not be passed a block"]) gs)).
Proof.
  intros included. subst included. unfold NameInserter.addAncestor. split_and!.
  - intros [Hfun|Hself].
    + apply orb_false_iff in Hfun as [-> ->]. done.
    + rewrite Hself. by destruct (negb _ && negb _).
  - intros Hfun Hself ->. rewrite Hself.
    assert (negb (NameRef_eqb fun_ Names.include) && negb (NameRef_eqb fun_ Names.extend)
            = false) as ->.
    { by destruct (NameRef_eqb fun_ Names.include), (NameRef_eqb fun_ Names.extend). }
    done.
  - intros Hfun Hself Hargs Hblock. rewrite Hself.
    assert (negb (NameRef_eqb fun_ Names.include) && negb (NameRef_eqb fun_ Names.extend)
            = false) as ->.
    { by destruct (NameRef_eqb fun_ Names.include), (NameRef_eqb fun_ Names.extend). }
    assert ((length args =? 0) = false) as ->.
    { apply Nat.eqb_neq. by destruct args. }
    by destruct block.
Qed.
End Ancestors.

Section MethodDefsAgain.
Import Spec Notions.
Context `{B : Build} `{C : NamerCollaborators}.

(** The arguments of a symbol after [fillInArgs] has gone over parsed
    arguments that the symbol already has: each argument gets the
    location of the parsed one. *)
Fixpoint relocateArgs (i : nat) (parsedArgs : list ParsedArg) (args : list ArgInfo)
  : list ArgInfo :=
  match parsedArgs with
  | [] => args
  | parsedArg :: rest =>
      relocateArgs (S i) rest
                   (alter (fun a => mkArgInfo (arg_name a) (pa_loc parsedArg) (arg_flags a)) i args)
  end.

#[local] Instance sameArg_preorder : PreOrder sameArg.
Proof.
  split; [by intros a|]. intros a b c [? ?] [? ?]. unfold sameArg. split; congruence.
Qed.

Lemma relocateArgs_same i parsedArgs args :
  Forall2 sameArg args (relocateArgs i parsedArgs args).
Proof.
  revert i args. induction parsedArgs as [|p rest IH]; intros i args; simpl.
  - reflexivity.
  - etrans; [|apply IH].
    apply Forall2_same_length_lookup. split; [by rewrite length_alter|].
    intros j a a' H1 H2. destruct (decide (i = j)) as [<-|Hne].
    + rewrite list_lookup_alter_eq, H1 in H2. simpl in H2. injection H2 as <-. by split.
    + rewrite list_lookup_alter_ne, H1 in H2 by done. injection H2 as <-. by split.
Qed.

Lemma relocateArgs_length i parsedArgs args :
  length (relocateArgs i parsedArgs args) = length args.
Proof. symmetry. eapply Forall2_length, relocateArgs_same. Qed.

Lemma withSymbols_id gs : withSymbols (symbols gs) gs = gs.
Proof. by destruct gs. Qed.

Lemma set_arguments_id d : set_arguments (sym_arguments d) d = d.
Proof. by destruct d. Qed.

Lemma alter_insert_lookup {A} (f : A -> A) (l : list A) i x :
  l !! i = Some x -> alter f i l = <[i:=f x]> l.
Proof.
  intros Hx. apply list_eq. intros j. destruct (decide (i = j)) as [<-|Hne].
  - rewrite list_lookup_alter_eq, Hx, list_lookup_insert_eq by (by eapply lookup_lt_Some). done.
  - by rewrite list_lookup_alter_ne, list_lookup_insert_ne.
Qed.

Lemma withSymbol_lookup s d' gs :
  s < length (symbols gs) -> symbols (withSymbol s d' gs) !! s = Some d'.
Proof. intros Hlt. unfold withSymbol. simpl. by rewrite list_lookup_insert_eq. Qed.

Lemma withSymbol_withSymbol s d1 d2 gs :
  withSymbol s d2 (withSymbol s d1 gs) = withSymbol s d2 gs.
Proof. unfold withSymbol, withSymbols. simpl. by rewrite list_insert_insert_eq. Qed.

Lemma withSymbol_id s d gs : symbols gs !! s = Some d -> withSymbol s d gs = gs.
Proof. intros Hd. unfold withSymbol. rewrite list_insert_id by done. apply withSymbols_id. Qed.

Lemma updSymbol_withSymbol s f gs d :
  symbols gs !! s = Some d -> updSymbol s f gs = (Returns tt, withSymbol s (f d) gs).
Proof.
  intros Hd. rewrite (updSymbol_run _ _ _ _ Hd). unfold withSymbol.
  by rewrite (alter_insert_lookup _ _ _ _ Hd).
Qed.

(** [fillInArgs] over a symbol that has an argument for every parsed
    one: only the locations of the arguments change. *)
Lemma fillInArgsLoop_existing owner swappedArg parsedArgs :
  forall i args gs d,
    symbols gs !! owner = Some d ->
    Forall (fun p => pa_shadow p = false) parsedArgs ->
    i + length parsedArgs <= length (sym_arguments d) ->
    NameInserter.fillInArgsLoop owner false swappedArg parsedArgs i false args gs
    = (Returns (args ++ ((fun p => Local (pa_loc p) (pa_local p)) <$> parsedArgs)),
       withSymbol owner (set_arguments (relocateArgs i parsedArgs (sym_arguments d)) d) gs).
Proof.
  induction parsedArgs as [|p rest IH]; intros i args gs d Hd Hshadow Hlen.
  - simpl. rewrite app_nil_r, set_arguments_id, withSymbol_id by done. done.
  - apply Forall_cons in Hshadow as [Hp Hrest]. simpl in Hlen.
    cbn [NameInserter.fillInArgsLoop]. rewrite Hp.
    erewrite bind_run by (by apply ENFORCE_true).
    cbn [andb whenM]. erewrite bind_run by reflexivity.
    assert (Hlt : i < length (sym_arguments d)) by lia.
    assert (Howner : owner < length (symbols gs)) by (by eapply lookup_lt_Some).
    set (d1 := set_arguments (alter (fun a => mkArgInfo (arg_name a) (pa_loc p) (arg_flags a))
                                    i (sym_arguments d)) d).
    assert (Harg : NameInserter.arg2Symbol owner i p gs
                   = (Returns (Local (pa_loc p) (pa_local p)), withSymbol owner d1 gs)).
    { unfold NameInserter.arg2Symbol. erewrite bind_run by (by apply symData_run).
      apply Nat.ltb_lt in Hlt. rewrite Hlt.
      erewrite bind_run by (by apply updSymbol_withSymbol). done. }
    erewrite bind_run by exact Harg.
    pose proof (withSymbol_lookup owner d1 gs Howner) as Hd1.
    erewrite bind_run by (by apply symData_run).
    erewrite bind_run by (apply ENFORCE_true; subst d1; simpl; rewrite length_alter;
                          by apply Nat.ltb_lt).
    rewrite (IH (S i) _ _ d1 Hd1 Hrest) by (subst d1; simpl; rewrite length_alter; lia).
    rewrite withSymbol_withSymbol. subst d1. simpl. rewrite <- app_assoc. done.
Qed.

Lemma fillInArgs_existing owner parsedArgs gs d :
  symbols gs !! owner = Some d ->
  intrinsicStub d && (length (sym_arguments d) =? 1) = false ->
  Forall (fun p => pa_shadow p = false) parsedArgs ->
  length parsedArgs <= length (sym_arguments d) ->
  NameInserter.fillInArgs owner parsedArgs gs
  = (Returns ((fun p => Local (pa_loc p) (pa_local p)) <$> parsedArgs),
     withSymbol owner (set_arguments (relocateArgs 0 parsedArgs (sym_arguments d)) d) gs).
Proof.
  intros Hd Hswap Hshadow Hlen. unfold NameInserter.fillInArgs.
  erewrite bind_run by (by apply isIntrinsic_run).
  erewrite bind_run by (by apply symData_run).
  rewrite Hswap. by apply fillInArgsLoop_existing.
Qed.

Lemma Symbol_addLoc_fields l d :
  sym_arguments (Symbol_addLoc l d) = sym_arguments d
  /\ sym_intrinsic (Symbol_addLoc l d) = sym_intrinsic d
  /\ sym_resultType (Symbol_addLoc l d) = sym_resultType d
  /\ sym_flags (Symbol_addLoc l d) = sym_flags d.
Proof.
  unfold Symbol_addLoc. destruct (loc_file l =? FileRef_none); [done|].
  by destruct (replaceLocOfFile l (sym_locs d)).
Qed.

Lemma preTransformMethodDef_member_run gs st ctxOwner method owner sym d :
  definesMember gs ctxOwner method owner sym d ->
  NameInserter.preTransformMethodDef st ctxOwner method gs
  = (let st := NameInserter.enterScope st in
     let parsedArgs := parseArgs gs (md_args method) in
     if bool_decide (md_declLoc method = Symbol_loc d) then
       args <- NameInserter.fillInArgs sym parsedArgs;;
       ret (st, NameInserter.withSymbolAndArgs method sym args)
     else
       intrinsic <- NameInserter.isIntrinsic sym;;
       matches <- (if intrinsic : bool then ret true
                   else NameInserter.paramsMatch sym (md_declLoc method) parsedArgs);;
       (if matches : bool
        then updSymbol sym (Symbol_addLoc (md_declLoc method))
        else mangleRenameSymbol sym (md_name method));;
       symbol <- enterMethodSymbol (md_declLoc method) owner (md_name method);;
       fillFresh st method symbol parsedArgs) gs.
Proof.
  intros (Howner & (ownerData & Hod & Hclass & Hmem) & Hex & Hd & _).
  unfold NameInserter.preTransformMethodDef.
  rewrite (resolveOwner_run gs ctxOwner method owner _ Howner).
  erewrite bind_run by (by apply symData_run).
  erewrite bind_run by (by apply ENFORCE_true).
  erewrite bind_run by reflexivity.
  unfold findMemberNoDealias. rewrite Hmem. cbv [from_option id].
  assert (SymbolRef_exists sym = true) as ->
    by (unfold SymbolRef_exists; apply negb_true_iff, Nat.eqb_neq; done).
  erewrite bind_run by (by apply symData_run).
  reflexivity.
Qed.

(** Naming the same definition again (the declaration is at the
    location the symbol already has, as when a file is parsed again):
    the symbol is kept, no symbol is entered, nothing is reported or
    renamed; the arguments keep their names and flags and take the
    locations of the parsed ones. *)
Theorem preTransformMethodDef_same_definition gs st ctxOwner method owner sym d :
  definesMember gs ctxOwner method owner sym d ->
  md_declLoc method = Symbol_loc d ->
  intrinsicStub d && (length (sym_arguments d) =? 1) = false ->
  length (parseArgs gs (md_args method)) <= length (sym_arguments d) ->
  exists args',
    Forall2 sameArg (sym_arguments d) args'
    /\ NameInserter.preTransformMethodDef st ctxOwner method gs
       = (Returns (NameInserter.enterScope st,
                   NameInserter.withSymbolAndArgs method sym
                     (argLocals (parseArgs gs (md_args method)))),
          withSymbol sym (set_arguments args' d) gs).
Proof.
  intros Hdef Hloc Hswap Hlen.
  rewrite (preTransformMethodDef_member_run _ _ _ _ _ _ _ Hdef).
  destruct Hdef as (_ & _ & _ & Hd & Hshadow).
  exists (relocateArgs 0 (parseArgs gs (md_args method)) (sym_arguments d)).
  split; [apply relocateArgs_same|].
  cbv zeta. rewrite bool_decide_eq_true_2 by done.
  erewrite bind_run by (by apply fillInArgs_existing). done.
Qed.

(** A second definition with the same argument shape, at another
    location: no diagnostic, no renaming and no new symbol; the prior
    symbol becomes the symbol of the definition and gets the location
    added; its arguments keep their names and flags. *)
Theorem preTransformMethodDef_same_shape gs st ctxOwner method owner sym d :
  definesMember gs ctxOwner method owner sym d ->
  md_declLoc method <> Symbol_loc d ->
  intrinsicStub d = false ->
  dealias gs sym = sym ->
  sameShape (sym_arguments d) (parseArgs gs (md_args method)) = true ->
  exists args',
    Forall2 sameArg (sym_arguments d) args'
    /\ NameInserter.preTransformMethodDef st ctxOwner method gs
       = (Returns (NameInserter.enterScope st,
                   NameInserter.withSymbolAndArgs method sym
                     (argLocals (parseArgs gs (md_args method)))),
          withSymbol sym
            ((if md_isDSLSynthesized method then Symbol_setDSLSynthesized else id)
               (Symbol_addLoc (md_declLoc method)
                  (set_arguments args' (Symbol_addLoc (md_declLoc method) d)))) gs).
Proof.
  intros Hdef Hloc Hintr Hdealias Hshape.
  rewrite (preTransformMethodDef_member_run _ _ _ _ _ _ _ Hdef).
  destruct Hdef as (_ & (ownerData & Hod & _ & Hmem) & _ & Hd & Hshadow).
  set (parsedArgs := parseArgs gs (md_args method)) in *.
  set (d1 := Symbol_addLoc (md_declLoc method) d).
  exists (relocateArgs 0 parsedArgs (sym_arguments d1)).
  destruct (Symbol_addLoc_fields (md_declLoc method) d) as (Hargs1 & Hi1 & Hr1 & _).
  split; [fold d1 in Hargs1; rewrite Hargs1; apply relocateArgs_same|].
  cbv zeta. rewrite bool_decide_eq_false_2 by done.
  erewrite bind_run by (by apply isIntrinsic_run). rewrite Hintr.
  destruct (paramsMatch_run sym (md_declLoc method) parsedArgs gs d) as (gs0 & Hpm & Hgs0);
    [by rewrite Hdealias|].
  rewrite Hshape in Hpm, Hgs0. subst gs0.
  erewrite bind_run by exact Hpm.
  erewrite bind_run by (by apply updSymbol_withSymbol). fold d1.
  assert (Hsym : sym < length (symbols gs)) by (by eapply lookup_lt_Some).
  pose proof (withSymbol_lookup sym d1 gs Hsym) as Hd1.
  assert (Hod1 : exists od1, symbols (withSymbol sym d1 gs) !! owner = Some od1
                             /\ sym_members od1 = sym_members ownerData).
  { destruct (decide (owner = sym)) as [->|Hne].
    - exists d1. split; [done|]. rewrite Hod in Hd. injection Hd as ->.
      apply (Symbol_addLoc_core (md_declLoc method) d).
    - exists ownerData. split; [|done]. unfold withSymbol. simpl.
      by rewrite list_lookup_insert_ne. }
  destruct Hod1 as (od1 & Hod1 & Hmem1).
  assert (Henter : enterMethodSymbol (md_declLoc method) owner (md_name method)
                                     (withSymbol sym d1 gs)
                   = (Returns sym, withSymbol sym d1 gs)).
  { unfold enterMethodSymbol, enterSymbol.
    erewrite bind_run by (by apply symData_run). by rewrite Hmem1, Hmem. }
  erewrite bind_run by exact Henter.
  unfold fillFresh.
  apply andb_true_iff in Hshape as [Hlen _]. apply Nat.eqb_eq in Hlen.
  erewrite bind_run; cycle 1.
  { apply (fillInArgs_existing sym parsedArgs _ d1 Hd1); [|done|].
    - unfold intrinsicStub in *. fold d1 in Hi1, Hr1. by rewrite Hi1, Hr1, Hintr.
    - fold d1 in Hargs1. rewrite Hargs1. lia. }
  rewrite withSymbol_withSymbol.
  set (d2 := set_arguments _ d1).
  pose proof (withSymbol_lookup sym d2 gs Hsym) as Hd2.
  erewrite bind_run by (by apply updSymbol_withSymbol).
  rewrite withSymbol_withSymbol.
  set (d3 := Symbol_addLoc _ d2).
  pose proof (withSymbol_lookup sym d3 gs Hsym) as Hd3.
  destruct (md_isDSLSynthesized method); cbn [whenM].
  - erewrite bind_run by (by apply updSymbol_withSymbol).
    rewrite withSymbol_withSymbol. done.
  - done.
Qed.

(** What [paramsMatch] decides: it answers whether the dealiased symbol
    has as many arguments as were parsed and each pair agrees on the
    keyword, block and repeated flags and, for keyword arguments, on the
    name (the names of positional arguments do not count); it reports
    exactly one [RedefinitionOfMethod] diagnostic, on [loc], when the
    answer is no, and touches nothing else. *)
Theorem paramsMatch_decides owner loc parsedArgs gs dealiased :
  symbols gs !! dealias gs owner = Some dealiased ->
  exists gs',
    NameInserter.paramsMatch owner loc parsedArgs gs
    = (Returns (sameShape (sym_arguments dealiased) parsedArgs), gs')
    /\ symbols gs' = symbols gs /\ names gs' = names gs /\ files gs' = files gs
    /\ exists header,
        emitted gs gs'
        = if sameShape (sym_arguments dealiased) parsedArgs then []
          else [mkError loc errors.Namer.RedefinitionOfMethod header].
Proof.
  intros Hd. destruct (paramsMatch_run owner loc parsedArgs gs dealiased Hd) as (gs' & Hrun & Hgs').
  exists gs'. split; [done|]. unfold emitted.
  destruct (sameShape _ _).
  - subst gs'. split_and!; try done. exists "". by rewrite drop_all.
  - destruct Hgs' as [header ->]. split_and!; try done. exists header. simpl.
    by rewrite drop_app_length.
Qed.
End MethodDefsAgain.

#[local] Instance symbolsGrow_preorder : PreOrder Notions.symbolsGrow.
Proof.
  split.
  - intros gs s d Hd. by exists d.
  - intros a b c Hab Hbc s d Hd.
    destruct (Hab s d Hd) as (d1 & Hd1 & Hk1 & Hm1).
    destruct (Hbc s d1 Hd1) as (d2 & Hd2 & Hk2 & Hm2).
    exists d2. split; [done|]. split; [congruence|]. by etrans.
Qed.

Section SquashNames.
Import Spec Notions.
Context `{B : Build} `{C : NamerCollaborators}.

Lemma symbolsGrow_names ns gs : symbolsGrow gs (withNames ns gs).
Proof. intros s d Hd. by exists d. Qed.

Lemma symbolsGrow_errors es gs : symbolsGrow gs (withErrors es gs).
Proof. intros s d Hd. by exists d. Qed.

(** Entering a member under [owner] with a fresh symbol [data]. *)
Lemma symbolsGrow_enter gs owner key data :
  (forall od, symbols gs !! owner = Some od -> sym_members od !! key = None) ->
  symbolsGrow gs (withSymbols (alter (fun o => set_members (<[key := length (symbols gs)]>
                                                               (sym_members o)) o)
                                     owner (symbols gs) ++ [data]) gs).
Proof.
  intros Hnone s d Hd. simpl.
  assert (Hs : s < length (symbols gs)) by (by eapply lookup_lt_Some).
  rewrite lookup_app_l by (by rewrite length_alter).
  destruct (decide (owner = s)) as [->|Hne].
  - rewrite list_lookup_alter_eq, Hd. simpl. eexists. split; [done|]. split; [done|].
    simpl. apply insert_subseteq. by apply Hnone.
  - rewrite list_lookup_alter_ne by done. by exists d.
Qed.

Lemma enterSymbol_grows l owner name k gs e gs1 :
  enterSymbol l owner name k gs = (Returns e, gs1) ->
  symbolsGrow gs gs1 /\ errors_ gs1 = errors_ gs
  /\ exists od1, symbols gs1 !! owner = Some od1 /\ sym_members od1 !! _id name = Some e.
Proof.
  unfold enterSymbol, bind, symData.
  destruct (symbols gs !! owner) as [od|] eqn:Hod; [|done].
  destruct (sym_members od !! _id name) as [existing|] eqn:Hmem.
  - intros [= <- <-]. split; [reflexivity|]. split; [done|]. by exists od.
  - intros [= <- <-]. split; [|split; [done|]].
    + apply symbolsGrow_enter. intros od' Hod'. by simplify_eq.
    + simpl. assert (Ho : owner < length (symbols gs)) by (by eapply lookup_lt_Some).
      rewrite lookup_app_l by (by rewrite length_alter).
      rewrite list_lookup_alter_eq, Hod. simpl. eexists. split; [done|]. simpl.
      by rewrite lookup_insert_eq.
Qed.

Lemma singletonClass_grows s gs r gs1 :
  singletonClass s gs = (Returns r, gs1) ->
  symbolsGrow gs gs1 /\ errors_ gs1 = errors_ gs
  /\ exists d1, symbols gs1 !! s = Some d1 /\ sym_members d1 !! _id Names.singleton = Some r.
Proof.
  unfold singletonClass, bind, symData.
  destruct (symbols gs !! s) as [d|] eqn:Hd; [|done].
  destruct (sym_members d !! _id Names.singleton) as [existing|] eqn:Hmem.
  - intros [= <- <-]. split; [reflexivity|]. split; [done|]. by exists d.
  - destruct (enterName_run (UNIQUE Singleton 1 (sym_name d)) gs)
      as (name & gsN & Hname & Hsyms & Herrs & _ & _ & _).
    unfold freshNameUnique. rewrite Hname. unfold get, modify, ret.
    intros [= <- <-]. rewrite <- Hsyms in Hd.
    split; [|split; [done|]].
    + etrans; [|apply symbolsGrow_enter; intros od' Hod'; by simplify_eq].
      intros s' d' Hd'. rewrite <- Hsyms in Hd'. by exists d'.
    + simpl. assert (Ho : s < length (symbols gsN)) by (by eapply lookup_lt_Some).
      rewrite lookup_app_l by (by rewrite length_alter).
      rewrite list_lookup_alter_eq, Hd. simpl. eexists. split; [done|]. simpl.
      by rewrite lookup_insert_eq.
Qed.

Lemma enterSymbol_found l owner name k gs od e :
  symbols gs !! owner = Some od -> sym_members od !! _id name = Some e ->
  enterSymbol l owner name k gs = (Returns e, gs).
Proof. intros Hod Hmem. unfold enterSymbol, bind. by rewrite (symData_run _ _ _ Hod), Hmem. Qed.

Lemma singletonClass_found s gs d r :
  symbols gs !! s = Some d -> sym_members d !! _id Names.singleton = Some r ->
  singletonClass s gs = (Returns r, gs).
Proof. intros Hd Hmem. unfold singletonClass, bind. by rewrite (symData_run _ _ _ Hd), Hmem. Qed.

Lemma symData_returns s gs d gs' :
  symData s gs = (Returns d, gs') -> gs' = gs /\ symbols gs !! s = Some d.
Proof. unfold symData. destruct (symbols gs !! s); [|done]. by intros [= <- <-]. Qed.

(** [squashNames] keeps the symbols and their members and only adds
    diagnostics. *)
Lemma squashNames_grows node :
  forall owner gs r gs1,
    NameInserter.squashNames owner node gs = (Returns r, gs1) ->
    symbolsGrow gs gs1 /\ exists es, errors_ gs1 = errors_ gs ++ es.
Proof.
  induction node; intros owner gs r gs1 Hrun; cbn [NameInserter.squashNames] in Hrun;
    try (revert Hrun; unfold bind, beginError, modify, ret;
         repeat match goal with |- context [if ?c then _ else _] => destruct c end;
         intros [= <- <-];
         (split; [first [reflexivity | apply symbolsGrow_errors]
                 |first [exists []; by rewrite app_nil_r | by eexists]])).
  - (* UnresolvedConstantLit *)
    apply bind_returns_inv in Hrun as ([newOwner scope'] & gsA & Hrec & Hrun).
    destruct (IHnode _ _ _ _ Hrec) as (Hgrow & es & Herrs).
    apply bind_returns_inv in Hrun as (d & gsA' & Hd & Hrun).
    apply symData_returns in Hd as [-> Hd].
    apply bind_returns_inv in Hrun as (gsA' & gsA'' & Hget & Hrun).
    injection Hget as <- <-.
    destruct (SymbolRef_exists _).
    + injection Hrun as <- <-. split; [done|]. by exists es.
    + destruct (negb _).
      * revert Hrun. unfold bind, beginError, modify, ret. intros [= <- <-].
        split; [by etrans; [|apply symbolsGrow_errors]|].
        simpl. rewrite Herrs, <- app_assoc. by eexists.
      * apply bind_returns_inv in Hrun as (e & gsB & Henter & Hrun).
        apply enterSymbol_grows in Henter as (Hg1 & He1 & _).
        apply bind_returns_inv in Hrun as (sing & gsC & Hsing & Hrun).
        apply singletonClass_grows in Hsing as (Hg2 & He2 & _).
        injection Hrun as <- <-. split; [by etrans; [|etrans]|].
        exists es. congruence.
  - (* ConstantLit *)
    apply bind_returns_inv in Hrun as (d & gsA & Hd & Hrun).
    apply symData_returns in Hd as [-> _].
    revert Hrun. unfold bind, get, ret. intros [= <- <-]. split; [reflexivity|].
    exists []. by rewrite app_nil_r.
  - (* UnresolvedIdent *)
    revert Hrun. unfold bind, whenM, beginError, modify, ret.
    destruct (_ || _); intros [= <- <-].
    + split; [apply symbolsGrow_errors|]. by eexists.
    + split; [reflexivity|]. exists []. by rewrite app_nil_r.
Qed.

Lemma errors_unchanged (es more : list Error) : es ++ more = es -> more = [].
Proof.
  intros Heq. apply (f_equal length) in Heq. rewrite length_app in Heq.
  apply nil_length_inv. lia.
Qed.

Lemma symbolsGrow_lookup gs gs' s d key v :
  symbolsGrow gs gs' -> symbols gs !! s = Some d -> sym_members d !! key = Some v ->
  exists d', symbols gs' !! s = Some d' /\ sym_kind d' = sym_kind d
             /\ sym_members d' !! key = Some v.
Proof.
  intros Hgrow Hd Hkey. destruct (Hgrow s d Hd) as (d' & Hd' & Hkind & Hsub).
  exists d'. split; [done|]. split; [done|]. by eapply lookup_weaken.
Qed.

(** Where there are no aliases, a constant path that [squashNames] has
    resolved without a diagnostic resolves to the same symbol and the
    same node in every later state, and leaves that state as it is. *)
Lemma squashNames_stable node :
  (forall gs s, dealias gs s = s) ->
  forall owner gs sym node' gs1,
    NameInserter.squashNames owner node gs = (Returns (sym, node'), gs1) ->
    errors_ gs1 = errors_ gs ->
    forall gs2, symbolsGrow gs1 gs2 ->
                NameInserter.squashNames owner node gs2 = (Returns (sym, node'), gs2).
Proof.
  intros Hnoalias.
  induction node; intros owner gs sym node' gs1 Hrun Herrs gs2 Hgrow;
    cbn [NameInserter.squashNames] in Hrun |- *;
    try (revert Hrun; unfold bind, beginError, modify, ret;
         repeat match goal with |- context [if ?c then _ else _] => destruct c end;
         intros [= <- <- <-]; first [done | simpl in Herrs; exfalso;
                                           apply (f_equal length) in Herrs;
                                           rewrite length_app in Herrs; simpl in Herrs; lia]).
  - (* UnresolvedConstantLit *)
    apply bind_returns_inv in Hrun as ([newOwner scope'] & gsA & Hrec & Hrun).
    destruct (squashNames_grows _ _ _ _ _ Hrec) as (HgrowA & esA & HerrsA).
    apply bind_returns_inv in Hrun as (d & gsA' & Hd & Hrun).
    apply symData_returns in Hd as [-> Hd].
    apply bind_returns_inv in Hrun as (gsA' & gsA'' & Hget & Hrun).
    injection Hget as <- <-.
    unfold NameInserter.findMember, findMemberNoDealias in Hrun.
    rewrite Hnoalias in Hrun.
    assert (Hexists : forall m : SymbolRef,
               (if SymbolRef_exists m then m else m) = m) by (intros m; by destruct (SymbolRef_exists m)).
    rewrite Hexists in Hrun.
    assert (Hsecond : forall d2 e,
               symbols gs2 !! newOwner = Some d2 -> sym_kind d2 = sym_kind d ->
               sym_members d2 !! _id cnst = Some e ->
               NameInserter.findMember gs2 d2 cnst = e).
    { intros d2 e _ _ He. unfold NameInserter.findMember, findMemberNoDealias.
      rewrite He, Hnoalias. simpl. by destruct (SymbolRef_exists e). }
    destruct (sym_members d !! _id cnst) as [m|] eqn:Hmem; cbv [default from_option id] in Hrun.
    + (* the scope has a member of that name *)
      destruct (SymbolRef_exists m) eqn:Hm.
      * injection Hrun as <- <- <-.
        rewrite HerrsA in Herrs. apply errors_unchanged in Herrs as ->.
        rewrite app_nil_r in HerrsA.
        erewrite bind_run by (eapply IHnode; [exact Hrec|done|done]).
        destruct (symbolsGrow_lookup _ _ _ _ _ _ Hgrow Hd Hmem) as (d2 & Hd2 & Hk2 & Hm2).
        erewrite bind_run by (by apply symData_run).
        erewrite bind_run by reflexivity.
        rewrite (Hsecond d2 m Hd2 Hk2 Hm2), Hm. done.
      * destruct (negb (Symbol_isClass d)) eqn:Hclass.
        -- revert Hrun. unfold bind, beginError, modify, ret. intros [= <- <- <-].
           simpl in Herrs. rewrite HerrsA, <- app_assoc in Herrs.
           apply errors_unchanged in Herrs. by destruct esA.
        -- apply bind_returns_inv in Hrun as (e & gsB & Henter & Hrun).
           unfold enterClassSymbol in Henter.
           rewrite (enterSymbol_found _ _ _ _ _ _ _ Hd Hmem) in Henter.
           injection Henter as <- <-.
           apply bind_returns_inv in Hrun as (sing & gsC & Hsing & Hrun).
           injection Hrun as <- <- <-.
           destruct (singletonClass_grows _ _ _ _ Hsing) as (HgrowC & HerrsC & ds & Hds & Hsingleton).
           rewrite HerrsC, HerrsA in Herrs. apply errors_unchanged in Herrs as ->.
           rewrite app_nil_r in HerrsA.
           erewrite bind_run
             by (eapply IHnode; [exact Hrec|done|by etrans]).
           destruct (HgrowC _ _ Hd) as (d1 & Hd1 & Hk1 & Hsub1).
           pose proof (lookup_weaken _ _ _ _ Hmem Hsub1) as Hmem1.
           destruct (symbolsGrow_lookup _ _ _ _ _ _ Hgrow Hd1 Hmem1) as (d2 & Hd2 & Hk2 & Hm2).
           erewrite bind_run by (by apply symData_run).
           erewrite bind_run by reflexivity.
           rewrite (Hsecond d2 m Hd2 (eq_trans Hk2 Hk1) Hm2), Hm.
           unfold Symbol_isClass in *. rewrite Hk2, Hk1, Hclass.
           erewrite bind_run by (by eapply enterSymbol_found).
           destruct (symbolsGrow_lookup _ _ _ _ _ _ Hgrow Hds Hsingleton) as (ds2 & Hds2 & _ & Hs2).
           erewrite bind_run by (by eapply singletonClass_found). done.
    + (* the name is new in the scope *)
      change (SymbolRef_exists Symbols.noSymbol) with false in Hrun. cbv iota in Hrun.
      destruct (negb (Symbol_isClass d)) eqn:Hclass.
      * revert Hrun. unfold bind, beginError, modify, ret. intros [= <- <- <-].
        simpl in Herrs. rewrite HerrsA, <- app_assoc in Herrs.
        apply errors_unchanged in Herrs. by destruct esA.
      * apply bind_returns_inv in Hrun as (e & gsB & Henter & Hrun).
        destruct (enterSymbol_grows _ _ _ _ _ _ _ Henter) as (HgrowB & HerrsB & dB & HdB & HmemB).
        apply bind_returns_inv in Hrun as (sing & gsC & Hsing & Hrun).
        injection Hrun as <- <- <-.
        destruct (singletonClass_grows _ _ _ _ Hsing) as (HgrowC & HerrsC & ds & Hds & Hsingleton).
        rewrite HerrsC, HerrsB, HerrsA in Herrs.
        apply errors_unchanged in Herrs as ->. rewrite app_nil_r in HerrsA.
        erewrite bind_run
          by (eapply IHnode; [exact Hrec|done|by etrans; [|etrans]]).
        destruct (symbolsGrow_lookup _ _ _ _ _ _ HgrowC HdB HmemB) as (d1 & Hd1 & Hk1 & Hmem1).
        destruct (symbolsGrow_lookup _ _ _ _ _ _ Hgrow Hd1 Hmem1) as (d2 & Hd2 & Hk2 & Hm2).
        destruct (HgrowB _ _ Hd) as (dB' & HdB' & HkB & _). rewrite HdB in HdB'.
        injection HdB' as <-.
        erewrite bind_run by (by apply symData_run).
        erewrite bind_run by reflexivity.
        assert (Hkind : sym_kind d2 = sym_kind d) by congruence.
        rewrite (Hsecond d2 e Hd2 Hkind Hm2).
        destruct (SymbolRef_exists e) eqn:He; [done|].
        unfold Symbol_isClass in *. rewrite Hkind, Hclass.
        erewrite bind_run by (by eapply enterSymbol_found).
        destruct (symbolsGrow_lookup _ _ _ _ _ _ Hgrow Hds Hsingleton) as (ds2 & Hds2 & _ & Hs2).
        erewrite bind_run by (by eapply singletonClass_found). done.
  - (* ConstantLit *)
    apply bind_returns_inv in Hrun as (d & gsA & Hd & Hrun).
    apply symData_returns in Hd as [-> Hd].
    unfold bind, get, ret in Hrun. rewrite Hnoalias in Hrun. injection Hrun as <- <- <-.
    destruct (Hgrow _ _ Hd) as (d2 & Hd2 & _).
    erewrite bind_run by (by apply symData_run). unfold bind, get, ret. by rewrite Hnoalias.
  - (* UnresolvedIdent *)
    revert Hrun. unfold bind, whenM, beginError, modify, ret.
    destruct (_ || _); intros [= <- <- <-]; [|done].
    simpl in Herrs. exfalso. apply (f_equal length) in Herrs.
    rewrite length_app in Herrs. simpl in Herrs. lia.
Qed.

(** Resolving a constant path a second time: where there are no
    aliases, a path that [squashNames] has resolved without a diagnostic
    resolves again to the same symbol and the same node, and the second
    call enters nothing and reports nothing. *)
Theorem squashNames_again owner node gs sym node' gs' :
  (forall gs s, dealias gs s = s) ->
  NameInserter.squashNames owner node gs = (Returns (sym, node'), gs') ->
  errors_ gs' = errors_ gs ->
  NameInserter.squashNames owner node gs' = (Returns (sym, node'), gs').
Proof. intros Hnoalias Hrun Herrs. by eapply squashNames_stable. Qed.

(** A constant that is new in a class scope: [squashNames] enters a
    class symbol of that name under the scope and forces its singleton
    class into existence, so the table grows by these two symbols; the
    node becomes a [ConstantLit] for the new symbol and nothing is
    reported. *)
Theorem squashNames_enters_class owner loc cnst gs od :
  symbols gs !! owner = Some od ->
  Symbol_isClass od = true ->
  sym_members od !! _id cnst = None ->
  let fresh := length (symbols gs) in
  exists gs',
    NameInserter.squashNames owner (UnresolvedConstantLit loc EmptyTree cnst) gs
    = (Returns (fresh, ConstantLit loc fresh (UnresolvedConstantLit loc EmptyTree cnst)), gs')
    /\ errors_ gs' = errors_ gs
    /\ length (symbols gs') = fresh + 2
    /\ (exists od', symbols gs' !! owner = Some od'
                    /\ sym_members od' = <[_id cnst := fresh]> (sym_members od))
    /\ (exists d, symbols gs' !! fresh = Some d
                  /\ sym_kind d = KClass /\ sym_owner d = owner /\ sym_name d = cnst
                  /\ sym_members d !! _id Names.singleton = Some (S fresh))
    /\ (exists ds, symbols gs' !! S fresh = Some ds
                   /\ sym_kind ds = KClass /\ sym_owner ds = fresh
                   /\ sym_members ds !! _id Names.attached = Some fresh).
Proof.
  intros Hod Hclass Hmem fresh.
  set (classData := Symbol_addLoc loc (mkSymbol owner cnst KClass [] [] ∅ false NoType emptyFlags)).
  set (gsB := withSymbols (alter (fun o => set_members (<[_id cnst := fresh]> (sym_members o)) o)
                                 owner (symbols gs) ++ [classData]) gs).
  assert (Howner : owner < fresh) by (by eapply lookup_lt_Some).
  assert (HlenB : length (symbols gsB) = S fresh).
  { subst gsB. simpl. rewrite length_app, length_alter. simpl. unfold fresh. lia. }
  assert (HclassB : symbols gsB !! fresh = Some classData).
  { subst gsB. simpl. rewrite lookup_app_r by (by rewrite length_alter).
    by rewrite length_alter, Nat.sub_diag. }
  assert (HownerB : symbols gsB !! owner
                    = Some (set_members (<[_id cnst := fresh]> (sym_members od)) od)).
  { subst gsB. simpl. rewrite lookup_app_l by (by rewrite length_alter).
    by rewrite list_lookup_alter_eq, Hod. }
  destruct (Symbol_addLoc_core loc (mkSymbol owner cnst KClass [] [] ∅ false NoType emptyFlags))
    as (Hco & Hcn & Hck & Hcm). fold classData in Hco, Hcn, Hck, Hcm. simpl in Hco, Hcn, Hck, Hcm.
  destruct (enterName_run (UNIQUE Singleton 1 (sym_name classData)) gsB)
    as (name & gsN & Hname & Hsyms & Herrs & _ & _ & _).
  eexists. split.
  { cbn [NameInserter.squashNames].
    erewrite bind_run by reflexivity. cbv beta iota.
    erewrite bind_run by (by apply symData_run).
    erewrite bind_run by reflexivity.
    unfold NameInserter.findMember, findMemberNoDealias. rewrite Hmem.
    cbv [default from_option id].
    change (SymbolRef_exists Symbols.noSymbol) with false. cbv iota.
    change (SymbolRef_exists Symbols.noSymbol) with false.
    rewrite Hclass. cbn [negb]. cbv iota.
    unfold enterClassSymbol. erewrite bind_run by (by eapply enterSymbol_fresh).
    fold fresh. fold classData. fold gsB.
    unfold bind at 1. unfold singletonClass.
    erewrite bind_run by (by apply symData_run).
    rewrite Hcm, lookup_empty.
    unfold freshNameUnique. erewrite bind_run by exact Hname.
    erewrite bind_run by reflexivity. unfold bind, modify, ret.
    rewrite Hsyms, HlenB. reflexivity. }
  cbn [errors_ symbols withSymbols]. split_and!.
  - by rewrite Herrs.
  - rewrite length_app, length_alter, HlenB. simpl. lia.
  - eexists. split.
    + rewrite lookup_app_l by (rewrite length_alter, HlenB; lia).
      rewrite list_lookup_alter_ne by lia. exact HownerB.
    + done.
  - eexists. split.
    + rewrite lookup_app_l by (rewrite length_alter, HlenB; lia).
      rewrite list_lookup_alter_eq, HclassB. reflexivity.
    + simpl. split_and!; try done; by rewrite lookup_insert_eq.
  - eexists. split.
    + rewrite lookup_app_r by (rewrite length_alter, HlenB; lia).
      rewrite length_alter, HlenB, Nat.sub_diag. reflexivity.
    + simpl. split_and!; try done; by rewrite lookup_singleton_eq.
Qed.

End SquashNames.
Section ModuleFunction.
Import Spec Notions.
Context `{B : Build} `{C : NamerCollaborators}.

(** At the end of a method definition the scope of the method is left.
    Under an active [module_function] of the enclosing scope, and for an
    owner whose singleton class exists, the singleton class gets an alias
    of the method under the method's name: if it has no member of that
    name, exactly one method symbol is entered there, whose result type
    is the alias of the method; if it has one, no symbol is entered and
    the result type of that member is overwritten with the alias.
    Without [module_function] the state is left as it is. *)
Theorem postTransformMethodDef_module_function st frame top method gs md od s sd :
  symbols gs !! md_symbol method = Some md ->
  length (md_args method) = length (sym_arguments md) ->
  symbols gs !! sym_owner md = Some od ->
  sym_members od !! _id Names.singleton = Some s ->
  symbols gs !! s = Some sd ->
  (forall existing, sym_members sd !! _id (sym_name md) = Some existing ->
                    existing < length (symbols gs)) ->
  exists gs',
    NameInserter.postTransformMethodDef (st ++ [frame; top]) method gs
    = (Returns (st ++ [frame], method), gs')
    /\ if NameInserter.moduleFunctionActive frame
       then match sym_members sd !! _id (sym_name md) with
            | None =>
                let alias := length (symbols gs) in
                errors_ gs' = errors_ gs
                /\ length (symbols gs') = S alias
                /\ (exists sd', symbols gs' !! s = Some sd'
                                /\ sym_members sd'
                                   = <[_id (sym_name md) := alias]> (sym_members sd))
                /\ (exists ad, symbols gs' !! alias = Some ad
                               /\ sym_kind ad = KMethod /\ sym_owner ad = s
                               /\ sym_name ad = sym_name md
                               /\ sym_resultType ad = AliasType (md_symbol method))
            | Some existing =>
                gs' = withSymbols
                        (alter (NameInserter.set_resultType (AliasType (md_symbol method)))
                               existing (symbols gs)) gs
            end
       else gs' = gs.
Proof.
  intros Hmd Hargs Hod Hsing Hsd Hexisting.
  set (alias := length (symbols gs)).
  assert (Hs : s < alias) by (by eapply lookup_lt_Some).
  assert (Henforce : forall gs1 md1,
             symbols gs1 !! md_symbol method = Some md1 ->
             sym_arguments md1 = sym_arguments md ->
             (if debug_mode
              then bind (symData (md_symbol method))
                     (fun symbolData =>
                        ENFORCE (length (md_args method) =? length (sym_arguments symbolData)))
              else ret tt) gs1 = (Returns tt, gs1)).
  { intros gs1 md1 Hmd1 Hsame. destruct debug_mode eqn:Hdebug; [|done].
    erewrite bind_run by (by apply symData_run).
    apply ENFORCE_true. apply Nat.eqb_eq. by rewrite Hsame. }
  unfold NameInserter.postTransformMethodDef, NameInserter.exitScope.
  erewrite bind_run by (by eapply Henforce).
  replace (st ++ [frame; top]) with ((st ++ [frame]) ++ [top]) by (by rewrite <- app_assoc).
  rewrite removelast_last, last_snoc.
  destruct (NameInserter.moduleFunctionActive frame) eqn:Hactive; unfold whenM.
  2:{ eexists. split; [|reflexivity].
      erewrite bind_run by reflexivity. erewrite bind_run by (by eapply Henforce). reflexivity. }
  assert (Hm : md_symbol method < alias) by (by eapply lookup_lt_Some).
  destruct (sym_members sd !! _id (sym_name md)) as [existing|] eqn:Hmember.
  - (* the singleton class holds a member of that name *)
    destruct (lookup_lt_is_Some_2 (symbols gs) existing (Hexisting _ eq_refl)) as [ed Hed].
    assert (Hrun : bind (symData (md_symbol method))
                     (fun symbolData =>
                        NameInserter.aliasModuleFunction (Symbol_loc symbolData) (md_symbol method)) gs
                   = (Returns tt,
                      withSymbols (alter (NameInserter.set_resultType (AliasType (md_symbol method)))
                                         existing (symbols gs)) gs)).
    { erewrite bind_run by (by apply symData_run).
      unfold NameInserter.aliasModuleFunction.
      erewrite bind_run by (by apply symData_run).
      erewrite bind_run by (by eapply singletonClass_found).
      erewrite bind_run by (by apply symData_run).
      unfold NameInserter.aliasMethod, enterMethodSymbol.
      erewrite bind_run by (by eapply enterSymbol_found).
      by apply updSymbol_run with ed. }
    eexists. split; [|reflexivity].
    erewrite bind_run by exact Hrun.
    assert (exists md1,
               alter (NameInserter.set_resultType (AliasType (md_symbol method))) existing
                     (symbols gs) !! md_symbol method = Some md1
               /\ sym_arguments md1 = sym_arguments md) as (md1 & Hmd1 & Hsame).
    { destruct (decide (existing = md_symbol method)) as [Heq|Hne].
      - rewrite <- Heq, list_lookup_alter_eq, Hed. eexists. split; [reflexivity|].
        simpl. rewrite Heq in Hed. congruence.
      - rewrite list_lookup_alter_ne by done. eauto. }
    erewrite bind_run; [reflexivity|]. by eapply Henforce.
  - (* no member of that name: a symbol is entered *)
    set (aliasData := Symbol_addLoc (Symbol_loc md)
                        (mkSymbol s (sym_name md) KMethod [] [] ∅ false NoType emptyFlags)).
    destruct (Symbol_addLoc_core (Symbol_loc md)
                (mkSymbol s (sym_name md) KMethod [] [] ∅ false NoType emptyFlags))
      as (Hao & Han & Hak & Ham). fold aliasData in Hao, Han, Hak, Ham.
    simpl in Hao, Han, Hak, Ham.
    set (gsA := withSymbols (alter (fun o => set_members (<[_id (sym_name md) := alias]> (sym_members o)) o)
                                   s (symbols gs) ++ [aliasData]) gs).
    assert (HaliasA : symbols gsA !! alias = Some aliasData).
    { subst gsA. simpl. rewrite lookup_app_r by (by rewrite length_alter).
      by rewrite length_alter, Nat.sub_diag. }
    assert (Hrun : bind (symData (md_symbol method))
                     (fun symbolData =>
                        NameInserter.aliasModuleFunction (Symbol_loc symbolData) (md_symbol method)) gs
                   = (Returns tt, withSymbols (alter (NameInserter.set_resultType (AliasType (md_symbol method)))
                                                     alias (symbols gsA)) gsA)).
    { erewrite bind_run by (by apply symData_run).
      unfold NameInserter.aliasModuleFunction.
      erewrite bind_run by (by apply symData_run).
      erewrite bind_run by (by eapply singletonClass_found).
      erewrite bind_run by (by apply symData_run).
      unfold NameInserter.aliasMethod, enterMethodSymbol.
      erewrite bind_run by (by eapply enterSymbol_fresh).
      fold alias. fold aliasData. fold gsA.
      by apply updSymbol_run with aliasData. }
    eexists. split.
    + erewrite bind_run by exact Hrun.
      assert (exists md1,
                 alter (NameInserter.set_resultType (AliasType (md_symbol method))) alias (symbols gsA)
                 !! md_symbol method = Some md1
                 /\ sym_arguments md1 = sym_arguments md) as (md1 & Hmd1 & Hsame).
      { rewrite list_lookup_alter_ne by lia. subst gsA. cbn [symbols withSymbols].
        rewrite lookup_app_l by (by rewrite length_alter).
        destruct (decide (s = md_symbol method)) as [Heq|Hne].
        - rewrite <- Heq, list_lookup_alter_eq, Hsd. eexists. split; [reflexivity|].
          simpl. rewrite Heq in Hsd. congruence.
        - rewrite list_lookup_alter_ne by done. eauto. }
      erewrite bind_run; [reflexivity|].
      by eapply Henforce.
    + cbn [errors_ symbols withSymbols]. split_and!.
      * done.
      * rewrite length_alter. subst gsA. simpl. rewrite length_app, length_alter. simpl.
        unfold alias. lia.
      * eexists. split.
        -- rewrite list_lookup_alter_ne by lia. subst gsA. simpl.
           rewrite lookup_app_l by (by rewrite length_alter).
           rewrite list_lookup_alter_eq, Hsd. reflexivity.
        -- done.
      * eexists. split.
        -- rewrite list_lookup_alter_eq, HaliasA. reflexivity.
        -- by simpl.
Qed.
End ModuleFunction.

(** *** Instances on the sample tables *)

Section Instances.
Import pipeline Spec Notions.

Lemma NameRef_new_passes_check_witness :
  deepCloneHistory Sample.gsCloneB = deepCloneHistory Sample.gsCloneA
  /\ NameRef_new Sample.gsCloneA 11 = mkNameRef 11 1
  /\ @enforceCorrectGlobalState Sample.debugBuild (NameRef_new Sample.gsCloneA 11)
       Sample.gsCloneB
     = (Returns tt, Sample.gsCloneB).
Proof.
  split; [reflexivity|]. split; [reflexivity|].
  exact (proj2 (@NameRef_new_passes_check Sample.debugBuild Sample.gsCloneA Sample.gsCloneB 11)
           eq_refl eq_refl).
Defined.

Lemma Name_deepCopy_valid_witness :
  Name_deepCopy Sample.gsNames (CONSTANT (mkNameRef 1 1))
  = CONSTANT (NameRef_new Sample.gsNames 1)
  /\ @enforceCorrectGlobalState Sample.debugBuild (NameRef_new Sample.gsNames 1) Sample.gsNames
     = (Returns tt, Sample.gsNames).
Proof.
  split; [reflexivity|].
  apply (proj2 (proj2 (@Name_deepCopy_valid Sample.debugBuild Sample.gsNames
                         (CONSTANT (mkNameRef 1 1)) 2))).
  right. reflexivity.
Defined.

Lemma Name_show_returns_witness :
  @tableReadable Sample.debugBuild Sample.gsNames
  /\ exists shown short,
      forall budget, 3 <= budget ->
        @Name_show Sample.debugBuild budget (UNIQUE MangleRename 1 (mkNameRef 1 1)) Sample.gsNames
        = (Returns (Some shown), Sample.gsNames)
        /\ @Name_shortName Sample.debugBuild budget (UNIQUE MangleRename 1 (mkNameRef 1 1))
             Sample.gsNames
           = (Returns (Some short), Sample.gsNames).
Proof.
  assert (Hreadable : @tableReadable Sample.debugBuild Sample.gsNames).
  { intros i nm original Hi Horiginal.
    do 4 (destruct i as [|i];
          [injection Hi as <-; first [discriminate Horiginal
                                     | injection Horiginal as <-; split; [simpl; lia|];
                                       intros _; split; reflexivity]|]).
    discriminate Hi. }
  split; [exact Hreadable|].
  apply (@Name_show_returns Sample.debugBuild Sample.gsNames 3
           (UNIQUE MangleRename 1 (mkNameRef 1 1)) Hreadable).
  reflexivity.
Defined.

Lemma NameRef_affixes_witness :
  @NameRef_data Sample.debugBuild (mkNameRef 1 2) Sample.gsNames
  = (Returns (UTF8 "bar"), Sample.gsNames)
  /\ internsUTF8 (@NameRef_addEq Sample.debugBuild (mkNameRef 1 2)) Sample.gsNames "bar=".
Proof.
  split; [reflexivity|].
  apply (proj1 (@NameRef_affixes Sample.debugBuild (mkNameRef 1 2) "bar" Sample.gsNames
                  eq_refl)).
Defined.

Lemma NameRef_affix_of_derived_name_raises_witness :
  @NameRef_data Sample.debugBuild (mkNameRef 2 2) Sample.gsNames
  = (Returns (CONSTANT (mkNameRef 1 1)), Sample.gsNames)
  /\ @NameRef_addEq Sample.debugBuild (mkNameRef 2 2) Sample.gsNames = (Throws, Sample.gsNames).
Proof.
  split; [reflexivity|].
  apply (proj1 (@NameRef_affix_of_derived_name_raises Sample.debugBuild (mkNameRef 2 2)
                  (CONSTANT (mkNameRef 1 1)) Sample.gsNames eq_refl eq_refl eq_refl)).
Defined.

Lemma readFileWithStrictnessOverrides_reads_once_witness :
  1 < length (files Sample.gsReserved)
  /\ @readFileWithStrictnessOverrides Sample.debugBuild Sample.phases 1 Sample.optsPlain
       (snd (@readFileWithStrictnessOverrides Sample.debugBuild Sample.phases 1 Sample.optsPlain
               Sample.gsReserved))
     = (Returns tt,
        snd (@readFileWithStrictnessOverrides Sample.debugBuild Sample.phases 1 Sample.optsPlain
               Sample.gsReserved)).
Proof.
  assert (Hfile : 1 < length (files Sample.gsReserved)) by (simpl; lia).
  split; [exact Hfile|].
  exact (proj2 (@readFileWithStrictnessOverrides_reads_once Sample.debugBuild Sample.phases 1
                  Sample.optsPlain Sample.gsReserved) Hfile).
Defined.

Lemma readFileWithStrictnessOverrides_source_witness :
  sourceType (FileRef_data Sample.gsReserved 1) = NotYetRead
  /\ 1 < length (files Sample.gsReserved)
  /\ emitted Sample.gsReserved
       (snd (@readFileWithStrictnessOverrides Sample.debugBuild Sample.phases 1
               Sample.optsMaxTrue Sample.gsReserved))
     = [mkError (Loc_none 1) errors.Internal.FileNotFound "File Not Found"].
Proof.
  assert (Hfile : 1 < length (files Sample.gsReserved)) by (simpl; lia).
  split; [reflexivity|]. split; [exact Hfile|].
  exact (proj1 (proj2 (proj2 (@readFileWithStrictnessOverrides_source Sample.debugBuild
                                Sample.phases 1 Sample.optsMaxTrue Sample.gsReserved
                                eq_refl Hfile)))).
Defined.

Lemma readFileWithStrictnessOverrides_raises_witness :
  sourceType (FileRef_data Sample.gsReserved 1) = NotYetRead
  /\ 1 < length (files Sample.gsReserved)
  /\ strictLevel (FileRef_data
                    (snd (@readFileWithStrictnessOverrides Sample.debugBuild Sample.phases 1
                            Sample.optsPlain Sample.gsReserved)) 1)
     = @levelRead Sample.phases 1 Sample.optsPlain Sample.gsReserved.
Proof.
  assert (Hfile : 1 < length (files Sample.gsReserved)) by (simpl; lia).
  split; [reflexivity|]. split; [exact Hfile|].
  exact (proj1 (@readFileWithStrictnessOverrides_raises Sample.debugBuild Sample.phases 1
                  Sample.optsPlain Sample.gsReserved eq_refl Hfile)).
Defined.

Lemma readFileWithStrictnessOverrides_then_indexOne_witness :
  @readFileWithStrictnessOverrides Sample.debugBuild Sample.phases 1 Sample.optsPlain
    Sample.gsReserved
  = (Returns tt,
     snd (@readFileWithStrictnessOverrides Sample.debugBuild Sample.phases 1 Sample.optsPlain
            Sample.gsReserved))
  /\ fst (@indexOneEnforce Sample.debugBuild Sample.optsPlain 1
            (snd (@readFileWithStrictnessOverrides Sample.debugBuild Sample.phases 1
                    Sample.optsPlain Sample.gsReserved)))
     = Returns tt.
Proof.
  assert (Hfile : 1 < length (files Sample.gsReserved)) by (simpl; lia).
  assert (Hrun : @readFileWithStrictnessOverrides Sample.debugBuild Sample.phases 1
                   Sample.optsPlain Sample.gsReserved
                 = (Returns tt,
                    snd (@readFileWithStrictnessOverrides Sample.debugBuild Sample.phases 1
                           Sample.optsPlain Sample.gsReserved)))
    by (vm_compute; reflexivity).
  split; [exact Hrun|].
  exact (proj2 (@readFileWithStrictnessOverrides_then_indexOne Sample.debugBuild Sample.phases 1
                  Sample.optsPlain Sample.gsReserved _ eq_refl Hfile Hrun)).
Defined.

Lemma fetchTreeFromCache_miss_witness :
  Sample.cacheWithA !! @fileKey Sample.phases (Sample.gsWith [Sample.falseFile "b.rb"]) 1 = None
  /\ @fetchTreeFromCache Sample.debugBuild Sample.phases 1 (Some Sample.cacheWithA)
       (Sample.gsWith [Sample.falseFile "b.rb"])
     = (Returns None, Sample.gsWith [Sample.falseFile "b.rb"]).
Proof.
  assert (Hmiss : Sample.cacheWithA
                  !! @fileKey Sample.phases (Sample.gsWith [Sample.falseFile "b.rb"]) 1 = None)
    by (vm_compute; reflexivity).
  split; [exact Hmiss|].
  apply (proj1 (@fetchTreeFromCache_miss Sample.debugBuild Sample.phases 1
                  (Some Sample.cacheWithA) (Sample.gsWith [Sample.falseFile "b.rb"]))).
  intros store Hstore _. injection Hstore as <-. exact Hmiss.
Defined.

Lemma fetchTreeFromCache_hit_witness :
  1 < length (files (Sample.gsWith [Sample.falseFile "a.rb"]))
  /\ Sample.cacheWithA !! @fileKey Sample.phases (Sample.gsWith [Sample.falseFile "a.rb"]) 1
     = Some []
  /\ @fetchTreeFromCache Sample.debugBuild Sample.phases 1 (Some Sample.cacheWithA)
       (Sample.gsWith [Sample.falseFile "a.rb"])
     = (Returns (Some Sample.cachedA),
        withFiles (alter (set_cachedParseTree true) 1
                         (files (Sample.gsWith [Sample.falseFile "a.rb"])))
                  (Sample.gsWith [Sample.falseFile "a.rb"])).
Proof.
  assert (Hfile : 1 < length (files (Sample.gsWith [Sample.falseFile "a.rb"])))
    by (simpl; lia).
  assert (Hkey : Sample.cacheWithA
                 !! @fileKey Sample.phases (Sample.gsWith [Sample.falseFile "a.rb"]) 1
                 = Some []) by (vm_compute; reflexivity).
  split; [exact Hfile|]. split; [exact Hkey|].
  exact (@fetchTreeFromCache_hit Sample.debugBuild Sample.phases 1 Sample.cacheWithA
           (Sample.gsWith [Sample.falseFile "a.rb"]) [] Sample.cachedA
           (Sample.gsWith [Sample.falseFile "a.rb"]) Hfile Hkey eq_refl).
Defined.

Lemma cacheTrees_then_fetch_witness :
  cachedParseTree (FileRef_data (Sample.gsWith [Sample.falseFile "a.rb"]) 1) = false
  /\ @fetchTreeFromCache Sample.debugBuild Sample.phases 1
       (@cacheTrees Sample.phases (Sample.gsWith [Sample.falseFile "a.rb"]) (Some ∅)
          [mkParsedFile Sample.cachedA 1])
       (Sample.gsWith [Sample.falseFile "a.rb"])
     = (Returns (Some Sample.cachedA),
        withFiles (alter (set_cachedParseTree true) 1
                         (files (Sample.gsWith [Sample.falseFile "a.rb"])))
                  (Sample.gsWith [Sample.falseFile "a.rb"])).
Proof.
  split; [reflexivity|].
  apply (@cacheTrees_then_fetch Sample.debugBuild Sample.phases
           (Sample.gsWith [Sample.falseFile "a.rb"]) ∅ (mkParsedFile Sample.cachedA 1)).
  - simpl. lia.
  - reflexivity.
  - reflexivity.
  - reflexivity.
Defined.

Lemma index_of_cached_tree_witness :
  @fetchTreeFromCache Sample.debugBuild Sample.phases 1 (Some Sample.cacheWithA)
    (Sample.gsWith [Sample.falseFile "a.rb"])
  = (Returns (Some Sample.cachedA),
     withFiles (alter (set_cachedParseTree true) 1
                      (files (Sample.gsWith [Sample.falseFile "a.rb"])))
               (Sample.gsWith [Sample.falseFile "a.rb"]))
  /\ fst (@indexOneWithPlugins Sample.debugBuild Sample.phases Sample.optsStopParser 1
            (Some Sample.cacheWithA) (Sample.gsWith [Sample.falseFile "a.rb"]))
     = Returns (mkParsedFile Sample.cachedA 1, []).
Proof.
  assert (Hfetch : @fetchTreeFromCache Sample.debugBuild Sample.phases 1
                     (Some Sample.cacheWithA) (Sample.gsWith [Sample.falseFile "a.rb"])
                   = (Returns (Some Sample.cachedA),
                      withFiles (alter (set_cachedParseTree true) 1
                                       (files (Sample.gsWith [Sample.falseFile "a.rb"])))
                                (Sample.gsWith [Sample.falseFile "a.rb"])))
    by (vm_compute; reflexivity).
  split; [exact Hfetch|].
  exact (f_equal fst (proj2 (@index_of_cached_tree Sample.debugBuild Sample.phases Sample.optsStopParser
                               1 (Some Sample.cacheWithA)
                               (Sample.gsWith [Sample.falseFile "a.rb"]) _ _ Hfetch))).
Defined.

Lemma ignored_file_is_not_parsed_witness :
  strictLevel (FileRef_data (Sample.gsWith [Sample.ignoredFile]) 1) = StrictLevel.Ignore
  /\ @indexOneWithPlugins Sample.debugBuild Sample.phases Sample.optsPlain 1 None
       (Sample.gsWith [Sample.ignoredFile])
     = (Returns (emptyParsedFile 1, []), Sample.gsWith [Sample.ignoredFile]).
Proof.
  split; [reflexivity|].
  exact (proj2 (@ignored_file_is_not_parsed Sample.debugBuild Sample.phases Sample.optsPlain 1
                  None (Sample.gsWith [Sample.ignoredFile]) eq_refl eq_refl)).
Defined.

Lemma early_stop_returns_empty_tree_witness :
  stopAfterPhase Sample.optsStopParser = Phase.PARSER
  /\ exists gs',
      @indexOneWithPlugins Sample.debugBuild Sample.phases Sample.optsStopParser 2 None
        (Sample.gsWith [Sample.falseFile "a.rb"; Sample.falseFile "b.rb"])
      = (Returns (emptyPluginFile 2), gs').
Proof.
  split; [reflexivity|].
  apply (proj1 (@early_stop_returns_empty_tree Sample.debugBuild Sample.phases Sample.optsStopParser 2
                  None (Sample.gsWith [Sample.falseFile "a.rb"; Sample.falseFile "b.rb"])
                  (or_intror (conj eq_refl (or_introl eq_refl))))).
Defined.

Lemma addAncestor_appends_in_reverse_witness :
  isSelfReference Sample.self = true
  /\ NameInserter.addAncestor Sample.klassFoo
       (Send (mkLoc 1 (Some (12, 27))) Sample.self Names.include Sample.includeFoo None) Sample.gsFoo
     = (Returns (true,
                 mkClassDefNode (cd_loc Sample.klassFoo) (cd_declLoc Sample.klassFoo) 8 Class_
                                EmptyTree [Sample.constFoo] [] []),
        withErrors [ancestorNotConstant (Literal (mkLoc 1 (Some (25, 26))) "1")] Sample.gsFoo).
Proof.
  split; [reflexivity|].
  apply (addAncestor_appends_in_reverse Sample.klassFoo (mkLoc 1 (Some (12, 27))) Sample.self
           Names.include Sample.includeFoo Sample.gsFoo).
  - reflexivity.
  - reflexivity.
  - discriminate.
Defined.

Lemma addAncestor_rejects_witness :
  NameRef_eqb Names.include Names.include || NameRef_eqb Names.include Names.extend = true
  /\ isSelfReference Sample.self = true
  /\ NameInserter.addAncestor Sample.klassFoo
       (Send (mkLoc 1 (Some (12, 19))) Sample.self Names.include [] None) Sample.gsFoo
     = (Returns (false, Sample.klassFoo),
        withErrors (errors_ Sample.gsFoo
                    ++ [mkError (mkLoc 1 (Some (12, 19))) errors.Namer.IncludeMutipleParam
                                "`{}` requires at least one argument"]) Sample.gsFoo).
Proof.
  split; [reflexivity|]. split; [reflexivity|].
  exact (proj1 (proj2 (addAncestor_rejects Sample.klassFoo (mkLoc 1 (Some (12, 19))) Sample.self
                         Names.include [] None Sample.gsFoo)) eq_refl eq_refl eq_refl).
Defined.

(** The premises on a member that is defined again, by evaluation. *)
Ltac sample_definesMember :=
  split; [reflexivity|]; split;
  [eexists; split_and!; [vm_compute; reflexivity | reflexivity | vm_compute; reflexivity]|];
  split; [discriminate|]; split; [vm_compute; reflexivity|];
  vm_compute; repeat constructor.

Lemma preTransformMethodDef_same_definition_witness :
  @definesMember Sample.namerCollaborators Sample.gsBar 8 Sample.defBarX 8 9 Sample.symBar
  /\ md_declLoc Sample.defBarX = Symbol_loc Sample.symBar
  /\ exists args',
      Forall2 sameArg (sym_arguments Sample.symBar) args'
      /\ @NameInserter.preTransformMethodDef Sample.debugBuild Sample.namerCollaborators
           [] 8 Sample.defBarX Sample.gsBar
         = (Returns (NameInserter.enterScope [],
                     NameInserter.withSymbolAndArgs Sample.defBarX 9
                       (argLocals (@parseArgs Sample.namerCollaborators Sample.gsBar
                                     (md_args Sample.defBarX)))),
            withSymbol 9 (set_arguments args' Sample.symBar) Sample.gsBar).
Proof.
  assert (Hdef : @definesMember Sample.namerCollaborators Sample.gsBar 8 Sample.defBarX 8 9
                   Sample.symBar) by sample_definesMember.
  assert (Hloc : md_declLoc Sample.defBarX = Symbol_loc Sample.symBar) by (vm_compute; reflexivity).
  split; [exact Hdef|]. split; [exact Hloc|].
  apply (@preTransformMethodDef_same_definition Sample.debugBuild Sample.namerCollaborators
           Sample.gsBar [] 8 Sample.defBarX 8 9 Sample.symBar Hdef Hloc).
  - vm_compute. reflexivity.
  - vm_compute. lia.
Defined.

Lemma preTransformMethodDef_same_shape_witness :
  @definesMember Sample.namerCollaborators Sample.gsBar 8 Sample.defBarY 8 9 Sample.symBar
  /\ md_declLoc Sample.defBarY <> Symbol_loc Sample.symBar
  /\ sameShape (sym_arguments Sample.symBar)
               (@parseArgs Sample.namerCollaborators Sample.gsBar (md_args Sample.defBarY)) = true
  /\ exists args',
      Forall2 sameArg (sym_arguments Sample.symBar) args'
      /\ @NameInserter.preTransformMethodDef Sample.debugBuild Sample.namerCollaborators
           [] 8 Sample.defBarY Sample.gsBar
         = (Returns (NameInserter.enterScope [],
                     NameInserter.withSymbolAndArgs Sample.defBarY 9
                       (argLocals (@parseArgs Sample.namerCollaborators Sample.gsBar
                                     (md_args Sample.defBarY)))),
            withSymbol 9
              (Symbol_addLoc (md_declLoc Sample.defBarY)
                 (set_arguments args' (Symbol_addLoc (md_declLoc Sample.defBarY) Sample.symBar)))
              Sample.gsBar).
Proof.
  assert (Hdef : @definesMember Sample.namerCollaborators Sample.gsBar 8 Sample.defBarY 8 9 Sample.symBar)
    by sample_definesMember.
  assert (Hloc : md_declLoc Sample.defBarY <> Symbol_loc Sample.symBar) by (vm_compute; discriminate).
  assert (Hshape : sameShape (sym_arguments Sample.symBar)
                     (@parseArgs Sample.namerCollaborators Sample.gsBar (md_args Sample.defBarY))
                   = true) by (vm_compute; reflexivity).
  split; [exact Hdef|]. split; [exact Hloc|]. split; [exact Hshape|].
  apply (@preTransformMethodDef_same_shape Sample.debugBuild Sample.namerCollaborators
           Sample.gsBar [] 8 Sample.defBarY 8 9 Sample.symBar Hdef Hloc).
  - vm_compute. reflexivity.
  - reflexivity.
  - exact Hshape.
Defined.

Lemma paramsMatch_decides_witness :
  symbols Sample.gsBar !! @dealias Sample.namerCollaborators Sample.gsBar 9 = Some Sample.symBar
  /\ exists gs',
      @NameInserter.paramsMatch Sample.namerCollaborators 9 (md_declLoc Sample.defBarXY)
        (@parseArgs Sample.namerCollaborators Sample.gsBar (md_args Sample.defBarXY))
        Sample.gsBar
      = (Returns false, gs')
      /\ symbols gs' = symbols Sample.gsBar.
Proof.
  assert (Hsym : symbols Sample.gsBar !! @dealias Sample.namerCollaborators Sample.gsBar 9
                 = Some Sample.symBar) by (vm_compute; reflexivity).
  split; [exact Hsym|].
  destruct (@paramsMatch_decides Sample.namerCollaborators 9 (md_declLoc Sample.defBarXY)
              (@parseArgs Sample.namerCollaborators Sample.gsBar (md_args Sample.defBarXY))
              Sample.gsBar Sample.symBar Hsym) as (gs' & Hrun & Hsymbols & _).
  exists gs'. split; [exact Hrun|exact Hsymbols].
Defined.

Lemma squashNames_enters_class_witness :
  symbols Sample.gsFoo !! Symbols.root = Some Sample.dummySymbol
  /\ exists gs',
      @NameInserter.squashNames Sample.namerCollaborators Symbols.root Sample.constFoo Sample.gsFoo
      = (Returns (9, ConstantLit (mkLoc 1 (Some (6, 9))) 9 Sample.constFoo), gs')
      /\ errors_ gs' = errors_ Sample.gsFoo.
Proof.
  split; [reflexivity|].
  destruct (@squashNames_enters_class Sample.namerCollaborators Symbols.root
              (mkLoc 1 (Some (6, 9))) (mkNameRef 11 1) Sample.gsFoo Sample.dummySymbol
              eq_refl eq_refl eq_refl) as (gs' & Hrun & Herrors & _).
  exists gs'. split; [exact Hrun|exact Herrors].
Defined.

Lemma squashNames_again_witness :
  let gs' := snd (@NameInserter.squashNames Sample.namerCollaborators Symbols.root Sample.constFoo
                    Sample.gsFoo) in
  @NameInserter.squashNames Sample.namerCollaborators Symbols.root Sample.constFoo Sample.gsFoo
  = (Returns (9, ConstantLit (mkLoc 1 (Some (6, 9))) 9 Sample.constFoo), gs')
  /\ @NameInserter.squashNames Sample.namerCollaborators Symbols.root Sample.constFoo gs'
     = (Returns (9, ConstantLit (mkLoc 1 (Some (6, 9))) 9 Sample.constFoo), gs').
Proof.
  intros gs'.
  assert (Hrun : @NameInserter.squashNames Sample.namerCollaborators Symbols.root Sample.constFoo
                   Sample.gsFoo
                 = (Returns (9, ConstantLit (mkLoc 1 (Some (6, 9))) 9 Sample.constFoo), gs'))
    by (vm_compute; reflexivity).
  split; [exact Hrun|].
  apply (@squashNames_again Sample.namerCollaborators Symbols.root Sample.constFoo Sample.gsFoo 9
           (ConstantLit (mkLoc 1 (Some (6, 9))) 9 Sample.constFoo) gs').
  - reflexivity.
  - exact Hrun.
  - vm_compute. reflexivity.
Defined.

Lemma postTransformMethodDef_module_function_witness :
  symbols Sample.gsBarSingleton !! md_symbol Sample.namedBarX = Some Sample.symBar
  /\ exists gs',
      @NameInserter.postTransformMethodDef Sample.debugBuild
        [NameInserter.mkLocalFrame true; NameInserter.mkLocalFrame false] Sample.namedBarX
        Sample.gsBarSingleton
      = (Returns ([NameInserter.mkLocalFrame true], Sample.namedBarX), gs')
      /\ exists ad, symbols gs' !! 11 = Some ad
                    /\ sym_owner ad = 10 /\ sym_resultType ad = AliasType 9.
Proof.
  assert (Hmethod : symbols Sample.gsBarSingleton !! md_symbol Sample.namedBarX = Some Sample.symBar)
    by (vm_compute; reflexivity).
  split; [exact Hmethod|].
  destruct (@postTransformMethodDef_module_function Sample.debugBuild []
              (NameInserter.mkLocalFrame true) (NameInserter.mkLocalFrame false) Sample.namedBarX
              Sample.gsBarSingleton Sample.symBar
              (default Sample.dummySymbol (symbols Sample.gsBarSingleton !! 8)) 10
              (default Sample.dummySymbol (symbols Sample.gsBarSingleton !! 10)) Hmethod)
    as (gs' & Hrun & _ & _ & _ & ad & Had & _ & Howner & _ & Halias).
  - vm_compute. reflexivity.
  - vm_compute. reflexivity.
  - vm_compute. reflexivity.
  - vm_compute. reflexivity.
  - intros existing Hexisting. vm_compute in Hexisting. discriminate Hexisting.
  - exists gs'. split; [exact Hrun|]. exists ad. split; [exact Had|]. split; assumption.
Defined.
End Instances.
